(** * Triage and notification core of the messaging backend

    A shallow embedding of [src/main.py]: the keyword classifier
    [score_urgency], the message-creation entry point [create_message], the
    websocket registry [ConnectionManager] and the per-customer aggregation
    [conversations], followed by the properties of each.

    Conventions.
    - A Python [str] is a [string], one character per code point, for
      texts whose code points are below 256; [kw in t] is the substring test
      [str_in].
    - A Python [int] is a [Z].
    - [str.lower] is the Unicode lower-casing of the Python runtime.  The
      classifier is stated over an arbitrary [lower : string -> string], and
      [ascii_lower], which agrees with [str.lower] on ASCII text, is used at
      concrete inputs.
    - A [dict] whose iteration order matters is an association list in
      insertion order. *)

From Stdlib Require Import ZArith List String Ascii Bool Lia.
From Stdlib Require Import Permutation Sorted.
Import ListNotations.

Local Open Scope string_scope.
Local Open Scope Z_scope.

(** ** Strings *)

Module Str.

(** [starts_with p s]: [s.startswith(p)]. *)
Fixpoint starts_with (p s : string) : bool :=
  match p, s with
  | EmptyString, _ => true
  | String _ _, EmptyString => false
  | String a p', String b s' => Ascii.eqb a b && starts_with p' s'
  end.

(** [str_in kw t]: the Python expression [kw in t] on two strings. *)
Fixpoint str_in (kw t : string) : bool :=
  starts_with kw t ||
  match t with
  | EmptyString => false
  | String _ t' => str_in kw t'
  end.

(** Lower-casing of one ASCII character: [A]..[Z] go to [a]..[z], every other
    byte is kept. *)
Definition lower_char (c : ascii) : ascii :=
  let n := nat_of_ascii c in
  if (Nat.leb 65 n && Nat.leb n 90)%bool then ascii_of_nat (n + 32) else c.

Fixpoint ascii_lower (s : string) : string :=
  match s with
  | EmptyString => EmptyString
  | String c s' => String (lower_char c) (ascii_lower s')
  end.

End Str.
Import Str.

(** ** Classifier ([score_urgency], main.py 45-71) *)

Definition URGENT_KEYWORDS : list (string * list string) :=
  [ ("loan", ["loan"; "disburse"; "disbursal"; "approval"; "approved";
              "when will i get"; "payout"]);
    ("account", ["account"; "update"; "profile"; "change"; "password"]);
    ("kyc", ["kyc"; "verify"; "verification"; "id"; "identity"]);
    ("payment", ["payment"; "repay"; "repayment"; "due"; "overdue"]) ].

Definition EXTRA_URGENT : list string :=
  ["urgent"; "asap"; "immediately"; "now"; "help"].

(** [hits = sum(1 for kw in kws if kw in t)] *)
Definition hits_of (kws : list string) (t : string) : Z :=
  fold_left (fun acc kw => if str_in kw t then acc + 1 else acc) kws 0.

(** One iteration of [for tp, kws in URGENT_KEYWORDS.items()] on the pair
    [(score, topic)]. *)
Definition bucket_step (t : string) (st : Z * option string)
    (b : string * list string) : Z * option string :=
  let '(score, topic) := st in
  let '(tp, kws) := b in
  let hits := hits_of kws t in
  if hits =? 0 then st
  else (score + (30 + 10 * (hits - 1)),
        match topic with None => Some tp | Some _ => topic end).

(** The loop over an arbitrary bucket table, from the initial
    [score = 0], [topic = None]. *)
Definition scan_buckets (table : list (string * list string)) (t : string)
    : Z * option string :=
  fold_left (bucket_step t) table (0, None).

Section Classifier.

Variable lower : string -> string.

Definition score_urgency (text : string) : Z * option string :=
  let t := lower text in
  let '(score, topic) := scan_buckets URGENT_KEYWORDS t in
  let score :=
    if existsb (fun word => str_in word t) EXTRA_URGENT
    then score + 20 else score in
  let score :=
    if str_in "when" t &&
       (str_in "loan" t || str_in "disbur" t || str_in "approved" t)
    then score + 20 else score in
  (Z.min score 100, topic).

End Classifier.

(** ** Records

    [CreateMessage] is the request body of [POST /api/messages]; a [Message]
    is a document of the [message] collection as the endpoints read it back
    ([id] is the document's [_id]; identifiers are compared as the store
    compares them, so they are integers here). *)

Module CreateMessage.
Record t : Type := mk {
  customer_id : string;
  text : string;
  channel : string;
  direction : string
}.
End CreateMessage.

Record Message : Type := mkMessage {
  id : Z;
  customer_id : string;
  text : string;
  channel : string;
  direction : string;
  status : string;
  urgency_score : Z;
  topic : option string
}.

Record Customer : Type := mkCustomer {
  cust_id : string;
  name : string;
  email : string;
  phone : option string;
  account_id : option string;
  is_vip : bool;
  last_loan_status : option string;
  kyc_status : option string;
  notes : option string
}.

(** The two collections the modelled endpoints touch, each in the order the
    store scans it. *)
Record Db : Type := mkDb {
  message_coll : list Message;
  customer_coll : list Customer
}.

Inductive error : Type :=
| InvalidId          (* bson.errors.InvalidId, from [ObjectId(...)] *)
| OperationFailure   (* pymongo.errors.OperationFailure, from the server *)
| OverflowError.     (* BSON encoding of an int outside 64 bits *)

Inductive result (A : Type) : Type :=
| Ok (a : A)
| Raise (e : error).
Arguments Ok {A} a.
Arguments Raise {A} e.

Definition bind {A B : Type} (r : result A) (k : A -> result B) : result B :=
  match r with
  | Ok a => k a
  | Raise e => Raise e
  end.

Notation "x <- r ;; k" := (bind r (fun x => k))
  (at level 61, r at next level, right associativity).

(** ** WebSocket registry ([ConnectionManager], main.py 109-127) *)

Definition WebSocket : Type := nat.

(** [data] is what [serialize] returned: a document, or [None]. *)
Record Envelope : Type := mkEnvelope {
  type : string;
  data : option Message
}.

Record ConnectionManager : Type := mkManager {
  active : list WebSocket
}.

(** [list.remove(x)]: drops the first occurrence of [x]. *)
Fixpoint list_remove (ws : WebSocket) (l : list WebSocket) : list WebSocket :=
  match l with
  | [] => []
  | x :: l' => if Nat.eqb x ws then l' else x :: list_remove ws l'
  end.

(** [connect], once [websocket.accept()] has returned. *)
Definition connect (self : ConnectionManager) (websocket : WebSocket)
    : ConnectionManager :=
  mkManager (active self ++ [websocket]).

Definition disconnect (self : ConnectionManager) (websocket : WebSocket)
    : ConnectionManager :=
  if existsb (Nat.eqb websocket) (active self)
  then mkManager (list_remove websocket (active self))
  else self.

(** The body of [for ws in list(self.active)], run over the copy [snapshot].
    [send_json ws payload] tells whether [ws.send_json(payload)] returns
    ([true]) or raises ([false]).  The second component collects, in order,
    the sends that returned. *)
Fixpoint broadcast_loop (send_json : WebSocket -> Envelope -> bool)
    (payload : Envelope) (snapshot : list WebSocket)
    (self : ConnectionManager)
    : ConnectionManager * list (WebSocket * Envelope) :=
  match snapshot with
  | [] => (self, [])
  | ws :: rest =>
      if send_json ws payload then
        let '(self', sent) := broadcast_loop send_json payload rest self in
        (self', (ws, payload) :: sent)
      else
        broadcast_loop send_json payload rest (disconnect self ws)
  end.

Definition broadcast (send_json : WebSocket -> Envelope -> bool)
    (self : ConnectionManager) (message : option Message)
    : ConnectionManager * list (WebSocket * Envelope) :=
  let payload := mkEnvelope "message_created" message in
  broadcast_loop send_json payload (active self) self.

(** ** Message creation ([create_message], main.py 197-215) *)

(** Modelled from the spec: [database.create_document] is imported by
    [main.py] but is not part of the sources.  Following the data model
    ("created_order: a strictly increasing creation sequence ... derived
    from storage-assigned identifiers"), the store gives a new document an
    identifier above every identifier in the collection and appends it. *)
Definition fresh_id (coll : list Message) : Z :=
  1 + fold_left Z.max (map id coll) 0.

Definition create_document (db : Db) (d : Z -> Message) : Db * Z :=
  let mid := fresh_id (message_coll db) in
  (mkDb (message_coll db ++ [d mid]) (customer_coll db), mid).

Definition find_message (db : Db) (mid : Z) : option Message :=
  find (fun m => id m =? mid) (message_coll db).

Record App : Type := mkApp {
  db : Db;
  manager : ConnectionManager
}.

(** What one call of the endpoint produces: the new state, the response
    body, the envelopes delivered and the texts [score_urgency] was called
    on. *)
Record Created : Type := mkCreated {
  app_after : App;
  response : option Message;
  delivered : list (WebSocket * Envelope);
  classified : list string
}.

Section CreateMessage.

Variable lower : string -> string.
Variable send_json : WebSocket -> Envelope -> bool.

Definition create_message (app : App) (payload : CreateMessage.t) : Created :=
  let inbound := String.eqb (CreateMessage.direction payload) "inbound" in
  let '(urgency, topic, calls) :=
    if inbound
    then let '(u, tp) := score_urgency lower (CreateMessage.text payload) in
         (u, tp, [CreateMessage.text payload])
    else (0, None, []) in
  let data := fun mid =>
    mkMessage mid
      (CreateMessage.customer_id payload)
      (CreateMessage.text payload)
      (CreateMessage.channel payload)
      (CreateMessage.direction payload)
      (if inbound then "open" else "sent")
      urgency
      topic in
  let '(db', mid) := create_document (db app) data in
  let serialized := find_message db' mid in
  let '(manager', sent) := broadcast send_json (manager app) serialized in
  mkCreated (mkApp db' manager') serialized sent calls.

End CreateMessage.

(** ** Conversations per customer ([conversations], main.py 323-356)

    The endpoint builds an aggregation pipeline and hands it to the store.
    The stages are modelled after the store's documented behaviour:
    [$match] with a case-insensitive [$regex], [$group] with [$last], [$max]
    and [$addToSet], [$sort] on one key, [$limit]. *)

(** *** [$regex] with [$options: "i"]

    Patterns made of ordinary printable ASCII characters and of [.] are
    interpreted here; every other pattern is left to the engine [pcre],
    which may reject it. *)

Inductive atom : Type :=
| Lit (c : ascii)
| AnyChar.

Definition metachar (c : ascii) : bool :=
  existsb (Ascii.eqb c) (list_ascii_of_string "\^$.[]|()?*+{}").

Definition ordinary (c : ascii) : bool :=
  let n := nat_of_ascii c in
  Nat.leb 32 n && Nat.leb n 126 && negb (metachar c).

Fixpoint parse_simple (q : string) : option (list atom) :=
  match q with
  | EmptyString => Some []
  | String c q' =>
      let a := if Ascii.eqb c "." then Some AnyChar
               else if ordinary c then Some (Lit c) else None in
      match a, parse_simple q' with
      | Some x, Some r => Some (x :: r)
      | _, _ => None
      end
  end.

Definition newline : ascii := ascii_of_nat 10.

(** Caseless equality of two characters. *)
Definition ci_eqb (c d : ascii) : bool :=
  Ascii.eqb (lower_char c) (lower_char d).

Fixpoint match_here (atoms : list atom) (s : string) : bool :=
  match atoms, s with
  | [], _ => true
  | _ :: _, EmptyString => false
  | Lit c :: r, String d s' => ci_eqb c d && match_here r s'
  | AnyChar :: r, String d s' => negb (Ascii.eqb d newline) && match_here r s'
  end.

(** An unanchored pattern matches when it matches at some position. *)
Fixpoint search (atoms : list atom) (s : string) : bool :=
  match_here atoms s ||
  match s with
  | EmptyString => false
  | String _ s' => search atoms s'
  end.

Module Group.
Record t : Type := mk {
  _id : string;
  last_message : string;
  last_time : Z;
  max_urgency : Z;
  topics : list (option string)
}.
End Group.

Module Item.
Record t : Type := mk {
  customer_id : string;
  customer : option Customer;
  last_message : string;
  max_urgency : Z;
  topics : list string
}.
End Item.

Definition opt_string_eqb (a b : option string) : bool :=
  match a, b with
  | None, None => true
  | Some x, Some y => String.eqb x y
  | _, _ => false
  end.

(** The accumulators of [$group] on the first document of a group, and on
    each later one. *)
Definition group_init (m : Message) : Group.t :=
  Group.mk (customer_id m) (text m) (id m) (urgency_score m) [topic m].

Definition group_update (g : Group.t) (m : Message) : Group.t :=
  Group.mk (Group._id g) (text m) (id m)
    (Z.max (Group.max_urgency g) (urgency_score m))
    (if existsb (opt_string_eqb (topic m)) (Group.topics g)
     then Group.topics g else Group.topics g ++ [topic m]).

Fixpoint group_add (m : Message) (gs : list Group.t) : list Group.t :=
  match gs with
  | [] => [group_init m]
  | g :: gs' =>
      if String.eqb (Group._id g) (customer_id m)
      then group_update g m :: gs'
      else g :: group_add m gs'
  end.

Definition stage_group (docs : list Message) : list Group.t :=
  fold_left (fun gs m => group_add m gs) docs [].

Definition sort_field (sort : string) : Group.t -> Z :=
  if String.eqb sort "-urgency" then Group.max_urgency else Group.last_time.

(** What the store may hand back for [$group] followed by [$sort]: the
    groups in an order that is descending on the key, each [$addToSet] array
    in some order.  Neither the order of equal keys nor the order inside the
    arrays is fixed by the pipeline. *)
Definition same_group (g g' : Group.t) : Prop :=
  Group._id g = Group._id g' /\
  Group.last_message g = Group.last_message g' /\
  Group.last_time g = Group.last_time g' /\
  Group.max_urgency g = Group.max_urgency g' /\
  Permutation (Group.topics g) (Group.topics g').

Definition descending (key : Group.t -> Z) (l : list Group.t) : Prop :=
  StronglySorted (fun a b => key b <= key a) l.

Definition emitted (key : Group.t -> Z) (groups out : list Group.t) : Prop :=
  exists mid,
    Forall2 same_group groups mid /\ Permutation mid out /\ descending key out.

(** A stable insertion sort, descending: one order the store may choose. *)
Fixpoint insert_desc (key : Group.t -> Z) (g : Group.t) (l : list Group.t)
    : list Group.t :=
  match l with
  | [] => [g]
  | h :: l' =>
      if key h <=? key g then g :: l else h :: insert_desc key g l'
  end.

Definition sort_desc (key : Group.t -> Z) (l : list Group.t) : list Group.t :=
  fold_right (insert_desc key) [] l.

(** [ObjectId(s)] on a string: [s] must be twenty-four characters long and
    [bytes.fromhex(s)] must succeed, or [InvalidId] is raised.
    [bytes.fromhex] reads pairs of hexadecimal digits and skips ASCII
    whitespace in front of a pair; [fromhex] returns the digits read, in
    lower case, which stand for the bytes of the identifier. *)
Definition is_hex (c : ascii) : bool :=
  existsb (Ascii.eqb (lower_char c))
    (list_ascii_of_string "0123456789abcdef").

(** Space, tab, line feed, vertical tab, form feed, carriage return. *)
Definition is_space (c : ascii) : bool :=
  let n := nat_of_ascii c in
  Nat.eqb n 32 || (Nat.leb 9 n && Nat.leb n 13).

Fixpoint fromhex (cs : list ascii) : option (list ascii) :=
  match cs with
  | [] => Some []
  | c :: rest =>
      if is_space c then fromhex rest
      else
        match rest with
        | d :: rest' =>
            if is_hex c && is_hex d
            then option_map (fun r => lower_char c :: lower_char d :: r)
                   (fromhex rest')
            else None
        | [] => None
        end
  end.

Definition ObjectId (s : string) : result string :=
  if Nat.eqb (String.length s) 24
  then match fromhex (list_ascii_of_string s) with
       | Some digits => Ok (string_of_list_ascii digits)
       | None => Raise InvalidId
       end
  else Raise InvalidId.

Definition truthy (t : option string) : option string :=
  match t with
  | Some EmptyString => None
  | other => other
  end.

Fixpoint keep_truthy (ts : list (option string)) : list string :=
  match ts with
  | [] => []
  | t :: ts' =>
      match truthy t with
      | Some s => s :: keep_truthy ts'
      | None => keep_truthy ts'
      end
  end.

(** The limit as it travels in the pipeline: the driver encodes integers of
    at most 64 bits, and the store accepts a positive [$limit] only. *)
Definition bson_int (n : Z) : result Z :=
  if (n <? - 2 ^ 63) || (2 ^ 63 - 1 <? n) then Raise OverflowError else Ok n.

Definition limit_stage (limit : Z) : result nat :=
  if limit <=? 0 then Raise OperationFailure else Ok (Z.to_nat limit).

Section Conversations.

Variable pcre : string -> result (string -> bool).

Definition regex_i (q : string) : result (string -> bool) :=
  match parse_simple q with
  | Some atoms => Ok (search atoms)
  | None => pcre q
  end.

(** [if q: pipeline.append({"$match": ...})] *)
Definition stage_match (q : option string) : result (Message -> bool) :=
  match q with
  | None | Some EmptyString => Ok (fun _ => true)
  | Some pat => f <- regex_i pat ;; Ok (fun m => f (text m))
  end.

(** Everything up to the point where the store orders the groups. *)
Definition grouped (db : Db) (q : option string) (limit : Z)
    : result (list Group.t * nat) :=
  lim <- bson_int limit ;;
  keep <- stage_match q ;;
  n <- limit_stage lim ;;
  Ok (stage_group (filter keep (message_coll db)), n).

Definition find_customer (db : Db) (key : string)
    : result (option Customer) :=
  match key with
  | EmptyString => Ok None
  | _ => oid <- ObjectId key ;;
         Ok (find (fun c => String.eqb (cust_id c) oid) (customer_coll db))
  end.

(** The body of [for it in items]. *)
Definition render (db : Db) (it : Group.t) : result Item.t :=
  cust <- find_customer db (Group._id it) ;;
  Ok (Item.mk (Group._id it) cust (Group.last_message it)
        (Group.max_urgency it) (keep_truthy (Group.topics it))).

Fixpoint render_all (db : Db) (items : list Group.t) : result (list Item.t) :=
  match items with
  | [] => Ok []
  | it :: rest =>
      x <- render db it ;;
      xs <- render_all db rest ;;
      Ok (x :: xs)
  end.

(** The endpoint, for one way [arrange] of ordering the groups. *)
Definition conversations_with
    (arrange : (Group.t -> Z) -> list Group.t -> list Group.t)
    (db : Db) (q : option string) (sort : string) (limit : Z)
    : result (list Item.t) :=
  gn <- grouped db q limit ;;
  render_all db (firstn (snd gn) (arrange (sort_field sort) (fst gn))).

(** The endpoint: [conversations db q sort limit r] holds when [r] is a
    possible outcome of the call. *)
Definition conversations (db : Db) (q : option string) (sort : string)
    (limit : Z) (r : result (list Item.t)) : Prop :=
  match grouped db q limit with
  | Raise e => r = Raise e
  | Ok (groups, n) =>
      exists out,
        emitted (sort_field sort) groups out /\
        r = render_all db (firstn n out)
  end.

End Conversations.

(** ** The specification's reading of the classifier

    These definitions follow the wording of the specification (section 4.1);
    they are compared with [score_urgency] below. *)

Module Spec.

Definition count (kws : list string) (t : string) : Z :=
  Z.of_nat (List.length (filter (fun kw => str_in kw t) kws)).

Definition contribution (c : Z) : Z :=
  if 0 <? c then 30 + 10 * (c - 1) else 0.

Definition loan : list string :=
  ["loan"; "disburse"; "disbursal"; "approval"; "approved";
   "when will i get"; "payout"].
Definition account : list string :=
  ["account"; "update"; "profile"; "change"; "password"].
Definition kyc : list string :=
  ["kyc"; "verify"; "verification"; "id"; "identity"].
Definition payment : list string :=
  ["payment"; "repay"; "repayment"; "due"; "overdue"].

Definition extra (t : string) : Z :=
  if str_in "urgent" t || str_in "asap" t || str_in "immediately" t ||
     str_in "now" t || str_in "help" t
  then 20 else 0.

Definition when_bonus (t : string) : Z :=
  if str_in "when" t &&
     (str_in "loan" t || str_in "disbur" t || str_in "approved" t)
  then 20 else 0.

Definition urgency (lower : string -> string) (text : string) : Z :=
  let t := lower text in
  Z.min 100
    (contribution (count loan t) + contribution (count account t) +
     contribution (count kyc t) + contribution (count payment t) +
     extra t + when_bonus t).

(** The label of the first bucket of [table] with a hit. *)
Definition first_hit (table : list (string * list string)) (t : string)
    : option string :=
  option_map fst (find (fun b => 0 <? count (snd b) t) table).

End Spec.

(** The sum of the contributions of a table. *)
Definition total (table : list (string * list string)) (t : string) : Z :=
  fold_right (fun b acc => Spec.contribution (Spec.count (snd b) t) + acc)
    0 table.

(** The messages of one customer, in scan order; [group_of] takes them
    among the messages that survive the filter. *)
Definition members (docs : list Message) (cid : string) : list Message :=
  filter (fun m => String.eqb (customer_id m) cid) docs.

Definition group_of (keep : Message -> bool) (db : Db) (cid : string)
    : list Message :=
  members (filter keep (message_coll db)) cid.

(** [g] carries the text and identifier of the last message of [grp] and
    the greatest score of [grp]. *)
Definition summarises (grp : list Message) (g : Group.t) : Prop :=
  exists init m,
    grp = (init ++ [m])%list /\
    Group.last_message g = text m /\
    Group.last_time g = id m /\
    Forall (fun x => urgency_score x <= Group.max_urgency g) grp /\
    Exists (fun x => urgency_score x = Group.max_urgency g) grp.

(** What the accumulators hold after any run of documents. *)
Definition group_inv (docs : list Message) (gs : list Group.t) : Prop :=
  NoDup (map Group._id gs) /\
  (forall m, In m docs -> In (customer_id m) (map Group._id gs)) /\
  (forall g, In g gs -> summarises (members docs (Group._id g)) g).

(** A group and an item without their topics, whose order the store does
    not fix. *)
Definition core (g : Group.t) : string * string * Z * Z :=
  (Group._id g, Group.last_message g, Group.last_time g, Group.max_urgency g).

Definition core_field (sort : string) (c : string * string * Z * Z) : Z :=
  if String.eqb sort "-urgency" then snd c else snd (fst c).

Definition item_view (it : Item.t)
    : string * option Customer * string * Z :=
  (Item.customer_id it, Item.customer it, Item.last_message it,
   Item.max_urgency it).

Definition result_view (r : result (list Item.t))
    : result (list (string * option Customer * string * Z)) :=
  match r with
  | Ok items => Ok (map item_view items)
  | Raise e => Raise e
  end.

(** Whether [q] occurs in [t] when case is ignored. *)
Fixpoint ci_starts_with (p s : string) : bool :=
  match p, s with
  | EmptyString, _ => true
  | String _ _, EmptyString => false
  | String a p', String b s' => ci_eqb a b && ci_starts_with p' s'
  end.

Fixpoint ci_in (q t : string) : bool :=
  ci_starts_with q t ||
  match t with
  | EmptyString => false
  | String _ t' => ci_in q t'
  end.

(** A filter without pattern syntax: ordinary characters only. *)
Definition literal (q : string) : bool :=
  forallb ordinary (list_ascii_of_string q).

(** Stores as [create_message] leaves them: identifiers grow along the scan
    order, and only inbound messages carry a score. *)
Definition ids_increasing (coll : list Message) : Prop :=
  StronglySorted (fun a b => id a < id b) coll.

Definition outbound_unscored (coll : list Message) : Prop :=
  Forall (fun m => direction m <> "inbound" -> urgency_score m = 0) coll.

(** ** Sample inputs *)

(** A send that raises for observer 2 only. *)
Definition second_fails : WebSocket -> Envelope -> bool :=
  fun ws _ => negb (Nat.eqb ws 2).

Definition all_delivered : WebSocket -> Envelope -> bool :=
  fun _ _ => true.

Definition three_observers : ConnectionManager := mkManager [1; 2; 3]%nat.

Definition empty_app : App := mkApp (mkDb [] []) three_observers.

Definition outbound_reply : CreateMessage.t :=
  CreateMessage.mk "c1" "Your loan is approved, when can we call?" "web"
    "outbound".

Definition inbound_question : CreateMessage.t :=
  CreateMessage.mk "c1" "When will I get my loan? URGENT" "web" "inbound".

Definition shouted_direction : CreateMessage.t :=
  CreateMessage.mk "c2" "please verify my identity" "sms" "INBOUND".

(** A pattern engine that accepts nothing beyond the interpreted
    patterns. *)
Definition reject_all : string -> result (string -> bool) :=
  fun _ => Raise OperationFailure.

Definition cust_a : string := "aaaaaaaaaaaaaaaaaaaaaaaa".
Definition cust_b : string := "bbbbbbbbbbbbbbbbbbbbbbbb".

Definition alice : Customer :=
  mkCustomer cust_a "Alice" "alice@example.com" None None false None None
    None.

Definition start_app : App := mkApp (mkDb [] [alice]) three_observers.

Definition post (app : App) (p : CreateMessage.t) : App :=
  app_after (create_message ascii_lower all_delivered app p).

(** Three calls of [create_message]: two customers write in, one gets a
    reply. *)
Definition sample_app : App :=
  fold_left post
    [ CreateMessage.mk cust_a "loan please" "web" "inbound";
      CreateMessage.mk cust_b "kyc pending" "sms" "inbound";
      CreateMessage.mk cust_a "We will call you back" "web" "outbound" ]
    start_app.

Definition sample_db : Db := db sample_app.

Definition group_a : Group.t :=
  Group.mk cust_a "We will call you back" 3 30 [Some "loan"; None].
Definition group_b : Group.t :=
  Group.mk cust_b "kyc pending" 2 30 [Some "kyc"].

Definition item_a : Item.t :=
  Item.mk cust_a (Some alice) "We will call you back" 30 ["loan"].
Definition item_b : Item.t :=
  Item.mk cust_b None "kyc pending" 30 ["kyc"].

Definition empty_db : Db := mkDb [] [].

Definition abc_db : Db :=
  mkDb [mkMessage 1 cust_b "abc" "web" "outbound" "sent" 0 None] [].

(** ** Further definitions *)

(** Upper-casing of ASCII text, the counterpart of [ascii_lower]. *)
Definition upper_char (c : ascii) : ascii :=
  let n := nat_of_ascii c in
  if (Nat.leb 97 n && Nat.leb n 122)%bool then ascii_of_nat (n - 32) else c.

Fixpoint ascii_upper (s : string) : string :=
  match s with
  | EmptyString => EmptyString
  | String c s' => String (upper_char c) (ascii_upper s')
  end.

(** Every keyword found in [t] is found in [t']. *)
Definition extends (t t' : string) : Prop :=
  forall kw, str_in kw t = true -> str_in kw t' = true.

(** What [create_message] guarantees of a stored message. *)
Definition well_scored (m : Message) : Prop :=
  0 <= urgency_score m <= 100 /\
  (direction m = "inbound" -> status m = "open") /\
  (direction m <> "inbound" ->
   status m = "sent" /\ urgency_score m = 0 /\ topic m = None) /\
  match topic m with
  | None => True
  | Some tp =>
      In tp ["loan"; "account"; "kyc"; "payment"] /\ 30 <= urgency_score m
  end.

(** A run of calls of the endpoint, one per payload. *)
Definition posts (lower : string -> string)
    (send_json : WebSocket -> Envelope -> bool) (app : App)
    (payloads : list CreateMessage.t) : App :=
  fold_left (fun a p => app_after (create_message lower send_json a p))
    payloads app.

(** *** Documents as dictionaries ([serialize], main.py 32-42)

    A document as the driver hands it over: a [dict] from field names to
    values, in insertion order.  [py_str] is Python's [str] on a value and
    [isoformat] is [v.astimezone(timezone.utc).isoformat()] on a datetime;
    both are left open. *)

Module Doc.

Inductive value : Type :=
| VNone
| VBool (b : bool)
| VInt (n : Z)
| VStr (s : string)
| VList (l : list string)
| VObjectId (o : string)
| VDatetime (t : Z).

Definition t : Type := list (string * value).

(** [d.get(k)] *)
Fixpoint get (k : string) (d : t) : option value :=
  match d with
  | [] => None
  | (k', v) :: d' => if String.eqb k' k then Some v else get k d'
  end.

(** [d.pop(k)], the dictionary that is left. *)
Fixpoint remove (k : string) (d : t) : t :=
  match d with
  | [] => []
  | (k', v) :: d' => if String.eqb k' k then d' else (k', v) :: remove k d'
  end.

(** [d[k] = v]: in place for a key that is there, at the end otherwise. *)
Fixpoint set (k : string) (v : value) (d : t) : t :=
  match d with
  | [] => [(k, v)]
  | (k', v') :: d' =>
      if String.eqb k' k then (k, v) :: d' else (k', v') :: set k v d'
  end.

Definition keys (d : t) : list string := map fst d.

Section Serialize.

Variable py_str : value -> string.
Variable isoformat : Z -> string.

(** One turn of [for k, v in list(d.items())]. *)
Definition convert_step (d : t) (kv : string * value) : t :=
  match snd kv with
  | VDatetime t => set (fst kv) (VStr (isoformat t)) d
  | _ => d
  end.

Definition serialize (doc : option t) : option t :=
  match doc with
  | None => None
  | Some [] => Some []
  | Some doc =>
      let d := doc in
      let d :=
        match get "_id" d with
        | Some v => set "id" (VStr (py_str v)) (remove "_id" d)
        | None => d
        end in
      Some (fold_left convert_step d d)
  end.

(** What the loop does to one value. *)
Definition converted (v : value) : value :=
  match v with
  | VDatetime t => VStr (isoformat t)
  | _ => v
  end.

End Serialize.

End Doc.

(** *** Lookups by identifier ([oid], [get_customer], main.py 25-29 and
    188-193) *)

Inductive http (A : Type) : Type :=
| Returns (a : A)
| HTTPException (status_code : Z) (detail : string).
Arguments Returns {A} a.
Arguments HTTPException {A} status_code detail.

Definition oid (id_str : string) : http string :=
  match ObjectId id_str with
  | Ok o => Returns o
  | Raise _ => HTTPException 400 "Invalid id"
  end.

Definition get_customer (db : Db) (customer_id : string) : http Customer :=
  match oid customer_id with
  | HTTPException c d => HTTPException c d
  | Returns o =>
      match find (fun c => String.eqb (cust_id c) o) (customer_coll db) with
      | Some doc => Returns doc
      | None => HTTPException 404 "Customer not found"
      end
  end.

(** *** Listing messages ([list_messages], main.py 218-245)

    The filter document, the sort and the limit of the cursor.  A cursor
    limit of 0 is no limit; a negative one asks for a single batch, whose
    size is the store's business and is left open as [first_batch]. *)

(** [if p:] on an optional string parameter. *)
Definition given (p : option string) : option string :=
  match p with
  | Some (String _ _ as s) => Some s
  | _ => None
  end.

(** The document [flt], without its pattern part, as a test on a message. *)
Definition flt (cid st tp : option string) (m : Message) : bool :=
  match given cid with
  | Some c => String.eqb (customer_id m) c
  | None => true
  end &&
  match given st with
  | Some x => String.eqb (status m) x
  | None => true
  end &&
  match given tp with
  | Some x => opt_string_eqb (topic m) (Some x)
  | None => true
  end.

(** [a] may come before [b] under
    [sort([("urgency_score", -1), ("_id", -1)])], respectively
    [sort("_id", -1)]. *)
Definition precedes (sort : string) (a b : Message) : Prop :=
  if String.eqb sort "-urgency"
  then urgency_score b < urgency_score a \/
       (urgency_score b = urgency_score a /\ id b <= id a)
  else id b <= id a.

Section ListMessages.

Variable pcre : string -> result (string -> bool).
Variable first_batch : list Message -> list Message.

Definition cursor_limit (limit : Z) (docs : list Message) : list Message :=
  if limit =? 0 then docs
  else if 0 <? limit then firstn (Z.to_nat limit) docs
  else first_batch (firstn (Z.to_nat (- limit)) docs).

(** [list_messages db cid st q tp sort limit r]: [r] is a possible outcome
    of the call. *)
Definition list_messages (db : Db) (cid st q tp : option string)
    (sort : string) (limit : Z) (r : result (list Message)) : Prop :=
  match bson_int (Z.abs limit) with
  | Raise e => r = Raise e
  | Ok _ =>
      match stage_match pcre q with
      | Raise e => r = Raise e
      | Ok keep =>
          exists out,
            Permutation
              (filter (fun m => flt cid st tp m && keep m) (message_coll db))
              out /\
            StronglySorted (precedes sort) out /\
            r = Ok (cursor_limit limit out)
      end
  end.

End ListMessages.

(** Sample values for the open parts. *)
Definition sample_str (v : Doc.value) : string :=
  match v with
  | Doc.VObjectId o => o
  | Doc.VStr x => x
  | _ => "?"
  end.

Definition sample_iso (t : Z) : string := "1970-01-01T00:00:00+00:00".

Definition sample_doc : Doc.t :=
  [ ("_id", Doc.VObjectId cust_a); ("name", Doc.VStr "Alice");
    ("id", Doc.VInt 7); ("created_at", Doc.VDatetime 0) ].

Definition whole_batch (docs : list Message) : list Message := docs.

Definition msg1 : Message :=
  mkMessage 1 cust_a "loan please" "web" "inbound" "open" 30 (Some "loan").
Definition msg2 : Message :=
  mkMessage 2 cust_b "kyc pending" "sms" "inbound" "open" 30 (Some "kyc").
Definition msg3 : Message :=
  mkMessage 3 cust_a "We will call you back" "web" "outbound" "sent" 0 None.

(** *** CSV import ([import_csv], main.py 256-295)

    [reader] is the sequence of rows [csv.DictReader] yields for
    [payload.csv_text]; a row is its [get].  The identifier the store gives
    a new customer and the [ObjectId()] of the placeholder e-mail are left
    open.  [None] stands for the [TypeError] of [cust["_id"]] on a customer
    that was not found. *)

Definition Row : Type := string -> option string.

(** [a or b] on optional strings, and [a or "literal"]. *)
Definition py_or (a b : option string) : option string :=
  match a with
  | Some (String _ _) => a
  | _ => b
  end.

Definition or_str (a : option string) (b : string) : string :=
  match a with
  | Some (String _ _ as x) => x
  | _ => b
  end.

Definition row_text (row : Row) : option string :=
  given (py_or (py_or (row "text") (row "message")) (row "Message")).

Section ImportCsv.

Variable lower : string -> string.
Variable new_customer_id : list Customer -> string.
Variable new_ObjectId : list Customer -> string.

(** The body of [for row in reader], on the database and the counter
    ([row_name], [row_email], [row_phone] and [txt] are the loop's [name],
    [email], [phone] and [text]; [chan] is [payload.channel]). *)
Definition import_row (chan : string) (st : Db * Z) (row : Row)
    : option (Db * Z) :=
  let '(db, imported) := st in
  let row_name := py_or (row "name") (row "Name") in
  let row_email := py_or (row "email") (row "Email") in
  let row_phone := py_or (row "phone") (row "Phone") in
  match row_text row with
  | None => Some st
  | Some txt =>
      let cust :=
        match given row_email with
        | Some e => find (fun c => String.eqb (email c) e) (customer_coll db)
        | None => None
        end in
      let cust :=
        match cust with
        | Some _ => cust
        | None =>
            match given row_phone with
            | Some p => find (fun c => opt_string_eqb (phone c) (Some p))
                          (customer_coll db)
            | None => None
            end
        end in
      let '(db, cust) :=
        match cust with
        | Some _ => (db, cust)
        | None =>
            let cid := new_customer_id (customer_coll db) in
            let doc :=
              mkCustomer cid
                (or_str row_name
                   (or_str row_email (or_str row_phone "Unknown")))
                (or_str row_email
                   ("unknown+" ++ new_ObjectId (customer_coll db)
                    ++ "@example.com"))
                row_phone None false None None None in
            let db := mkDb (message_coll db) (customer_coll db ++ [doc]) in
            (db, find (fun c => String.eqb (cust_id c) cid)
                   (customer_coll db))
        end in
      match cust with
      | None => None
      | Some cust =>
          let '(urgency, tp) := score_urgency lower txt in
          let '(db, _) :=
            create_document db
              (fun mid =>
                 mkMessage mid (cust_id cust) txt chan "inbound" "open"
                   urgency tp) in
          Some (db, imported + 1)
      end
  end.

Definition import_csv (chan : string) (reader : list Row) (db : Db)
    : option (Db * Z) :=
  fold_left
    (fun st row =>
       match st with
       | Some x => import_row chan x row
       | None => None
       end)
    reader (Some (db, 0)).

End ImportCsv.

(** What [import_csv] stores for a row with text [x]. *)
Definition imported_as (lower : string -> string) (chan : string)
    (customers : list Customer) (x : string) (m : Message) : Prop :=
  text m = x /\ channel m = chan /\ direction m = "inbound" /\
  status m = "open" /\
  (urgency_score m, topic m) = score_urgency lower x /\
  exists c, In c customers /\ cust_id c = customer_id m.

(** The texts of the rows that carry one, in order. *)
Definition texts_of (reader : list Row) : list string :=
  flat_map (fun row => match row_text row with
                       | Some x => [x]
                       | None => []
                       end) reader.

(** What a run of [import_csv] adds to a store, and the count it reports. *)
Definition import_adds (lower : string -> string) (chan : string)
    (reader : list Row) (db db' : Db) (imported : Z) : Prop :=
  exists added new,
    imported = Z.of_nat (List.length added) /\
    message_coll db' = (message_coll db ++ added)%list /\
    customer_coll db' = (customer_coll db ++ new)%list /\
    map text added = texts_of reader /\
    Forall (fun m => imported_as lower chan (customer_coll db') (text m) m)
      added /\
    Forall well_scored added /\
    ids_increasing added /\
    Forall (fun m => Forall (fun m0 => id m0 < id m) (message_coll db)) added.

(** Sample rows and generators for the import. *)
Definition sample_new_id (customers : list Customer) : string :=
  "cccccccccccccccccccccccc".

Definition sample_new_oid (customers : list Customer) : string :=
  "dddddddddddddddddddddddd".

Definition row_of (fields : list (string * string)) : Row :=
  fun k => option_map snd (find (fun kv => String.eqb (fst kv) k) fields).

Definition alice_row : Row :=
  row_of [("name", "A."); ("email", "alice@example.com");
          ("text", "my payment is overdue")].

Definition stranger_row : Row :=
  row_of [("Name", "Bob"); ("phone", "555"); ("message", "hello")].

Definition blank_row : Row := row_of [("name", "Eve"); ("text", "")].

(** *** Canned responses ([list_canned], main.py 298-313)

    The collection in scan order.  As for messages, the store gives a new
    document an identifier above those in the collection; the order among
    equal titles is the store's. *)

Module Canned.
Record t : Type := mk {
  id : Z;
  title : string;
  text : string;
  tags : option (list string)
}.
End Canned.

Definition defaults : list (string * string * list string) :=
  [ ("Loan Disbursement Timeline",
     "Thanks for reaching out! Once your loan is approved, disbursement typically happens within 24-48 hours. We'll notify you as soon as it's sent.",
     ["loan"; "timeline"]);
    ("KYC Verification Steps",
     "To complete KYC, please upload a clear photo of your ID and a selfie in the app. Verification usually takes under 15 minutes.",
     ["kyc"]);
    ("Update Account Info",
     "You can update your phone, email, and address in the Profile section. Let me know if you'd like me to guide you step-by-step.",
     ["account"]);
    ("Repayment Options",
     "You can repay via the app using your preferred method. If you're having trouble, I can share a quick walkthrough.",
     ["payment"]) ].

Definition create_canned_document (coll : list Canned.t)
    (d : string * string * list string) : list Canned.t :=
  coll ++ [Canned.mk (1 + fold_left Z.max (map Canned.id coll) 0)
             (fst (fst d)) (snd (fst d)) (Some (snd d))].

(** [find({}).sort("title", 1)]: the collection in an order ascending on
    the title. *)
Definition by_title (l : list Canned.t) : Prop :=
  StronglySorted
    (fun a b => String.leb (Canned.title a) (Canned.title b) = true) l.

Definition sorted_canned (coll items : list Canned.t) : Prop :=
  Permutation coll items /\ by_title items.

(** [list_canned coll coll' items]: from the collection [coll] the call may
    return [items] and leave the collection [coll']. *)
Definition list_canned (coll coll' items : list Canned.t) : Prop :=
  exists first,
    sorted_canned coll first /\
    match first with
    | [] =>
        coll' = fold_left create_canned_document defaults coll /\
        sorted_canned coll' items
    | _ :: _ => coll' = coll /\ items = first
    end.

(** The seeded collection in the order of its titles. *)
Definition seeded_by_title : list Canned.t :=
  match fold_left create_canned_document defaults [] with
  | [loan; kyc; account; payment] => [kyc; loan; payment; account]
  | other => other
  end.

Definition one_canned : list Canned.t :=
  [Canned.mk 1 "Greeting" "Hello!" None].

(** * Properties *)

(** ** Strings *)

Lemma starts_with_app (p s : string) :
  starts_with p s = true <-> exists r, s = (p ++ r)%string.
Proof.
  revert s; induction p as [|a p IH]; intros s; simpl.
  - split; [intros _; now exists s | reflexivity].
  - destruct s as [|b s]; simpl.
    + split; [discriminate | intros [r H]; discriminate].
    + rewrite andb_true_iff, Ascii.eqb_eq, IH. split.
      * intros [-> [r ->]]. now exists r.
      * intros [r H]. injection H as -> ->. split; [reflexivity | now exists r].
Qed.

(** [str_in] is the substring relation. *)
Lemma str_in_spec (kw t : string) :
  str_in kw t = true <-> exists a b, t = (a ++ kw ++ b)%string.
Proof.
  induction t as [|c t IH]; simpl.
  - rewrite orb_false_r, starts_with_app. split.
    + intros [r H]. now exists EmptyString, r.
    + intros [[|x a] [b H]]; simpl in H; [now exists b | discriminate].
  - rewrite orb_true_iff, starts_with_app, IH. split.
    + intros [[r H] | [a [b H]]].
      * now exists EmptyString, r.
      * exists (String c a), b. simpl. now rewrite H.
    + intros [[|x a] [b H]]; simpl in H.
      * left. now exists b.
      * right. injection H as _ ->. now exists a, b.
Qed.

(** ** Classifier *)

Lemma hits_of_acc (kws : list string) (t : string) (acc : Z) :
  fold_left (fun a kw => if str_in kw t then a + 1 else a) kws acc
  = acc + Spec.count kws t.
Proof.
  unfold Spec.count. revert acc.
  induction kws as [|kw kws IH]; intros acc; cbn [fold_left filter].
  - cbn [List.length]. lia.
  - rewrite IH. destruct (str_in kw t); cbn [List.length]; lia.
Qed.

Lemma hits_of_count (kws : list string) (t : string) :
  hits_of kws t = Spec.count kws t.
Proof. unfold hits_of. now rewrite hits_of_acc. Qed.

Lemma count_nonneg (kws : list string) (t : string) : 0 <= Spec.count kws t.
Proof. unfold Spec.count. lia. Qed.

Lemma count_le_length (kws : list string) (t : string) :
  Spec.count kws t <= Z.of_nat (List.length kws).
Proof.
  unfold Spec.count. pose proof (filter_length_le (fun kw => str_in kw t) kws).
  lia.
Qed.

Lemma contribution_nonneg (c : Z) : 0 <= Spec.contribution c.
Proof. unfold Spec.contribution. destruct (0 <? c) eqn:E; [apply Z.ltb_lt in E|]; lia. Qed.

Lemma bucket_step_score (t : string) (score : Z) (topic : option string)
    (b : string * list string) :
  fst (bucket_step t (score, topic) b)
  = score + Spec.contribution (Spec.count (snd b) t).
Proof.
  destruct b as [tp kws]. unfold bucket_step, Spec.contribution.
  rewrite hits_of_count. simpl snd.
  pose proof (count_nonneg kws t) as Hc.
  destruct (Spec.count kws t =? 0) eqn:E0.
  - apply Z.eqb_eq in E0. rewrite E0. simpl. lia.
  - apply Z.eqb_neq in E0.
    destruct (0 <? Spec.count kws t) eqn:E1; simpl; [reflexivity|].
    apply Z.ltb_ge in E1. lia.
Qed.

Lemma scan_score_from (table : list (string * list string)) (t : string)
    (st : Z * option string) :
  fst (fold_left (bucket_step t) table st) = fst st + total table t.
Proof.
  revert st. unfold total.
  induction table as [|b table IH]; intros [score topic];
    cbn [fold_left fold_right fst].
  - lia.
  - rewrite IH, bucket_step_score. lia.
Qed.

Lemma scan_score (table : list (string * list string)) (t : string) :
  fst (scan_buckets table t) = total table t.
Proof. unfold scan_buckets. now rewrite scan_score_from. Qed.

Lemma total_nonneg (table : list (string * list string)) (t : string) :
  0 <= total table t.
Proof.
  induction table as [|b table IH]; simpl; [lia|].
  pose proof (contribution_nonneg (Spec.count (snd b) t)). lia.
Qed.

Lemma extra_urgent_any (t : string) :
  existsb (fun word => str_in word t) EXTRA_URGENT
  = (str_in "urgent" t || str_in "asap" t || str_in "immediately" t ||
     str_in "now" t || str_in "help" t).
Proof.
  unfold EXTRA_URGENT. cbn [existsb]. rewrite orb_false_r.
  now rewrite !orb_assoc.
Qed.

Ltac case_if :=
  match goal with
  | |- context [if ?b then _ else _] => destruct b
  end.

Lemma extra_nonneg (t : string) : 0 <= Spec.extra t.
Proof. unfold Spec.extra. case_if; lia. Qed.

Lemma when_bonus_nonneg (t : string) : 0 <= Spec.when_bonus t.
Proof. unfold Spec.when_bonus. case_if; lia. Qed.

(** The score before clamping. *)
Lemma score_urgency_unfold (lower : string -> string) (text : string) :
  score_urgency lower text
  = (Z.min (total URGENT_KEYWORDS (lower text) + Spec.extra (lower text)
            + Spec.when_bonus (lower text)) 100,
     snd (scan_buckets URGENT_KEYWORDS (lower text))).
Proof.
  unfold score_urgency.
  pose proof (scan_score URGENT_KEYWORDS (lower text)) as Hs.
  destruct (scan_buckets URGENT_KEYWORDS (lower text)) as [score topic].
  cbn [fst] in Hs. subst score. rewrite extra_urgent_any.
  unfold Spec.extra, Spec.when_bonus. simpl snd.
  destruct (str_in "urgent" (lower text) || str_in "asap" (lower text)
            || str_in "immediately" (lower text) || str_in "now" (lower text)
            || str_in "help" (lower text));
  destruct (str_in "when" (lower text) &&
            (str_in "loan" (lower text) || str_in "disbur" (lower text)
             || str_in "approved" (lower text)));
  f_equal; f_equal; lia.
Qed.

(** C1: the urgency returned by [score_urgency] is the clamp at 100 of the
    four bucket contributions [30 + 10 * (count - 1)] (for a positive count
    of the bucket's keywords occurring in the lower-cased text), plus 20 for
    an extra-urgency word, plus 20 for "when" together with "loan",
    "disbur" or "approved". *)
Theorem score_urgency_formula (lower : string -> string) (text : string) :
  fst (score_urgency lower text) = Spec.urgency lower text.
Proof.
  rewrite score_urgency_unfold. unfold Spec.urgency. cbn [fst].
  unfold total, URGENT_KEYWORDS. cbn [fold_right snd].
  fold Spec.loan Spec.account Spec.kyc Spec.payment.
  rewrite Z.min_comm. f_equal. lia.
Qed.

(** C4: the urgency lies between 0 and 100; it is the total clamped above
    at 100, and the total is a sum of non-negative contributions. *)
Theorem score_urgency_range (lower : string -> string) (text : string) :
  0 <= fst (score_urgency lower text) <= 100 /\
  fst (score_urgency lower text)
  = Z.min (total URGENT_KEYWORDS (lower text) + Spec.extra (lower text)
           + Spec.when_bonus (lower text)) 100 /\
  0 <= total URGENT_KEYWORDS (lower text) /\
  0 <= Spec.extra (lower text) /\
  0 <= Spec.when_bonus (lower text).
Proof.
  rewrite score_urgency_unfold. cbn [fst].
  pose proof (total_nonneg URGENT_KEYWORDS (lower text)).
  pose proof (extra_nonneg (lower text)).
  pose proof (when_bonus_nonneg (lower text)).
  repeat split; try assumption; lia.
Qed.

(** The clamp at work: the total is 150. *)
Example score_clamped :
  score_urgency ascii_lower
    "urgent: loan approved, when is the payout? update my account password"
  = (100, Some "loan").
Proof. vm_compute. reflexivity. Qed.

Lemma step_keeps_topic (t : string) (score : Z) (tp : string)
    (b : string * list string) :
  snd (bucket_step t (score, Some tp) b) = Some tp.
Proof.
  destruct b as [tp' kws]. unfold bucket_step.
  now destruct (hits_of kws t =? 0).
Qed.

Lemma scan_keeps_topic (table : list (string * list string)) (t : string)
    (score : Z) (tp : string) :
  snd (fold_left (bucket_step t) table (score, Some tp)) = Some tp.
Proof.
  revert score. induction table as [|b table IH]; intros score;
    cbn [fold_left]; [reflexivity|].
  pose proof (step_keeps_topic t score tp b) as H.
  destruct (bucket_step t (score, Some tp) b) as [s' tp'].
  cbn [snd] in H. subst tp'. apply IH.
Qed.

(** On any bucket table the loop returns the label of the first bucket
    with a hit, whatever the buckets after it contain. *)
Lemma scan_topic_from (table : list (string * list string)) (t : string)
    (score : Z) :
  snd (fold_left (bucket_step t) table (score, None))
  = Spec.first_hit table t.
Proof.
  revert score. unfold Spec.first_hit.
  induction table as [|[tp kws] table IH]; intros score;
    cbn [fold_left find snd]; [reflexivity|].
  unfold bucket_step at 2. rewrite hits_of_count.
  pose proof (count_nonneg kws t) as Hc.
  destruct (Spec.count kws t =? 0) eqn:E0.
  - apply Z.eqb_eq in E0.
    replace (0 <? Spec.count kws t) with false
      by (symmetry; apply Z.ltb_ge; lia).
    apply IH.
  - apply Z.eqb_neq in E0.
    replace (0 <? Spec.count kws t) with true
      by (symmetry; apply Z.ltb_lt; lia).
    apply scan_keeps_topic.
Qed.

Lemma first_hit_some (table : list (string * list string)) (t : string)
    (tp : string) :
  Spec.first_hit table t = Some tp ->
  exists pre kws post,
    table = (pre ++ (tp, kws) :: post)%list /\
    Forall (fun b => Spec.count (snd b) t = 0) pre /\
    0 < Spec.count kws t.
Proof.
  unfold Spec.first_hit.
  induction table as [|[tp' kws'] table IH]; cbn [find snd]; [discriminate|].
  destruct (0 <? Spec.count kws' t) eqn:E.
  - cbn. intros H. injection H as ->. apply Z.ltb_lt in E.
    exists [], kws', table. repeat split; [constructor | exact E].
  - intros H. destruct (IH H) as (pre & kws & post & -> & Hpre & Hk).
    apply Z.ltb_ge in E. pose proof (count_nonneg kws' t).
    exists ((tp', kws') :: pre), kws, post. repeat split; try assumption.
    constructor; [cbn; lia | exact Hpre].
Qed.

Lemma first_hit_none (table : list (string * list string)) (t : string) :
  Spec.first_hit table t = None ->
  Forall (fun b => Spec.count (snd b) t = 0) table.
Proof.
  unfold Spec.first_hit.
  induction table as [|[tp' kws'] table IH]; cbn [find snd]; [constructor|].
  destruct (0 <? Spec.count kws' t) eqn:E; [discriminate|].
  intros H. apply Z.ltb_ge in E. pose proof (count_nonneg kws' t).
  constructor; [cbn; lia | now apply IH].
Qed.

(** C3: the topic is the label of the first bucket, in the order loan,
    account, kyc, payment, with at least one keyword hit, whatever the later
    buckets count; it is absent when no bucket has a hit. *)
Theorem topic_first_bucket (lower : string -> string) (text : string) :
  map fst URGENT_KEYWORDS = ["loan"; "account"; "kyc"; "payment"] /\
  snd (score_urgency lower text)
  = Spec.first_hit URGENT_KEYWORDS (lower text) /\
  match snd (score_urgency lower text) with
  | Some tp =>
      exists pre kws post,
        URGENT_KEYWORDS = (pre ++ (tp, kws) :: post)%list /\
        Forall (fun b => Spec.count (snd b) (lower text) = 0) pre /\
        0 < Spec.count kws (lower text)
  | None =>
      Forall (fun b => Spec.count (snd b) (lower text) = 0) URGENT_KEYWORDS
  end.
Proof.
  assert (E : snd (score_urgency lower text)
              = Spec.first_hit URGENT_KEYWORDS (lower text)).
  { rewrite score_urgency_unfold. cbn [snd]. apply scan_topic_from. }
  split; [reflexivity|]. split; [exact E|].
  rewrite E.
  destruct (Spec.first_hit URGENT_KEYWORDS (lower text)) as [tp|] eqn:F.
  - now apply first_hit_some.
  - now apply first_hit_none.
Qed.

(** One hit in [loan] wins over three hits in [account]. *)
Example topic_precedence :
  score_urgency ascii_lower "Update my account password and loan"
  = (80, Some "loan").
Proof. vm_compute. reflexivity. Qed.

Example score_empty : score_urgency ascii_lower "" = (0, None).
Proof. reflexivity. Qed.

Example score_mixed :
  score_urgency ascii_lower "URGENT: when will my loan be approved"
  = (80, Some "loan").
Proof. vm_compute. reflexivity. Qed.

(** C2, as the code has it: on ["loan loan loan"] the topic is [loan] and
    the score is 30, the keyword [loan] being one hit however often it
    occurs. *)
Theorem score_loan_loan_loan :
  score_urgency ascii_lower "loan loan loan" = (30, Some "loan") /\
  hits_of Spec.loan (ascii_lower "loan loan loan") = 1.
Proof. split; vm_compute; reflexivity. Qed.

(** C2, as stated, fails: the score of ["loan loan loan"] is not 50. *)
Lemma score_loan_loan_loan_not_50 :
  ~ (score_urgency ascii_lower "loan loan loan" = (50, Some "loan")).
Proof. vm_compute. discriminate. Qed.

(** ** WebSocket registry *)

Lemma filter_twice {A : Type} (f g : A -> bool) (l : list A) :
  filter f (filter g l) = filter (fun x => g x && f x) l.
Proof.
  induction l as [|x l IH]; cbn [filter]; [reflexivity|].
  destruct (g x); cbn [filter andb]; [destruct (f x)|]; now rewrite IH.
Qed.

Section Registry.

Variable send_json : WebSocket -> Envelope -> bool.
Variable payload : Envelope.

Let ok (ws : WebSocket) : bool := send_json ws payload.

Lemma list_remove_filter (ws : WebSocket) (l : list WebSocket) :
  NoDup l -> list_remove ws l = filter (fun x => negb (Nat.eqb x ws)) l.
Proof.
  induction 1 as [|x l Hx Hl IH]; cbn [list_remove filter]; [reflexivity|].
  destruct (Nat.eqb x ws) eqn:E; cbn [negb].
  - apply Nat.eqb_eq in E. subst x. symmetry.
    apply forallb_filter_id, forallb_forall. intros y Hy.
    destruct (Nat.eqb y ws) eqn:F; [|reflexivity].
    apply Nat.eqb_eq in F. now subst y.
  - now rewrite IH.
Qed.

Lemma disconnect_filter (self : ConnectionManager) (ws : WebSocket) :
  NoDup (active self) ->
  active (disconnect self ws)
  = filter (fun x => negb (Nat.eqb x ws)) (active self).
Proof.
  intros Hnd. unfold disconnect.
  destruct (existsb (Nat.eqb ws) (active self)) eqn:E; cbn [active].
  - now apply list_remove_filter.
  - symmetry. apply forallb_filter_id, forallb_forall. intros y Hy.
    destruct (Nat.eqb y ws) eqn:F; [|reflexivity].
    apply Nat.eqb_eq in F. subst y.
    assert (existsb (Nat.eqb ws) (active self) = true) as C.
    { apply existsb_exists. exists ws. split; [exact Hy | apply Nat.eqb_refl]. }
    congruence.
Qed.

(** The envelopes sent are those of the observers whose send returns, in
    registration order, whatever happens to the others. *)
Lemma broadcast_loop_sent (snapshot : list WebSocket)
    (self : ConnectionManager) :
  snd (broadcast_loop send_json payload snapshot self)
  = map (fun ws => (ws, payload)) (filter ok snapshot).
Proof.
  revert self. induction snapshot as [|ws rest IH]; intros self;
    cbn [broadcast_loop filter]; [reflexivity|].
  unfold ok at 1. destruct (send_json ws payload).
  - specialize (IH self).
    destruct (broadcast_loop send_json payload rest self) as [self' sent].
    cbn [snd map] in *. now rewrite IH.
  - apply IH.
Qed.

(** The registry after the loop: the observers of [snapshot] whose send
    raised are gone, the others stay in place. *)
Lemma broadcast_loop_active (snapshot : list WebSocket)
    (self : ConnectionManager) :
  NoDup (active self) ->
  active (fst (broadcast_loop send_json payload snapshot self))
  = filter (fun x => negb (existsb (Nat.eqb x)
                            (filter (fun ws => negb (ok ws)) snapshot)))
      (active self).
Proof.
  revert self. induction snapshot as [|ws rest IH]; intros self Hnd;
    cbn [broadcast_loop filter].
  - cbn. symmetry. now apply forallb_filter_id, forallb_forall.
  - unfold ok at 1. destruct (send_json ws payload); cbn [negb].
    + specialize (IH self Hnd).
      destruct (broadcast_loop send_json payload rest self) as [self' sent].
      exact IH.
    + rewrite IH by (rewrite disconnect_filter by assumption;
                     now apply NoDup_filter).
      rewrite disconnect_filter by assumption.
      rewrite filter_twice. apply filter_ext. intros x. cbn [existsb].
      now rewrite negb_orb.
Qed.

End Registry.

Lemma broadcast_active (send_json : WebSocket -> Envelope -> bool)
    (self : ConnectionManager) (message : option Message) :
  NoDup (active self) ->
  active (fst (broadcast send_json self message))
  = filter (fun ws => send_json ws (mkEnvelope "message_created" message))
      (active self).
Proof.
  intros Hnd. unfold broadcast. rewrite broadcast_loop_active by assumption.
  apply filter_ext_in. intros x Hx.
  destruct (send_json x (mkEnvelope "message_created" message)) eqn:E.
  - apply negb_true_iff.
    destruct (existsb _ _) eqn:F; [|reflexivity].
    apply existsb_exists in F. destruct F as (y & Hy & Hxy).
    apply Nat.eqb_eq in Hxy. subst y.
    apply filter_In in Hy. destruct Hy as [_ Hy]. rewrite E in Hy.
    discriminate.
  - apply negb_false_iff. apply existsb_exists. exists x. split.
    + apply filter_In. split; [exact Hx | now rewrite E].
    + apply Nat.eqb_refl.
Qed.

Lemma broadcast_sent (send_json : WebSocket -> Envelope -> bool)
    (self : ConnectionManager) (message : option Message) :
  snd (broadcast send_json self message)
  = map (fun ws => (ws, mkEnvelope "message_created" message))
      (filter (fun ws => send_json ws (mkEnvelope "message_created" message))
         (active self)).
Proof. unfold broadcast. apply broadcast_loop_sent. Qed.

Lemma count_occ_filter_NoDup (f : WebSocket -> bool) (l : list WebSocket)
    (ws : WebSocket) :
  NoDup l -> In ws l -> f ws = true ->
  count_occ Nat.eq_dec (filter f l) ws = 1%nat.
Proof.
  intros Hnd Hin Hf.
  assert (NoDup (filter f l)) as Hnd' by now apply NoDup_filter.
  assert (In ws (filter f l)) as Hin' by (apply filter_In; now split).
  pose proof (proj1 (NoDup_count_occ Nat.eq_dec _) Hnd' ws) as Hle.
  pose proof (proj1 (count_occ_In Nat.eq_dec _ ws) Hin') as Hge.
  lia.
Qed.

(** C8: in a registry without repeated observers, a broadcast hands every
    observer whose send returns exactly one envelope, of type
    ["message_created"] and with the message as data; the observers whose
    send raised are the ones removed from the registry, the others are
    served all the same, and no later broadcast sends to a removed one. *)
Theorem broadcast_delivery (send_json : WebSocket -> Envelope -> bool)
    (self : ConnectionManager) (message : option Message) :
  NoDup (active self) ->
  let payload := mkEnvelope "message_created" message in
  let self' := fst (broadcast send_json self message) in
  let sent := snd (broadcast send_json self message) in
  (forall ws e, In (ws, e) sent ->
     type e = "message_created" /\ data e = message /\
     In ws (active self) /\ send_json ws payload = true) /\
  (forall ws, In ws (active self) -> send_json ws payload = true ->
     count_occ Nat.eq_dec (map fst sent) ws = 1%nat /\
     In (ws, payload) sent /\ In ws (active self')) /\
  (forall ws, In ws (active self) -> send_json ws payload = false ->
     ~ In ws (map fst sent) /\ ~ In ws (active self') /\
     forall send_json' message',
       ~ In ws (map fst (snd (broadcast send_json' self' message')))) /\
  (forall ws, In ws (active self') -> In ws (active self)).
Proof.
  intros Hnd payload self' sent.
  assert (Hsent : sent = map (fun ws => (ws, payload))
                           (filter (fun ws => send_json ws payload)
                              (active self)))
    by apply broadcast_sent.
  assert (Hact : active self' = filter (fun ws => send_json ws payload)
                                  (active self))
    by now apply broadcast_active.
  assert (Hfst : map fst sent = filter (fun ws => send_json ws payload)
                                  (active self)).
  { rewrite Hsent, map_map. cbn [fst]. apply map_id. }
  repeat split.
  - rewrite Hsent in H. apply in_map_iff in H.
    destruct H as (x & Hx & _). now injection Hx as _ <-.
  - rewrite Hsent in H. apply in_map_iff in H.
    destruct H as (x & Hx & _). now injection Hx as _ <-.
  - rewrite Hsent in H. apply in_map_iff in H.
    destruct H as (x & Hx & Hin). injection Hx as <- _.
    now apply filter_In in Hin.
  - rewrite Hsent in H. apply in_map_iff in H.
    destruct H as (x & Hx & Hin). injection Hx as <- _.
    now apply filter_In in Hin.
  - rewrite Hfst. now apply count_occ_filter_NoDup.
  - rewrite Hsent. apply in_map_iff. exists ws. split; [reflexivity|].
    apply filter_In. now split.
  - rewrite Hact. apply filter_In. now split.
  - rewrite Hfst. intros C. apply filter_In in C. destruct C as [_ C].
    congruence.
  - rewrite Hact. intros C. apply filter_In in C. destruct C as [_ C].
    congruence.
  - intros send_json' message'. rewrite broadcast_sent, map_map. cbn [fst].
    rewrite map_id. intros C. apply filter_In in C. destruct C as [C _].
    rewrite Hact in C. apply filter_In in C. destruct C as [_ C].
    congruence.
  - intros ws. rewrite Hact. intros C. now apply filter_In in C.
Qed.

Lemma broadcast_delivery_witness :
  map fst (snd (broadcast second_fails three_observers None)) = [1; 3]%nat /\
  count_occ Nat.eq_dec
    (map fst (snd (broadcast second_fails three_observers None))) 3%nat
  = 1%nat /\
  ~ In 2%nat (active (fst (broadcast second_fails three_observers None))).
Proof.
  assert (Hnd : NoDup (active three_observers)).
  { cbn. repeat constructor; cbn; intuition discriminate. }
  pose proof (broadcast_delivery second_fails three_observers None Hnd) as H.
  cbv zeta in H. destruct H as (_ & Hok & Hko & _).
  split; [reflexivity|]. split.
  - apply Hok; cbn; auto.
  - apply Hko; cbn; auto.
Defined.

(** ** Message creation *)

Lemma fold_max_bounds (l : list Z) (a : Z) :
  a <= fold_left Z.max l a /\ Forall (fun x => x <= fold_left Z.max l a) l.
Proof.
  revert a. induction l as [|x l IH]; intros a; cbn [fold_left].
  - split; [lia | constructor].
  - destruct (IH (Z.max a x)) as [H1 H2]. split; [lia|].
    constructor; [lia | exact H2].
Qed.

Lemma fresh_id_above (coll : list Message) :
  Forall (fun m => id m < fresh_id coll) coll.
Proof.
  unfold fresh_id.
  destruct (fold_max_bounds (map id coll) 0) as [_ H].
  rewrite Forall_map in H. eapply Forall_impl; [|exact H].
  intros m Hm. cbv beta in *. lia.
Qed.

Lemma find_appended (coll : list Message) (x : Message) :
  Forall (fun m => id m < id x) coll ->
  find (fun m => id m =? id x) (coll ++ [x]) = Some x.
Proof.
  induction 1 as [|m coll Hm Hc IH]; cbn [app find].
  - now rewrite Z.eqb_refl.
  - replace (id m =? id x) with false by (symmetry; apply Z.eqb_neq; lia).
    exact IH.
Qed.

Lemma sorted_snoc (coll : list Message) (x : Message) :
  ids_increasing coll -> Forall (fun m => id m < id x) coll ->
  ids_increasing (coll ++ [x]).
Proof.
  unfold ids_increasing. induction 1 as [|m coll Hs IH Hm]; intros Hx;
    cbn [app].
  - repeat constructor.
  - inversion Hx as [|? ? Hmx Hcx]; subst. constructor; [now apply IH|].
    apply Forall_app. split; [exact Hm | now constructor].
Qed.

Section Creation.

Variable lower : string -> string.
Variable send_json : WebSocket -> Envelope -> bool.
Variable app : App.
Variable payload : CreateMessage.t.

Let inbound : bool := String.eqb (CreateMessage.direction payload) "inbound".

(** The document [create_message] stores. *)
Let stored : Message :=
  mkMessage (fresh_id (message_coll (db app)))
    (CreateMessage.customer_id payload) (CreateMessage.text payload)
    (CreateMessage.channel payload) (CreateMessage.direction payload)
    (if inbound then "open" else "sent")
    (if inbound
     then fst (score_urgency lower (CreateMessage.text payload)) else 0)
    (if inbound
     then snd (score_urgency lower (CreateMessage.text payload)) else None).

Lemma create_message_unfold :
  create_message lower send_json app payload
  = mkCreated
      (mkApp (mkDb (message_coll (db app) ++ [stored]) (customer_coll (db app)))
         (fst (broadcast send_json (manager app) (Some stored))))
      (Some stored)
      (snd (broadcast send_json (manager app) (Some stored)))
      (if inbound then [CreateMessage.text payload] else []).
Proof.
  unfold create_message, create_document. fold inbound.
  assert (F : forall u tp,
    find_message
      (mkDb (message_coll (db app) ++
         [mkMessage (fresh_id (message_coll (db app)))
            (CreateMessage.customer_id payload) (CreateMessage.text payload)
            (CreateMessage.channel payload) (CreateMessage.direction payload)
            (if inbound then "open" else "sent") u tp])
         (customer_coll (db app)))
      (fresh_id (message_coll (db app)))
    = Some (mkMessage (fresh_id (message_coll (db app)))
            (CreateMessage.customer_id payload) (CreateMessage.text payload)
            (CreateMessage.channel payload) (CreateMessage.direction payload)
            (if inbound then "open" else "sent") u tp)).
  { intros u tp. unfold find_message. cbn [message_coll].
    apply (find_appended _ (mkMessage _ _ _ _ _ _ u tp)).
    apply fresh_id_above. }
  unfold stored.
  destruct inbound.
  - destruct (score_urgency lower (CreateMessage.text payload)) as [u tp].
    cbn [fst snd]. rewrite F.
    now destruct (broadcast send_json (manager app) _).
  - rewrite F. now destruct (broadcast send_json (manager app) _).
Qed.

End Creation.

(** C10: a payload whose direction is anything but ["inbound"] is stored
    without a call of the classifier, with urgency 0, no topic and status
    ["sent"]; a payload whose direction is ["inbound"] is classified once, on
    its text, and stored with the classifier's result and status ["open"]. *)
Theorem create_message_direction (lower : string -> string)
    (send_json : WebSocket -> Envelope -> bool) (app : App)
    (payload : CreateMessage.t) :
  exists m,
    response (create_message lower send_json app payload) = Some m /\
    message_coll (db (app_after (create_message lower send_json app payload)))
    = (message_coll (db app) ++ [m])%list /\
    customer_id m = CreateMessage.customer_id payload /\
    text m = CreateMessage.text payload /\
    channel m = CreateMessage.channel payload /\
    direction m = CreateMessage.direction payload /\
    (CreateMessage.direction payload <> "inbound" ->
       classified (create_message lower send_json app payload) = [] /\
       urgency_score m = 0 /\ topic m = None /\ status m = "sent") /\
    (CreateMessage.direction payload = "inbound" ->
       classified (create_message lower send_json app payload)
       = [CreateMessage.text payload] /\
       (urgency_score m, topic m)
       = score_urgency lower (CreateMessage.text payload) /\
       status m = "open").
Proof.
  rewrite create_message_unfold. cbn [response app_after db message_coll classified].
  eexists. split; [reflexivity|]. split; [reflexivity|].
  cbn [customer_id text channel direction urgency_score topic status].
  repeat (split; [reflexivity|]).
  split; intros Hd.
  - apply String.eqb_neq in Hd. rewrite Hd. now repeat split.
  - apply String.eqb_eq in Hd. rewrite Hd. repeat split.
    now destruct (score_urgency lower (CreateMessage.text payload)).
Qed.

Lemma create_message_direction_witness :
  (exists m,
     response (create_message ascii_lower second_fails empty_app
                 shouted_direction) = Some m /\
     urgency_score m = 0 /\ topic m = None /\ status m = "sent") /\
  classified (create_message ascii_lower second_fails empty_app
                shouted_direction) = [] /\
  (exists m,
     response (create_message ascii_lower second_fails empty_app
                 inbound_question) = Some m /\
     status m = "open" /\
     (urgency_score m, topic m)
     = score_urgency ascii_lower "When will I get my loan? URGENT").
Proof.
  destruct (create_message_direction ascii_lower second_fails empty_app
              shouted_direction)
    as (m & Hr & _ & _ & _ & _ & _ & Hout & _).
  destruct (create_message_direction ascii_lower second_fails empty_app
              inbound_question)
    as (m' & Hr' & _ & _ & _ & _ & _ & _ & Hin).
  assert (N : CreateMessage.direction shouted_direction <> "inbound")
    by (cbn; discriminate).
  destruct (Hout N) as (Hc & Hu & Ht & Hs).
  destruct (Hin eq_refl) as (_ & Hsc & Hst).
  split; [exists m; now repeat split|].
  split; [exact Hc|].
  exists m'. now repeat split.
Defined.

(** An agent's reply full of loan keywords is stored unscored. *)
Example outbound_reply_unscored :
  response (create_message ascii_lower all_delivered empty_app outbound_reply)
  = Some (mkMessage 1 "c1" "Your loan is approved, when can we call?" "web"
            "outbound" "sent" 0 None).
Proof. vm_compute. reflexivity. Qed.

(** The envelopes of [create_message] carry the stored record. *)
Lemma create_message_broadcasts (lower : string -> string)
    (send_json : WebSocket -> Envelope -> bool) (app : App)
    (payload : CreateMessage.t) (ws : WebSocket) (e : Envelope) :
  In (ws, e) (delivered (create_message lower send_json app payload)) ->
  type e = "message_created" /\
  data e = response (create_message lower send_json app payload) /\
  In ws (active (manager app)).
Proof.
  rewrite create_message_unfold. cbn [delivered response].
  rewrite broadcast_sent. intros H. apply in_map_iff in H.
  destruct H as (x & Hx & Hin). injection Hx as <- <-.
  apply filter_In in Hin. now repeat split.
Qed.

(** [create_message] keeps the store in the shape the aggregation relies
    on. *)
Lemma create_message_keeps_store (lower : string -> string)
    (send_json : WebSocket -> Envelope -> bool) (app : App)
    (payload : CreateMessage.t) :
  ids_increasing (message_coll (db app)) ->
  outbound_unscored (message_coll (db app)) ->
  ids_increasing
    (message_coll (db (app_after (create_message lower send_json app payload))))
  /\
  outbound_unscored
    (message_coll (db (app_after (create_message lower send_json app payload)))).
Proof.
  intros Hs Ho. rewrite create_message_unfold.
  cbn [app_after db message_coll]. split.
  - apply sorted_snoc; [exact Hs | apply fresh_id_above].
  - apply Forall_app. split; [exact Ho|]. constructor; [|constructor].
    cbn [direction urgency_score]. intros Hd.
    apply String.eqb_neq in Hd. now rewrite Hd.
Qed.

(** ** Conversations: the [$group] stage *)

Lemma stage_group_snoc (docs : list Message) (m : Message) :
  stage_group (docs ++ [m]) = group_add m (stage_group docs).
Proof. unfold stage_group. now rewrite fold_left_app. Qed.

Lemma members_snoc (docs : list Message) (m : Message) (cid : string) :
  members (docs ++ [m]) cid
  = (members docs cid ++
     if String.eqb (customer_id m) cid then [m] else [])%list.
Proof.
  unfold members. rewrite filter_app. cbn [filter].
  now destruct (String.eqb (customer_id m) cid).
Qed.

Lemma group_add_cases (m : Message) (gs : list Group.t) (g' : Group.t) :
  NoDup (map Group._id gs) -> In g' (group_add m gs) ->
  (In g' gs /\ Group._id g' <> customer_id m) \/
  (exists g, In g gs /\ Group._id g = customer_id m /\
             g' = group_update g m) \/
  (g' = group_init m /\ ~ In (customer_id m) (map Group._id gs)).
Proof.
  induction gs as [|g gs IH]; cbn [group_add map]; intros Hnd Hin.
  - destruct Hin as [<-|[]]. right. right. split; [reflexivity | intros []].
  - inversion Hnd as [|? ? Hg Hnd']; subst.
    destruct (String.eqb (Group._id g) (customer_id m)) eqn:E.
    + apply String.eqb_eq in E. destruct Hin as [<-|Hin].
      * right. left. exists g. repeat split; [now left | exact E].
      * left. split; [now right|]. intros C. apply Hg. rewrite E, <- C.
        now apply in_map.
    + apply String.eqb_neq in E. destruct Hin as [<-|Hin].
      * left. split; [now left | exact E].
      * destruct (IH Hnd' Hin) as [[H1 H2]|[(g0 & H1 & H2 & H3)|[H1 H2]]].
        -- left. split; [now right | exact H2].
        -- right. left. exists g0. repeat split; [now right | exact H2 | exact H3].
        -- right. right. split; [exact H1|]. cbn [In]. intros [C|C];
             [now apply E | now apply H2].
Qed.

Lemma group_add_keys (m : Message) (gs : list Group.t) :
  map Group._id (group_add m gs) = map Group._id gs \/
  (map Group._id (group_add m gs)
   = (map Group._id gs ++ [customer_id m])%list /\
   ~ In (customer_id m) (map Group._id gs)).
Proof.
  induction gs as [|g gs IH]; cbn [group_add map].
  - right. split; [reflexivity | intros []].
  - destruct (String.eqb (Group._id g) (customer_id m)) eqn:E.
    + left. reflexivity.
    + apply String.eqb_neq in E. cbn [map].
      destruct IH as [IH|[IH Hn]].
      * left. now rewrite IH.
      * right. split; [cbn [app]; now rewrite IH|].
        cbn [In]. intros [C|C]; [now apply E | now apply Hn].
Qed.

Lemma group_add_has_key (m : Message) (gs : list Group.t) :
  In (customer_id m) (map Group._id (group_add m gs)).
Proof.
  induction gs as [|g gs IH]; cbn [group_add map]; [now left|].
  destruct (String.eqb (Group._id g) (customer_id m)) eqn:E; cbn [map].
  - apply String.eqb_eq in E. now left.
  - now right.
Qed.

Lemma members_nil (docs : list Message) (cid : string) :
  (forall m, In m docs -> customer_id m <> cid) -> members docs cid = [].
Proof.
  intros H. unfold members. induction docs as [|x docs IH]; cbn [filter];
    [reflexivity|].
  destruct (String.eqb (customer_id x) cid) eqn:E.
  - apply String.eqb_eq in E. exfalso. apply (H x); [now left | exact E].
  - apply IH. intros m Hm. apply H. now right.
Qed.

Lemma group_inv_step (docs : list Message) (m : Message)
    (gs : list Group.t) :
  group_inv docs gs -> group_inv (docs ++ [m]) (group_add m gs).
Proof.
  intros (Hnd & Hcov & Hsum). split; [|split].
  - destruct (group_add_keys m gs) as [->|[-> Hn]]; [exact Hnd|].
    apply NoDup_app; repeat split; try assumption.
    + repeat constructor. intros [].
    + intros x Hx [<-|[]]. now apply Hn.
  - intros x Hx. apply in_app_or in Hx. destruct Hx as [Hx|[<-|[]]].
    + destruct (group_add_keys m gs) as [->|[-> _]]; [now apply Hcov|].
      apply in_or_app. left. now apply Hcov.
    + apply group_add_has_key.
  - intros g' Hg'. rewrite members_snoc.
    destruct (group_add_cases m gs g' Hnd Hg')
      as [[Hin Hne]|[(g & Hin & Hk & ->)|[-> Hn]]].
    + replace (String.eqb (customer_id m) (Group._id g')) with false
        by (symmetry; apply String.eqb_neq; congruence).
      rewrite app_nil_r. now apply Hsum.
    + unfold group_update. cbn [Group._id]. rewrite Hk, String.eqb_refl.
      destruct (Hsum g Hin) as (init & last & Hgrp & _ & _ & Hle & Hex).
      rewrite Hk in Hgrp, Hle, Hex.
      exists (members docs (customer_id m)), m.
      cbn [Group.last_message Group.last_time Group.max_urgency].
      repeat split.
      * apply Forall_app. split.
        -- eapply Forall_impl; [|exact Hle]. cbv beta. intros x Hx. lia.
        -- constructor; [lia | constructor].
      * apply Exists_app.
        destruct (Z.le_gt_cases (urgency_score m) (Group.max_urgency g)).
        -- left. eapply Exists_impl; [|exact Hex]. cbv beta. intros x Hx. lia.
        -- right. constructor. lia.
    + unfold group_init. cbn [Group._id]. rewrite String.eqb_refl.
      rewrite members_nil.
      * exists [], m.
        cbn [Group.last_message Group.last_time Group.max_urgency app].
        repeat split.
        -- constructor; [lia | constructor].
        -- constructor. reflexivity.
      * intros x Hx C. apply Hn. rewrite <- C. now apply Hcov.
Qed.

Lemma stage_group_inv (docs : list Message) :
  group_inv docs (stage_group docs).
Proof.
  induction docs as [|m docs IH] using rev_ind.
  - repeat split; cbn; [constructor | intros m [] | intros g []].
  - rewrite stage_group_snoc. now apply group_inv_step.
Qed.

(** ** Conversations: ordering and rendering *)

Lemma insert_desc_perm (key : Group.t -> Z) (g : Group.t)
    (l : list Group.t) :
  Permutation (g :: l) (insert_desc key g l).
Proof.
  induction l as [|h l IH]; cbn [insert_desc]; [reflexivity|].
  destruct (key h <=? key g); [reflexivity|].
  rewrite perm_swap. now constructor.
Qed.

Lemma sort_desc_perm (key : Group.t -> Z) (l : list Group.t) :
  Permutation l (sort_desc key l).
Proof.
  unfold sort_desc. induction l as [|g l IH]; cbn [fold_right];
    [reflexivity|].
  rewrite <- insert_desc_perm. now constructor.
Qed.

Lemma insert_desc_sorted (key : Group.t -> Z) (g : Group.t)
    (l : list Group.t) :
  descending key l -> descending key (insert_desc key g l).
Proof.
  unfold descending. induction 1 as [|h l Hs IH Hh]; cbn [insert_desc].
  - repeat constructor.
  - destruct (key h <=? key g) eqn:E.
    + apply Z.leb_le in E. constructor; [now constructor|].
      constructor; [lia|]. eapply Forall_impl; [|exact Hh].
      cbv beta. intros x Hx. lia.
    + apply Z.leb_gt in E. constructor; [exact IH|].
      eapply Permutation_Forall; [apply insert_desc_perm|].
      constructor; [lia | exact Hh].
Qed.

Lemma sort_desc_sorted (key : Group.t -> Z) (l : list Group.t) :
  descending key (sort_desc key l).
Proof.
  unfold sort_desc. induction l as [|g l IH]; cbn [fold_right].
  - constructor.
  - now apply insert_desc_sorted.
Qed.

Lemma same_group_refl (g : Group.t) : same_group g g.
Proof. unfold same_group. now repeat split. Qed.

Lemma same_groups_refl (gs : list Group.t) : Forall2 same_group gs gs.
Proof. induction gs; constructor; [apply same_group_refl | assumption]. Qed.

Lemma emitted_sort_desc (key : Group.t -> Z) (groups : list Group.t) :
  emitted key groups (sort_desc key groups).
Proof.
  exists groups. split; [apply same_groups_refl|].
  split; [apply sort_desc_perm | apply sort_desc_sorted].
Qed.

(** Every call has an outcome: the one where the store orders the groups
    by a stable sort. *)
Lemma conversations_total (pcre : string -> result (string -> bool))
    (db : Db) (q : option string) (sort : string) (limit : Z) :
  conversations pcre db q sort limit
    (conversations_with pcre sort_desc db q sort limit).
Proof.
  unfold conversations, conversations_with.
  destruct (grouped pcre db q limit) as [[groups n]|e]; cbn [bind fst snd];
    [|reflexivity].
  exists (sort_desc (sort_field sort) groups).
  split; [apply emitted_sort_desc | reflexivity].
Qed.

Lemma same_groups_in (gs mid : list Group.t) (g' : Group.t) :
  Forall2 same_group gs mid -> In g' mid ->
  exists g, In g gs /\ same_group g g'.
Proof.
  induction 1 as [|g m gs mid Hgm Hrest IH]; intros Hin; [destruct Hin|].
  destruct Hin as [<-|Hin].
  - exists g. split; [now left | exact Hgm].
  - destruct (IH Hin) as (g0 & H0 & H1). exists g0. split; [now right | exact H1].
Qed.

Lemma emitted_in (key : Group.t -> Z) (groups out : list Group.t)
    (g' : Group.t) :
  emitted key groups out -> In g' out ->
  exists g, In g groups /\ same_group g g'.
Proof.
  intros (mid & Hsame & Hperm & _) Hin.
  apply (same_groups_in groups mid); [exact Hsame|].
  eapply Permutation_in; [symmetry; exact Hperm | exact Hin].
Qed.

Lemma firstn_in {A : Type} (n : nat) (l : list A) (x : A) :
  In x (firstn n l) -> In x l.
Proof.
  intros H. rewrite <- (firstn_skipn n l). apply in_or_app. now left.
Qed.

Lemma render_ok (db : Db) (g : Group.t) (it : Item.t) :
  render db g = Ok it ->
  Item.customer_id it = Group._id g /\
  Item.last_message it = Group.last_message g /\
  Item.max_urgency it = Group.max_urgency g /\
  Item.topics it = keep_truthy (Group.topics g).
Proof.
  unfold render. destruct (find_customer db (Group._id g)) as [c|e];
    cbn [bind]; [|discriminate].
  intros H. injection H as <-. now repeat split.
Qed.

Lemma render_all_in (db : Db) (gs : list Group.t) (its : list Item.t)
    (it : Item.t) :
  render_all db gs = Ok its -> In it its ->
  exists g, In g gs /\ render db g = Ok it.
Proof.
  revert its. induction gs as [|g gs IH]; intros its; cbn [render_all].
  - intros H. injection H as <-. intros [].
  - destruct (render db g) as [x|e] eqn:Eg; cbn [bind]; [|discriminate].
    destruct (render_all db gs) as [xs|e]; cbn [bind]; [|discriminate].
    intros H. injection H as <-. intros [<-|Hin].
    + exists g. split; [now left | exact Eg].
    + destruct (IH xs eq_refl Hin) as (g0 & H0 & H1).
      exists g0. split; [now right | exact H1].
Qed.

(** Every item of an outcome renders one group of the [$group] stage. *)
Lemma conversations_item (pcre : string -> result (string -> bool))
    (db : Db) (q : option string) (sort : string) (limit : Z)
    (items : list Item.t) :
  conversations pcre db q sort limit (Ok items) ->
  exists keep,
    stage_match pcre q = Ok keep /\
    forall it, In it items ->
      exists g,
        In g (stage_group (filter keep (message_coll db))) /\
        Item.customer_id it = Group._id g /\
        Item.last_message it = Group.last_message g /\
        Item.max_urgency it = Group.max_urgency g.
Proof.
  unfold conversations, grouped.
  destruct (bson_int limit) as [lim|e]; cbn [bind]; [|discriminate].
  destruct (stage_match pcre q) as [keep|e]; cbn [bind]; [|discriminate].
  destruct (limit_stage lim) as [n|e]; cbn [bind]; [|discriminate].
  intros (out & Hem & Hr). exists keep. split; [reflexivity|].
  intros it Hit.
  destruct (render_all_in db _ items it (eq_sym Hr) Hit) as (g' & Hg' & Hrg).
  apply firstn_in in Hg'.
  destruct (emitted_in _ _ _ g' Hem Hg') as (g & Hg & H1 & H2 & _ & H4 & _).
  destruct (render_ok db g' it Hrg) as (R1 & R2 & R3 & _).
  exists g. repeat split; congruence.
Qed.

Lemma same_groups_ids (gs mid : list Group.t) :
  Forall2 same_group gs mid -> map Group._id gs = map Group._id mid.
Proof.
  induction 1 as [|g m gs mid (H1 & _) _ IH]; cbn [map]; [reflexivity|].
  now rewrite IH, H1.
Qed.

Lemma emitted_ids (key : Group.t -> Z) (groups out : list Group.t) :
  emitted key groups out ->
  Permutation (map Group._id groups) (map Group._id out).
Proof.
  intros (mid & Hsame & Hperm & _). rewrite (same_groups_ids _ _ Hsame).
  now apply Permutation_map.
Qed.

Lemma render_all_fields (db : Db) (gs : list Group.t) (its : list Item.t) :
  render_all db gs = Ok its ->
  map Item.customer_id its = map Group._id gs /\
  map Item.max_urgency its = map Group.max_urgency gs.
Proof.
  revert its. induction gs as [|g gs IH]; intros its; cbn [render_all].
  - intros H. injection H as <-. now split.
  - destruct (render db g) as [x|e] eqn:Eg; cbn [bind]; [|discriminate].
    destruct (render_all db gs) as [xs|e]; cbn [bind]; [|discriminate].
    intros H. injection H as <-. destruct (IH xs eq_refl) as [I1 I2].
    destruct (render_ok db g x Eg) as (R1 & _ & R3 & _).
    cbn [map]. now rewrite I1, I2, R1, R3.
Qed.

Lemma NoDup_firstn {A : Type} (n : nat) (l : list A) :
  NoDup l -> NoDup (firstn n l).
Proof.
  intros H. rewrite <- (firstn_skipn n l) in H.
  now apply NoDup_app_remove_r in H.
Qed.

(** Without truncation every customer with a surviving message is
    listed, and no customer is listed twice. *)
Lemma conversations_covers (pcre : string -> result (string -> bool))
    (db : Db) (q : option string) (sort : string) (limit : Z)
    (items : list Item.t) (keep : Message -> bool) :
  conversations pcre db q sort limit (Ok items) ->
  stage_match pcre q = Ok keep ->
  NoDup (map Item.customer_id items) /\
  (Z.of_nat (List.length items) < limit ->
   forall m, In m (message_coll db) -> keep m = true ->
             In (customer_id m) (map Item.customer_id items)).
Proof.
  unfold conversations, grouped, bson_int, limit_stage. intros Hrun Hkeep.
  rewrite Hkeep in Hrun. revert Hrun.
  destruct ((limit <? - 2 ^ 63) || (2 ^ 63 - 1 <? limit)); cbn [bind];
    [discriminate|].
  destruct (limit <=? 0) eqn:L; cbn [bind]; [discriminate|].
  apply Z.leb_gt in L. intros (out & Hem & Hr). symmetry in Hr.
  destruct (render_all_fields db _ items Hr) as [Hids _].
  pose proof (emitted_ids _ _ _ Hem) as Hperm.
  destruct (stage_group_inv (filter keep (message_coll db)))
    as (Hnd & Hcov & _).
  assert (Hlen : List.length items
                 = List.length (firstn (Z.to_nat limit) out)).
  { rewrite <- (length_map Item.customer_id), Hids. apply length_map. }
  split.
  - rewrite Hids, <- firstn_map. apply NoDup_firstn.
    eapply Permutation_NoDup; eassumption.
  - intros Hshort m Hm Hk. rewrite Hlen, length_firstn in Hshort.
    assert (Hall : firstn (Z.to_nat limit) out = out)
      by (apply firstn_all2; lia).
    rewrite Hids, Hall. eapply Permutation_in; [exact Hperm|].
    apply Hcov. apply filter_In. now split.
Qed.

Lemma sorted_filter (f : Message -> bool) (coll : list Message) :
  ids_increasing coll -> ids_increasing (filter f coll).
Proof.
  unfold ids_increasing. induction 1 as [|m coll Hs IH Hm]; cbn [filter].
  - constructor.
  - destruct (f m); [|exact IH]. constructor; [exact IH|].
    apply Forall_forall. intros x Hx. apply filter_In in Hx.
    rewrite Forall_forall in Hm. now apply Hm.
Qed.

Lemma sorted_last (init : list Message) (m : Message) :
  ids_increasing (init ++ [m]) -> Forall (fun x => id x < id m) init.
Proof.
  unfold ids_increasing. induction init as [|x init IH]; cbn [app];
    intros H; [constructor|].
  inversion H as [|? ? Hs Hx]; subst. constructor; [|now apply IH].
  rewrite Forall_forall in Hx. apply Hx. apply in_or_app. right. now left.
Qed.

(** C5: on a store whose identifiers grow along the scan order, a listing
    returned by [conversations] holds one summary per customer, a summary
    for every customer with a message that passed the filter unless the
    listing is cut at [limit], and every summary carries the text of the
    message of its customer's group with the greatest identifier, and the
    greatest urgency score of the group, which is 0 for a group without
    inbound messages (outbound messages being stored with score 0). *)
Theorem conversations_summary (pcre : string -> result (string -> bool))
    (db : Db) (q : option string) (sort : string) (limit : Z)
    (items : list Item.t) :
  ids_increasing (message_coll db) ->
  outbound_unscored (message_coll db) ->
  conversations pcre db q sort limit (Ok items) ->
  exists keep,
    stage_match pcre q = Ok keep /\
    NoDup (map Item.customer_id items) /\
    (Z.of_nat (List.length items) < limit ->
     forall m, In m (message_coll db) -> keep m = true ->
       exists it, In it items /\ Item.customer_id it = customer_id m) /\
    forall it, In it items ->
      (exists m,
         In m (group_of keep db (Item.customer_id it)) /\
         Item.last_message it = text m /\
         forall m', In m' (group_of keep db (Item.customer_id it)) ->
                    id m' <= id m /\ (id m' = id m -> m' = m)) /\
      (exists m,
         In m (group_of keep db (Item.customer_id it)) /\
         Item.max_urgency it = urgency_score m) /\
      (forall m', In m' (group_of keep db (Item.customer_id it)) ->
                  urgency_score m' <= Item.max_urgency it) /\
      ((forall m', In m' (group_of keep db (Item.customer_id it)) ->
                   direction m' <> "inbound") ->
       Item.max_urgency it = 0).
Proof.
  intros Hsorted Hout Hrun.
  destruct (conversations_item pcre db q sort limit items Hrun)
    as (keep & Hkeep & Hitems).
  destruct (conversations_covers pcre db q sort limit items keep Hrun Hkeep)
    as [Honce Hall].
  exists keep. split; [exact Hkeep|]. split; [exact Honce|]. split.
  { intros Hshort m Hm Hk. specialize (Hall Hshort m Hm Hk).
    apply in_map_iff in Hall. destruct Hall as (it & Hid & Hit).
    now exists it. }
  intros it Hit.
  destruct (Hitems it Hit) as (g & Hg & Hcid & Hlast & Hmax).
  destruct (stage_group_inv (filter keep (message_coll db)))
    as (_ & _ & Hsum).
  destruct (Hsum g Hg) as (init & m & Hgrp & Htext & _ & Hle & Hex).
  unfold group_of. rewrite Hcid, Hlast, Hmax.
  set (grp := members (filter keep (message_coll db)) (Group._id g)) in *.
  assert (Hgs : ids_increasing grp).
  { unfold grp, members. now apply sorted_filter, sorted_filter. }
  rewrite Hgrp in Hgs. pose proof (sorted_last init m Hgs) as Hbelow.
  rewrite Forall_forall in Hbelow, Hle. apply Exists_exists in Hex.
  assert (Hmax_in : exists x, In x grp /\
                              Group.max_urgency g = urgency_score x).
  { destruct Hex as (x & Hx & Hux). exists x. now split. }
  repeat split.
  - exists m. split; [rewrite Hgrp; apply in_or_app; right; now left|].
    split; [exact Htext|]. intros m' Hm'. rewrite Hgrp in Hm'.
    apply in_app_or in Hm'. destruct Hm' as [Hm'|[<-|[]]].
    + specialize (Hbelow m' Hm'). split; lia.
    + split; [lia | reflexivity].
  - exact Hmax_in.
  - exact Hle.
  - intros Hno. destruct Hmax_in as (x & Hx & ->).
    unfold outbound_unscored in Hout. rewrite Forall_forall in Hout.
    apply Hout; [|now apply Hno].
    unfold grp, members in Hx. apply filter_In in Hx. destruct Hx as [Hx _].
    apply filter_In in Hx. now destruct Hx.
Qed.

Lemma sample_db_value :
  sample_db
  = mkDb
      [ mkMessage 1 cust_a "loan please" "web" "inbound" "open" 30
          (Some "loan");
        mkMessage 2 cust_b "kyc pending" "sms" "inbound" "open" 30
          (Some "kyc");
        mkMessage 3 cust_a "We will call you back" "web" "outbound" "sent" 0
          None ]
      [alice].
Proof. vm_compute. reflexivity. Qed.

Lemma sample_grouped (limit : Z) :
  0 < limit <= 2 ^ 63 - 1 ->
  grouped reject_all sample_db None limit
  = Ok ([group_a; group_b], Z.to_nat limit).
Proof.
  intros H. unfold grouped, bson_int, limit_stage.
  replace (limit <? - 2 ^ 63) with false by (symmetry; apply Z.ltb_ge; lia).
  replace (2 ^ 63 - 1 <? limit) with false by (symmetry; apply Z.ltb_ge; lia).
  cbn [orb bind stage_match].
  replace (limit <=? 0) with false by (symmetry; apply Z.leb_gt; lia).
  reflexivity.
Qed.

Lemma sample_store_ok :
  ids_increasing (message_coll sample_db) /\
  outbound_unscored (message_coll sample_db).
Proof.
  rewrite sample_db_value. cbn [message_coll]. split.
  - repeat constructor; cbn; lia.
  - repeat constructor; cbn; try reflexivity; intros H; now elim H.
Qed.

Lemma conversations_summary_witness :
  exists keep,
    stage_match reject_all None = Ok keep /\
    NoDup (map Item.customer_id [item_a; item_b]) /\
    (Z.of_nat (List.length [item_a; item_b]) < 100 ->
     forall m, In m (message_coll sample_db) -> keep m = true ->
       exists it, In it [item_a; item_b] /\
                  Item.customer_id it = customer_id m) /\
    forall it, In it [item_a; item_b] ->
      (exists m,
         In m (group_of keep sample_db (Item.customer_id it)) /\
         Item.last_message it = text m /\
         forall m', In m' (group_of keep sample_db (Item.customer_id it)) ->
                    id m' <= id m /\ (id m' = id m -> m' = m)) /\
      (exists m,
         In m (group_of keep sample_db (Item.customer_id it)) /\
         Item.max_urgency it = urgency_score m) /\
      (forall m', In m' (group_of keep sample_db (Item.customer_id it)) ->
                  urgency_score m' <= Item.max_urgency it) /\
      ((forall m', In m' (group_of keep sample_db (Item.customer_id it)) ->
                   direction m' <> "inbound") ->
       Item.max_urgency it = 0).
Proof.
  apply (conversations_summary reject_all sample_db None "-urgency" 100).
  - apply sample_store_ok.
  - apply sample_store_ok.
  - unfold conversations. rewrite sample_grouped by lia.
    exists [group_a; group_b]. split; [|vm_compute; reflexivity].
    exists [group_a; group_b]. split; [apply same_groups_refl|].
    split; [reflexivity|]. repeat constructor; cbn; lia.
Defined.

(** ** Conversations: the limit *)

Lemma grouped_bad_limit (pcre : string -> result (string -> bool))
    (db : Db) (q : option string) (limit : Z) :
  limit <= 0 -> exists e, grouped pcre db q limit = Raise e.
Proof.
  intros H. unfold grouped, bson_int, limit_stage.
  destruct ((limit <? - 2 ^ 63) || (2 ^ 63 - 1 <? limit)); cbn [bind];
    [now eexists|].
  destruct (stage_match pcre q) as [keep|e]; cbn [bind]; [|now eexists].
  replace (limit <=? 0) with true by (symmetry; apply Z.leb_le; lia).
  now eexists.
Qed.

(** C6, as the code has it: a limit of 0 or less is refused, on any
    collection, and the call raises; on an empty collection, with a limit
    from 1 to 2^63 - 1 and a filter that is absent or accepted as a pattern,
    the result is the empty sequence. *)
Theorem limit_and_empty (pcre : string -> result (string -> bool))
    (db : Db) (q : option string) (sort : string) (limit : Z)
    (r : result (list Item.t)) :
  conversations pcre db q sort limit r ->
  (limit <= 0 -> exists e, r = Raise e) /\
  (0 < limit <= 2 ^ 63 - 1 -> message_coll db = [] ->
   forall keep, stage_match pcre q = Ok keep -> r = Ok []).
Proof.
  unfold conversations. intros Hrun. split.
  - intros Hl. destruct (grouped_bad_limit pcre db q limit Hl) as [e He].
    rewrite He in Hrun. now exists e.
  - intros Hl Hdb keep Hkeep. revert Hrun.
    unfold grouped, bson_int, limit_stage. rewrite Hkeep, Hdb.
    replace (limit <? - 2 ^ 63) with false by (symmetry; apply Z.ltb_ge; lia).
    replace (2 ^ 63 - 1 <? limit) with false
      by (symmetry; apply Z.ltb_ge; lia).
    cbn [orb bind].
    replace (limit <=? 0) with false by (symmetry; apply Z.leb_gt; lia).
    cbn [filter stage_group fold_left].
    intros (out & (mid & Hsame & Hperm & _) & ->).
    inversion Hsame; subst. apply Permutation_nil in Hperm. subst out.
    now rewrite firstn_nil.
Qed.

Lemma limit_and_empty_witness :
  (exists e, conversations_with reject_all sort_desc sample_db None
               "-urgency" 0 = Raise e) /\
  conversations_with reject_all sort_desc empty_db (Some "loan")
    "-urgency" 100 = Ok [].
Proof.
  split.
  - apply (limit_and_empty reject_all sample_db None "-urgency" 0).
    + apply conversations_total.
    + lia.
  - apply (limit_and_empty reject_all empty_db (Some "loan") "-urgency" 100
             _ (conversations_total _ _ _ _ _))
      with (keep := fun m => search (map Lit (list_ascii_of_string "loan"))
                               (text m)).
    + lia.
    + reflexivity.
    + reflexivity.
Defined.

(** C6, as stated, fails: with limit 0 the call raises, on the sample store
    and on the empty one, and the empty sequence is not an outcome. *)
Lemma limit_zero_raises :
  conversations reject_all sample_db None "-urgency" 0
    (Raise OperationFailure) /\
  conversations reject_all empty_db None "-urgency" 0
    (Raise OperationFailure) /\
  ~ conversations reject_all sample_db None "-urgency" 0 (Ok []) /\
  ~ conversations reject_all empty_db None "-urgency" 0 (Ok []).
Proof.
  unfold conversations. repeat split; cbn; try reflexivity; discriminate.
Qed.

(** ** Conversations: ties in the sort key *)

(** C7, on the sample store: the two customers have the same greatest
    urgency, the pipeline sorts on that key alone, and both orders of the two
    summaries are outcomes of the same call; with limit 1 the outcomes do
    not even name the same customer. *)
Theorem conversations_tie_order :
  conversations reject_all sample_db None "-urgency" 100
    (Ok [item_a; item_b]) /\
  conversations reject_all sample_db None "-urgency" 100
    (Ok [item_b; item_a]) /\
  conversations reject_all sample_db None "-urgency" 1 (Ok [item_a]) /\
  conversations reject_all sample_db None "-urgency" 1 (Ok [item_b]) /\
  Item.customer_id item_a <> Item.customer_id item_b.
Proof.
  unfold conversations. rewrite !sample_grouped by lia.
  assert (Hab : emitted (sort_field "-urgency") [group_a; group_b]
                  [group_a; group_b]).
  { exists [group_a; group_b]. split; [apply same_groups_refl|].
    split; [reflexivity|]. repeat constructor; cbn; lia. }
  assert (Hba : emitted (sort_field "-urgency") [group_a; group_b]
                  [group_b; group_a]).
  { exists [group_a; group_b]. split; [apply same_groups_refl|].
    split; [apply perm_swap|]. repeat constructor; cbn; lia. }
  repeat split.
  - exists [group_a; group_b]. split; [exact Hab | vm_compute; reflexivity].
  - exists [group_b; group_a]. split; [exact Hba | vm_compute; reflexivity].
  - exists [group_a; group_b]. split; [exact Hab | vm_compute; reflexivity].
  - exists [group_b; group_a]. split; [exact Hba | vm_compute; reflexivity].
  - cbn. discriminate.
Qed.

(** ** Conversations: the text filter *)

Lemma ordinary_not_dot (c : ascii) :
  ordinary c = true -> Ascii.eqb c "." = false.
Proof.
  intros H. destruct (Ascii.eqb c ".") eqn:E; [|reflexivity].
  apply Ascii.eqb_eq in E. subst c. vm_compute in H. discriminate.
Qed.

Lemma parse_simple_literal (q : string) :
  literal q = true ->
  parse_simple q = Some (map Lit (list_ascii_of_string q)).
Proof.
  unfold literal. induction q as [|c q IH];
    cbn [list_ascii_of_string forallb parse_simple map]; [reflexivity|].
  intros H. apply andb_true_iff in H. destruct H as [Hc Hq].
  rewrite (ordinary_not_dot c Hc), Hc, (IH Hq). reflexivity.
Qed.

Lemma match_here_literal (q s : string) :
  match_here (map Lit (list_ascii_of_string q)) s = ci_starts_with q s.
Proof.
  revert s. induction q as [|c q IH]; intros s;
    cbn [list_ascii_of_string map match_here ci_starts_with].
  - reflexivity.
  - destruct s as [|d s]; [reflexivity|]. now rewrite IH.
Qed.

Lemma search_literal (q s : string) :
  search (map Lit (list_ascii_of_string q)) s = ci_in q s.
Proof.
  induction s as [|d s IH]; cbn [search ci_in];
    rewrite match_here_literal; [reflexivity|]. now rewrite IH.
Qed.

Lemma ci_starts_with_lower (q t : string) :
  ci_starts_with q t = starts_with (ascii_lower q) (ascii_lower t).
Proof.
  revert t. induction q as [|c q IH]; intros t;
    cbn [ci_starts_with ascii_lower starts_with]; [reflexivity|].
  destruct t as [|d t]; cbn [ascii_lower]; [reflexivity|].
  now rewrite IH.
Qed.

(** [ci_in] is the substring test of the classifier on the lower-cased
    strings. *)
Lemma ci_in_lower (q t : string) :
  ci_in q t = str_in (ascii_lower q) (ascii_lower t).
Proof.
  induction t as [|d t IH]; cbn [ci_in ascii_lower str_in];
    rewrite ci_starts_with_lower; cbn [ascii_lower]; [reflexivity|].
  now rewrite IH.
Qed.

Lemma ci_in_empty (t : string) : ci_in "" t = true.
Proof. destruct t; reflexivity. Qed.

Lemma stage_match_literal (pcre : string -> result (string -> bool))
    (q : string) :
  literal q = true ->
  exists keep,
    stage_match pcre (Some q) = Ok keep /\
    forall m, keep m = ci_in q (text m).
Proof.
  intros H. destruct q as [|c q].
  - exists (fun _ => true). split; [reflexivity|]. intros m.
    now rewrite ci_in_empty.
  - exists (fun m => search (map Lit (list_ascii_of_string (String c q)))
                       (text m)).
    split.
    + unfold stage_match, regex_i. now rewrite (parse_simple_literal _ H).
    + intros m. apply search_literal.
Qed.

Lemma render_all_customers (db db' : Db) (gs : list Group.t) :
  customer_coll db = customer_coll db' -> render_all db gs = render_all db' gs.
Proof.
  intros H. induction gs as [|g gs IH]; cbn [render_all]; [reflexivity|].
  rewrite IH. unfold render, find_customer. now rewrite H.
Qed.

(** C9, as the code has it: a filter made of ordinary characters only (no
    pattern syntax) keeps exactly the messages whose text contains it when
    case is ignored, and the call is the unfiltered call on the collection of
    the kept messages. *)
Theorem literal_filter (pcre : string -> result (string -> bool))
    (db : Db) (q : string) (sort : string) (limit : Z) :
  literal q = true ->
  (exists keep,
     stage_match pcre (Some q) = Ok keep /\
     forall m, keep m = ci_in q (text m)) /\
  (forall t, ci_in q t = str_in (ascii_lower q) (ascii_lower t)) /\
  (forall r,
     conversations pcre db (Some q) sort limit r <->
     conversations pcre
       (mkDb (filter (fun m => ci_in q (text m)) (message_coll db))
          (customer_coll db))
       None sort limit r).
Proof.
  intros H. split; [now apply stage_match_literal|].
  split; [intros t; apply ci_in_lower|].
  intros r. destruct (stage_match_literal pcre q H) as (keep & Hk & Hext).
  unfold conversations, grouped. rewrite Hk.
  destruct (bson_int limit) as [lim|e]; cbn [bind]; [|reflexivity].
  cbn [stage_match bind message_coll]. rewrite filter_true.
  rewrite (filter_ext keep (fun m => ci_in q (text m)) Hext).
  destruct (limit_stage lim) as [n|e]; cbn [bind]; [|reflexivity].
  split; intros (out & Hem & ->); exists out; (split; [exact Hem|]);
    now apply render_all_customers.
Qed.

Lemma literal_filter_witness :
  conversations reject_all sample_db (Some "LOAN") "-urgency" 100
    (Ok [Item.mk cust_a (Some alice) "loan please" 30 ["loan"]]).
Proof.
  apply (literal_filter reject_all sample_db "LOAN" "-urgency" 100);
    [reflexivity|].
  unfold conversations.
  replace (grouped _ _ _ _)
    with (Ok ([Group.mk cust_a "loan please" 1 30 [Some "loan"]], 100%nat))
    by (vm_compute; reflexivity).
  exists [Group.mk cust_a "loan please" 1 30 [Some "loan"]].
  split; [|vm_compute; reflexivity].
  exists [Group.mk cust_a "loan please" 1 30 [Some "loan"]].
  split; [apply same_groups_refl|]. split; [reflexivity|].
  repeat constructor.
Defined.

Lemma render_all_nil (db : Db) (gs : list Group.t) :
  render_all db gs = Ok [] -> gs = [].
Proof.
  destruct gs as [|g gs]; [reflexivity|]. cbn [render_all].
  destruct (render db g); cbn [bind]; [|discriminate].
  destruct (render_all db gs); cbn [bind]; discriminate.
Qed.

(** C9, as stated, fails: the filter ["a.c"] is a pattern, so a message
    whose text is ["abc"], which does not contain ["a.c"], is kept and
    summarised. *)
Lemma dot_filter_keeps_abc :
  ci_in "a.c" "abc" = false /\
  conversations reject_all abc_db (Some "a.c") "-urgency" 100
    (Ok [Item.mk cust_b None "abc" 0 []]) /\
  ~ conversations reject_all abc_db (Some "a.c") "-urgency" 100 (Ok []).
Proof.
  split; [reflexivity|].
  assert (G : grouped reject_all abc_db (Some "a.c") 100
              = Ok ([Group.mk cust_b "abc" 1 0 [None]], 100%nat))
    by (vm_compute; reflexivity).
  unfold conversations. rewrite G. split.
  - exists [Group.mk cust_b "abc" 1 0 [None]]. split; [|vm_compute; reflexivity].
    exists [Group.mk cust_b "abc" 1 0 [None]].
    split; [apply same_groups_refl|]. split; [reflexivity|].
    repeat constructor.
  - intros (out & (mid & Hsame & Hperm & _) & Hr).
    symmetry in Hr. apply render_all_nil in Hr.
    apply Forall2_length in Hsame. apply Permutation_length in Hperm.
    destruct out as [|g out]; [cbn in *; lia|].
    cbn in Hr. discriminate.
Qed.

(** ** Conversations: what the sort key does fix *)

Section Unique.

Variable A : Type.
Variable key : A -> Z.

Let desc (l : list A) : Prop := StronglySorted (fun a b => key b <= key a) l.

Lemma same_key_same_element (l : list A) (a b : A) :
  NoDup (map key l) -> In a l -> In b l -> key a = key b -> a = b.
Proof.
  induction l as [|x l IH]; cbn [map]; intros Hnd Ha Hb Hk; [destruct Ha|].
  inversion Hnd as [|? ? Hx Hnd']; subst.
  destruct Ha as [<-|Ha], Hb as [<-|Hb].
  - reflexivity.
  - exfalso. apply Hx. rewrite Hk. now apply in_map.
  - exfalso. apply Hx. rewrite <- Hk. now apply in_map.
  - now apply IH.
Qed.

(** Two descending arrangements of the same elements are the same list when
    no two elements share a key. *)
Lemma descending_unique (l1 l2 : list A) :
  desc l1 -> desc l2 -> Permutation l1 l2 -> NoDup (map key l1) -> l1 = l2.
Proof.
  unfold desc. intros H1. revert l2.
  induction H1 as [|a l1 Hs1 IH Ha]; intros l2 H2 Hp Hnd.
  - apply Permutation_nil in Hp. now subst.
  - destruct l2 as [|b l2];
      [apply Permutation_sym, Permutation_nil in Hp; discriminate|].
    inversion H2 as [|? ? Hs2 Hb]; subst.
    assert (Hab : a = b).
    { apply (same_key_same_element (a :: l1)); try assumption.
      - now left.
      - eapply Permutation_in; [symmetry; exact Hp | now left].
      - assert (In b (a :: l1)) as Hin
          by (eapply Permutation_in; [symmetry; exact Hp | now left]).
        assert (In a (b :: l2)) as Hin'
          by (eapply Permutation_in; [exact Hp | now left]).
        rewrite Forall_forall in Ha, Hb.
        destruct Hin as [->|Hin]; [reflexivity|].
        destruct Hin' as [->|Hin']; [reflexivity|].
        specialize (Ha b Hin). specialize (Hb a Hin'). lia. }
    subst b. f_equal. apply IH.
    + exact Hs2.
    + now apply Permutation_cons_inv in Hp.
    + cbn [map] in Hnd. now inversion Hnd.
Qed.

End Unique.

Lemma same_groups_core (gs mid : list Group.t) :
  Forall2 same_group gs mid -> map core gs = map core mid.
Proof.
  induction 1 as [|g m gs mid (H1 & H2 & H3 & H4 & _) _ IH]; cbn [map];
    [reflexivity|].
  rewrite IH. unfold core. now rewrite H1, H2, H3, H4.
Qed.

Lemma sort_field_core (sort : string) (g : Group.t) :
  sort_field sort g = core_field sort (core g).
Proof. unfold sort_field, core_field, core. now destruct (String.eqb _ _). Qed.

Lemma descending_core (sort : string) (out : list Group.t) :
  descending (sort_field sort) out ->
  StronglySorted (fun a b => core_field sort b <= core_field sort a)
    (map core out).
Proof.
  unfold descending. induction 1 as [|g out Hs IH Hg]; cbn [map];
    constructor; [exact IH|].
  rewrite Forall_map. eapply Forall_impl; [|exact Hg].
  cbv beta. intros x Hx. now rewrite <- !sort_field_core.
Qed.

Lemma emitted_unique (sort : string) (groups out1 out2 : list Group.t) :
  NoDup (map (sort_field sort) groups) ->
  emitted (sort_field sort) groups out1 ->
  emitted (sort_field sort) groups out2 ->
  map core out1 = map core out2.
Proof.
  intros Hnd (mid1 & Hs1 & Hp1 & Hd1) (mid2 & Hs2 & Hp2 & Hd2).
  apply same_groups_core in Hs1, Hs2.
  apply (Permutation_map core) in Hp1, Hp2.
  rewrite <- Hs1 in Hp1. rewrite <- Hs2 in Hp2.
  apply (descending_unique _ (core_field sort)).
  - now apply descending_core.
  - now apply descending_core.
  - now rewrite <- Hp1, <- Hp2.
  - eapply Permutation_NoDup; [apply Permutation_map; exact Hp1|].
    rewrite map_map.
    erewrite map_ext; [exact Hnd|]. intros g. cbv beta.
    now rewrite sort_field_core.
Qed.

Lemma render_all_core (db : Db) (gs1 gs2 : list Group.t) :
  map core gs1 = map core gs2 ->
  result_view (render_all db gs1) = result_view (render_all db gs2).
Proof.
  revert gs2. induction gs1 as [|g1 gs1 IH]; intros [|g2 gs2]; cbn [map];
    try discriminate; [reflexivity|].
  intros H. injection H as H1 H2 H3 H4 Hrest. specialize (IH gs2 Hrest).
  cbn [render_all]. unfold render. rewrite H1.
  destruct (find_customer db (Group._id g2)) as [c|e]; cbn [bind];
    [|reflexivity].
  destruct (render_all db gs1) as [xs1|e1], (render_all db gs2) as [xs2|e2];
    cbn [bind result_view] in *; try discriminate; try exact IH.
  injection IH as IH. cbn [map]. unfold item_view at 1 3.
  cbn [Item.customer_id Item.customer Item.last_message Item.max_urgency].
  now rewrite H2, H4, IH.
Qed.

Lemma firstn_core (n : nat) (gs1 gs2 : list Group.t) :
  map core gs1 = map core gs2 ->
  map core (firstn n gs1) = map core (firstn n gs2).
Proof. intros H. now rewrite <- !firstn_map, H. Qed.

(** When no two groups share the sort key, all outcomes of a call agree on
    the customers, their order, the last messages and the scores. *)
Lemma conversations_unique (pcre : string -> result (string -> bool))
    (db : Db) (q : option string) (sort : string) (limit : Z)
    (r1 r2 : result (list Item.t)) :
  (forall groups n, grouped pcre db q limit = Ok (groups, n) ->
                    NoDup (map (sort_field sort) groups)) ->
  conversations pcre db q sort limit r1 ->
  conversations pcre db q sort limit r2 ->
  result_view r1 = result_view r2.
Proof.
  unfold conversations. intros Hnd.
  destruct (grouped pcre db q limit) as [[groups n]|e];
    [|intros -> ->; reflexivity].
  intros (out1 & He1 & ->) (out2 & He2 & ->).
  apply render_all_core, firstn_core.
  apply (emitted_unique sort groups); [now apply (Hnd groups n) | | ];
    assumption.
Qed.

Lemma NoDup_map_through {A B C : Type} (f : A -> B) (g : A -> C)
    (l : list A) :
  (forall x y, In x l -> In y l -> g x = g y -> f x = f y) ->
  NoDup (map f l) -> NoDup (map g l).
Proof.
  induction l as [|a l IH]; cbn [map]; intros Hfg Hnd; [constructor|].
  inversion Hnd as [|? ? Ha Hnd']; subst. constructor.
  - intros Hin. apply in_map_iff in Hin. destruct Hin as (x & Hx & Hxl).
    apply Ha. rewrite <- (Hfg x a); [now apply in_map | now right | now left
                                     | exact Hx].
  - apply IH; [|exact Hnd']. intros x y Hx Hy. apply Hfg; now right.
Qed.

Lemma same_id_same_message (coll : list Message) (a b : Message) :
  ids_increasing coll -> In a coll -> In b coll -> id a = id b -> a = b.
Proof.
  unfold ids_increasing. induction 1 as [|x coll Hs IH Hx];
    intros Ha Hb Hid; [destruct Ha|].
  rewrite Forall_forall in Hx.
  destruct Ha as [<-|Ha], Hb as [<-|Hb].
  - reflexivity.
  - specialize (Hx b Hb). lia.
  - specialize (Hx a Ha). lia.
  - now apply IH.
Qed.

(** Groups never share their [last_time]: it is the identifier of one of
    the group's own messages. *)
Lemma last_time_distinct (docs : list Message) :
  ids_increasing docs -> NoDup (map Group.last_time (stage_group docs)).
Proof.
  intros Hs. destruct (stage_group_inv docs) as (Hnd & _ & Hsum).
  apply (NoDup_map_through Group._id); [|exact Hnd].
  intros g1 g2 H1 H2 Heq.
  destruct (Hsum g1 H1) as (i1 & m1 & Hg1 & _ & Ht1 & _).
  destruct (Hsum g2 H2) as (i2 & m2 & Hg2 & _ & Ht2 & _).
  assert (M1 : In m1 (members docs (Group._id g1)))
    by (rewrite Hg1; apply in_or_app; right; now left).
  assert (M2 : In m2 (members docs (Group._id g2)))
    by (rewrite Hg2; apply in_or_app; right; now left).
  unfold members in M1, M2. apply filter_In in M1, M2.
  destruct M1 as [M1 C1], M2 as [M2 C2].
  apply String.eqb_eq in C1, C2.
  assert (m1 = m2) by (apply (same_id_same_message docs); congruence).
  congruence.
Qed.

(** Sorted by recency, the call has one outcome up to the order inside the
    topic lists, on a store whose identifiers grow along the scan order. *)
Lemma conversations_recency_unique
    (pcre : string -> result (string -> bool)) (db : Db)
    (q : option string) (sort : string) (limit : Z)
    (r1 r2 : result (list Item.t)) :
  sort <> "-urgency" ->
  ids_increasing (message_coll db) ->
  conversations pcre db q sort limit r1 ->
  conversations pcre db q sort limit r2 ->
  result_view r1 = result_view r2.
Proof.
  intros Hsort Hs. apply conversations_unique.
  intros groups n. unfold grouped.
  destruct (bson_int limit) as [lim|e]; cbn [bind]; [|discriminate].
  destruct (stage_match pcre q) as [keep|e]; cbn [bind]; [|discriminate].
  destruct (limit_stage lim) as [k|e]; cbn [bind]; [|discriminate].
  intros H. injection H as <- _. unfold sort_field.
  apply String.eqb_neq in Hsort. rewrite Hsort.
  now apply last_time_distinct, sorted_filter.
Qed.

(** * Further properties *)

(** ** Classifier: shape of the score *)

Lemma contribution_div10 (c : Z) : (10 | Spec.contribution c).
Proof.
  unfold Spec.contribution. destruct (0 <? c).
  - exists (c + 2). lia.
  - exists 0. lia.
Qed.

Lemma total_div10 (table : list (string * list string)) (t : string) :
  (10 | total table t).
Proof.
  induction table as [|b table IH]; cbn [total fold_right].
  - exists 0. lia.
  - apply Z.divide_add_r; [apply contribution_div10 | exact IH].
Qed.

(** X1: the urgency is always a multiple of 10. *)
Theorem score_urgency_multiple_of_10 (lower : string -> string)
    (text : string) :
  (10 | fst (score_urgency lower text)).
Proof.
  rewrite score_urgency_unfold. cbn [fst].
  assert (H : (10 | total URGENT_KEYWORDS (lower text)
                    + Spec.extra (lower text) + Spec.when_bonus (lower text))).
  { apply Z.divide_add_r; [apply Z.divide_add_r|].
    - apply total_div10.
    - unfold Spec.extra. case_if; [exists 2 | exists 0]; lia.
    - unfold Spec.when_bonus. case_if; [exists 2 | exists 0]; lia. }
  destruct (Z.min_spec
              (total URGENT_KEYWORDS (lower text) + Spec.extra (lower text)
               + Spec.when_bonus (lower text)) 100) as [[_ ->]|[_ ->]].
  - exact H.
  - exists 10. lia.
Qed.

Lemma total_zero (table : list (string * list string)) (t : string) :
  Forall (fun b => Spec.count (snd b) t = 0) table -> total table t = 0.
Proof.
  induction 1 as [|b table Hb _ IH]; cbn [total fold_right]; [reflexivity|].
  fold (total table t). rewrite IH, Hb. reflexivity.
Qed.

Lemma total_app (l1 l2 : list (string * list string)) (t : string) :
  total (l1 ++ l2) t = total l1 t + total l2 t.
Proof.
  unfold total. induction l1 as [|b l1 IH]; cbn [app fold_right]; [lia|].
  rewrite IH. lia.
Qed.

Lemma contribution_hit (c : Z) : 0 < c -> 30 <= Spec.contribution c.
Proof.
  intros H. unfold Spec.contribution.
  replace (0 <? c) with true by (symmetry; apply Z.ltb_lt; lia). lia.
Qed.

(** X2: a message without topic scores the two bonuses only, so at most
    40; a message with a topic scores at least 30, and its topic is one of
    the four labels. *)
Theorem topic_and_score (lower : string -> string) (text : string) :
  match snd (score_urgency lower text) with
  | None =>
      fst (score_urgency lower text)
      = Spec.extra (lower text) + Spec.when_bonus (lower text) /\
      fst (score_urgency lower text) <= 40
  | Some tp =>
      30 <= fst (score_urgency lower text) /\
      In tp ["loan"; "account"; "kyc"; "payment"]
  end.
Proof.
  rewrite score_urgency_unfold. cbn [fst snd].
  unfold scan_buckets. rewrite scan_topic_from.
  pose proof (extra_nonneg (lower text)) as He.
  pose proof (when_bonus_nonneg (lower text)) as Hw.
  assert (He' : Spec.extra (lower text) <= 20)
    by (unfold Spec.extra; case_if; lia).
  assert (Hw' : Spec.when_bonus (lower text) <= 20)
    by (unfold Spec.when_bonus; case_if; lia).
  destruct (Spec.first_hit URGENT_KEYWORDS (lower text)) as [tp|] eqn:F.
  - destruct (first_hit_some _ _ _ F) as (pre & kws & post & E & _ & Hk).
    split.
    + rewrite E, total_app. cbn [total fold_right snd].
      fold (total post (lower text)).
      pose proof (total_nonneg pre (lower text)).
      pose proof (total_nonneg post (lower text)).
      pose proof (contribution_hit _ Hk). lia.
    + assert (In tp (map fst URGENT_KEYWORDS)) as Hin.
      { rewrite E, map_app. apply in_or_app. right. now left. }
      exact Hin.
  - rewrite (total_zero _ _ (first_hit_none _ _ F)). split; lia.
Qed.

(** ** Classifier: more text never scores less *)

Lemma count_mono (kws : list string) (t t' : string) :
  extends t t' -> Spec.count kws t <= Spec.count kws t'.
Proof.
  intros H. unfold Spec.count.
  induction kws as [|kw kws IH]; cbn [filter]; [lia|].
  destruct (str_in kw t) eqn:E.
  - rewrite (H kw E). cbn [List.length]. lia.
  - destruct (str_in kw t'); cbn [List.length]; lia.
Qed.

Lemma contribution_mono (c c' : Z) :
  c <= c' -> Spec.contribution c <= Spec.contribution c'.
Proof.
  intros H. unfold Spec.contribution.
  destruct (0 <? c) eqn:E, (0 <? c') eqn:E';
    try apply Z.ltb_lt in E; try apply Z.ltb_ge in E;
    try apply Z.ltb_lt in E'; try apply Z.ltb_ge in E'; lia.
Qed.

Lemma total_mono (table : list (string * list string)) (t t' : string) :
  extends t t' -> total table t <= total table t'.
Proof.
  intros H. unfold total.
  induction table as [|b table IH]; cbn [fold_right]; [lia|].
  pose proof (contribution_mono _ _ (count_mono (snd b) t t' H)). lia.
Qed.

Lemma extra_mono (t t' : string) :
  extends t t' -> Spec.extra t <= Spec.extra t'.
Proof.
  intros H. unfold Spec.extra.
  destruct (str_in "urgent" t || str_in "asap" t || str_in "immediately" t
            || str_in "now" t || str_in "help" t) eqn:E.
  - replace (str_in "urgent" t' || str_in "asap" t'
             || str_in "immediately" t' || str_in "now" t'
             || str_in "help" t') with true; [lia|].
    symmetry. repeat rewrite orb_true_iff in *.
    destruct E as [[[[E|E]|E]|E]|E]; apply H in E; tauto.
  - case_if; lia.
Qed.

Lemma when_bonus_mono (t t' : string) :
  extends t t' -> Spec.when_bonus t <= Spec.when_bonus t'.
Proof.
  intros H. unfold Spec.when_bonus.
  destruct (str_in "when" t &&
            (str_in "loan" t || str_in "disbur" t || str_in "approved" t))
    eqn:E.
  - replace (str_in "when" t' &&
             (str_in "loan" t' || str_in "disbur" t' || str_in "approved" t'))
      with true; [lia|].
    symmetry. rewrite andb_true_iff in *. repeat rewrite orb_true_iff in *.
    destruct E as [E1 [[E2|E2]|E2]]; apply H in E1; apply H in E2; tauto.
  - case_if; lia.
Qed.

Lemma first_hit_all_zero (table : list (string * list string)) (t : string) :
  Forall (fun b => Spec.count (snd b) t = 0) table ->
  Spec.first_hit table t = None.
Proof.
  unfold Spec.first_hit. induction 1 as [|b table Hb _ IH]; cbn [find];
    [reflexivity|].
  rewrite Hb. cbn. exact IH.
Qed.

Lemma first_hit_mono (table : list (string * list string)) (t t' : string) :
  extends t t' ->
  Spec.first_hit table t' = None -> Spec.first_hit table t = None.
Proof.
  intros H F. apply first_hit_all_zero.
  eapply Forall_impl; [|exact (first_hit_none _ _ F)].
  cbv beta. intros b Hb.
  pose proof (count_mono (snd b) t t' H). pose proof (count_nonneg (snd b) t).
  lia.
Qed.

Lemma ascii_lower_app (a b : string) :
  ascii_lower (a ++ b) = (ascii_lower a ++ ascii_lower b)%string.
Proof.
  induction a as [|c a IH]; cbn [String.append ascii_lower]; [reflexivity|].
  now rewrite IH.
Qed.

Lemma append_assoc (a b c : string) :
  ((a ++ b) ++ c = a ++ (b ++ c))%string.
Proof.
  induction a as [|x a IH]; cbn [String.append]; [reflexivity|].
  now rewrite IH.
Qed.

Lemma extends_around (a t b : string) : extends t (a ++ t ++ b)%string.
Proof.
  intros kw H. apply str_in_spec in H. destruct H as (x & y & ->).
  apply str_in_spec. exists (a ++ x)%string, (y ++ b)%string.
  now rewrite !append_assoc.
Qed.

(** X3: text added before or after a message never lowers its urgency and
    never takes its topic away. *)
Theorem score_urgency_monotone (before text after : string) :
  fst (score_urgency ascii_lower text)
  <= fst (score_urgency ascii_lower (before ++ text ++ after)) /\
  match snd (score_urgency ascii_lower text) with
  | Some _ =>
      exists tp,
        snd (score_urgency ascii_lower (before ++ text ++ after)) = Some tp
  | None => True
  end.
Proof.
  assert (H : extends (ascii_lower text)
                (ascii_lower (before ++ text ++ after))).
  { rewrite !ascii_lower_app. apply extends_around. }
  rewrite !score_urgency_unfold. cbn [fst snd].
  unfold scan_buckets. rewrite !scan_topic_from. split.
  - pose proof (total_mono URGENT_KEYWORDS _ _ H).
    pose proof (extra_mono _ _ H). pose proof (when_bonus_mono _ _ H). lia.
  - destruct (Spec.first_hit URGENT_KEYWORDS (ascii_lower text)) eqn:F;
      [|exact I].
    destruct (Spec.first_hit URGENT_KEYWORDS
                (ascii_lower (before ++ text ++ after))) as [tp|] eqn:F'.
    + now exists tp.
    + rewrite (first_hit_mono _ _ _ H F') in F. discriminate.
Qed.

Lemma lower_upper_char (c : ascii) : lower_char (upper_char c) = lower_char c.
Proof.
  destruct c as [[] [] [] [] [] [] [] []]; reflexivity.
Qed.

Lemma ascii_lower_upper (s : string) :
  ascii_lower (ascii_upper s) = ascii_lower s.
Proof.
  induction s as [|c s IH]; cbn [ascii_upper ascii_lower]; [reflexivity|].
  now rewrite lower_upper_char, IH.
Qed.

(** X4: writing a message in capitals changes neither its urgency nor its
    topic. *)
Theorem score_urgency_ignores_case (text : string) :
  score_urgency ascii_lower (ascii_upper text)
  = score_urgency ascii_lower text.
Proof.
  rewrite (score_urgency_unfold ascii_lower (ascii_upper text)).
  rewrite (score_urgency_unfold ascii_lower text).
  rewrite ascii_lower_upper. reflexivity.
Qed.

(** ** Classifier: keywords inside keywords *)

Lemma str_in_trans (a b t : string) :
  str_in a b = true -> str_in b t = true -> str_in a t = true.
Proof.
  intros Hab Hbt. apply str_in_spec in Hab, Hbt.
  destruct Hab as (x & y & ->), Hbt as (u & v & ->).
  apply str_in_spec. exists (u ++ x)%string, (y ++ v)%string.
  now rewrite !append_assoc.
Qed.

Lemma contribution_at_least (k c : Z) :
  1 <= k <= c -> 30 + 10 * (k - 1) <= Spec.contribution c.
Proof.
  intros H. unfold Spec.contribution.
  replace (0 <? c) with true by (symmetry; apply Z.ltb_lt; lia). lia.
Qed.

Lemma score_at_least (lower : string -> string) (text : string) (k : Z)
    (tp : string) (kws : list string) :
  In (tp, kws) URGENT_KEYWORDS -> 1 <= k <= Spec.count kws (lower text) ->
  k <= 8 -> 30 + 10 * (k - 1) <= fst (score_urgency lower text).
Proof.
  intros Hin Hk H8. rewrite score_urgency_unfold. cbn [fst].
  apply in_split in Hin. destruct Hin as (pre & post & ->).
  rewrite total_app. cbn [total fold_right snd].
  fold (total post (lower text)).
  pose proof (total_nonneg pre (lower text)).
  pose proof (total_nonneg post (lower text)).
  pose proof (extra_nonneg (lower text)).
  pose proof (when_bonus_nonneg (lower text)).
  pose proof (contribution_at_least k _ Hk). lia.
Qed.

(** X5: a keyword that contains other keywords of its bucket counts once
    for each: a message with "repayment" scores at least 50, one with
    "overdue" or with "identity" at least 40. *)
Theorem nested_keywords (lower : string -> string) (text : string) :
  (if str_in "repayment" (lower text)
   then 50 <= fst (score_urgency lower text) else True) /\
  (if str_in "overdue" (lower text)
   then 40 <= fst (score_urgency lower text) else True) /\
  (if str_in "identity" (lower text)
   then 40 <= fst (score_urgency lower text) else True).
Proof.
  repeat split.
  - destruct (str_in "repayment" (lower text)) eqn:E; [|exact I].
    apply (score_at_least lower text 3 "payment" Spec.payment);
      [cbn; tauto | | lia].
    unfold Spec.count, Spec.payment. cbn [filter].
    rewrite E, (str_in_trans "payment" "repayment" _ eq_refl E),
      (str_in_trans "repay" "repayment" _ eq_refl E).
    destruct (str_in "due" (lower text)), (str_in "overdue" (lower text));
      cbn [List.length]; lia.
  - destruct (str_in "overdue" (lower text)) eqn:E; [|exact I].
    apply (score_at_least lower text 2 "payment" Spec.payment);
      [cbn; tauto | | lia].
    unfold Spec.count, Spec.payment. cbn [filter].
    rewrite E, (str_in_trans "due" "overdue" _ eq_refl E).
    destruct (str_in "payment" (lower text)), (str_in "repay" (lower text)),
      (str_in "repayment" (lower text)); cbn [List.length]; lia.
  - destruct (str_in "identity" (lower text)) eqn:E; [|exact I].
    apply (score_at_least lower text 2 "kyc" Spec.kyc);
      [cbn; tauto | | lia].
    unfold Spec.count, Spec.kyc. cbn [filter].
    rewrite E, (str_in_trans "id" "identity" _ eq_refl E).
    destruct (str_in "kyc" (lower text)), (str_in "verify" (lower text)),
      (str_in "verification" (lower text)); cbn [List.length]; lia.
Qed.

(** ** Registry: [connect] and [disconnect] *)

Lemma count_occ_list_remove (ws x : WebSocket) (l : list WebSocket) :
  count_occ Nat.eq_dec (list_remove ws l) x
  = if Nat.eqb x ws then Nat.pred (count_occ Nat.eq_dec l ws)
    else count_occ Nat.eq_dec l x.
Proof.
  induction l as [|y l IH]; cbn [list_remove count_occ].
  - now destruct (Nat.eqb x ws).
  - destruct (Nat.eqb y ws) eqn:E.
    + apply Nat.eqb_eq in E. subst y.
      destruct (Nat.eq_dec ws ws) as [_|C]; [|now elim C].
      destruct (Nat.eqb x ws) eqn:F.
      * apply Nat.eqb_eq in F. subst x. reflexivity.
      * apply Nat.eqb_neq in F.
        destruct (Nat.eq_dec ws x) as [C|_]; [now elim F|reflexivity].
    + apply Nat.eqb_neq in E. cbn [count_occ]. rewrite IH.
      destruct (Nat.eqb x ws) eqn:F.
      * apply Nat.eqb_eq in F. subst x.
        destruct (Nat.eq_dec y ws) as [C|_]; [now elim E|].
        destruct (Nat.eq_dec y ws) as [C|_]; [now elim E|reflexivity].
      * reflexivity.
Qed.

Lemma list_remove_absent (ws : WebSocket) (l : list WebSocket) :
  existsb (Nat.eqb ws) l = false -> list_remove ws l = l.
Proof.
  induction l as [|y l IH]; cbn [existsb list_remove]; [reflexivity|].
  intros H. apply orb_false_iff in H. destruct H as [H1 H2].
  rewrite Nat.eqb_sym, H1. now rewrite IH.
Qed.

Lemma disconnect_active (self : ConnectionManager) (ws : WebSocket) :
  active (disconnect self ws) = list_remove ws (active self).
Proof.
  unfold disconnect.
  destruct (existsb (Nat.eqb ws) (active self)) eqn:E; cbn [active].
  - reflexivity.
  - now rewrite list_remove_absent.
Qed.

Lemma list_remove_others (ws : WebSocket) (l : list WebSocket) :
  filter (fun x => negb (Nat.eqb x ws)) (list_remove ws l)
  = filter (fun x => negb (Nat.eqb x ws)) l.
Proof.
  induction l as [|y l IH]; cbn [list_remove filter]; [reflexivity|].
  destruct (Nat.eqb y ws) eqn:E; cbn [negb filter]; [reflexivity|].
  rewrite E. cbn [negb]. now rewrite IH.
Qed.

(** X6: [disconnect] takes away one registration of the websocket, none
    when there is none, and leaves every other observer registered, in the
    same order. *)
Theorem disconnect_one_registration (self : ConnectionManager)
    (ws x : WebSocket) :
  count_occ Nat.eq_dec (active (disconnect self ws)) x
  = (if Nat.eqb x ws then Nat.pred (count_occ Nat.eq_dec (active self) ws)
     else count_occ Nat.eq_dec (active self) x) /\
  filter (fun y => negb (Nat.eqb y ws)) (active (disconnect self ws))
  = filter (fun y => negb (Nat.eqb y ws)) (active self).
Proof.
  rewrite disconnect_active. split.
  - apply count_occ_list_remove.
  - apply list_remove_others.
Qed.

Lemma manager_eq (a b : ConnectionManager) : active a = active b -> a = b.
Proof. destruct a, b. cbn. now intros ->. Qed.

Lemma list_remove_snoc_fresh (ws : WebSocket) (l : list WebSocket) :
  ~ In ws l -> list_remove ws (l ++ [ws]) = l.
Proof.
  induction l as [|y l IH]; cbn [app list_remove]; intros H.
  - now rewrite Nat.eqb_refl.
  - destruct (Nat.eqb y ws) eqn:E.
    + apply Nat.eqb_eq in E. elim H. now left.
    + rewrite IH; [reflexivity|]. intros C. apply H. now right.
Qed.

(** X7: in a registry without repeats a second [disconnect] of the same
    websocket changes nothing, the websocket is gone after the first, and
    [disconnect] undoes the [connect] of a new websocket. *)
Theorem disconnect_idempotent (self : ConnectionManager) (ws : WebSocket) :
  NoDup (active self) ->
  disconnect (disconnect self ws) ws = disconnect self ws /\
  ~ In ws (active (disconnect self ws)) /\
  (~ In ws (active self) -> disconnect (connect self ws) ws = self).
Proof.
  intros Hnd.
  assert (Hout : ~ In ws (active (disconnect self ws))).
  { rewrite disconnect_filter by assumption. intros C.
    apply filter_In in C. destruct C as [_ C].
    now rewrite Nat.eqb_refl in C. }
  repeat split.
  - apply manager_eq. rewrite (disconnect_active (disconnect self ws)).
    apply list_remove_absent.
    destruct (existsb _ _) eqn:E; [|reflexivity].
    apply existsb_exists in E. destruct E as (y & Hy & Hwy).
    apply Nat.eqb_eq in Hwy. subst y. now elim Hout.
  - exact Hout.
  - intros Hfresh. apply manager_eq. rewrite disconnect_active.
    cbn [connect active]. now apply list_remove_snoc_fresh.
Qed.

Lemma disconnect_idempotent_witness :
  disconnect (disconnect three_observers 2%nat) 2%nat
  = disconnect three_observers 2%nat /\
  ~ In 2%nat (active (disconnect three_observers 2%nat)) /\
  disconnect (connect three_observers 7%nat) 7%nat = three_observers.
Proof.
  assert (Hnd : NoDup (active three_observers)).
  { cbn. repeat constructor; cbn; intuition discriminate. }
  destruct (disconnect_idempotent three_observers 2%nat Hnd) as (H1 & H2 & _).
  destruct (disconnect_idempotent three_observers 7%nat Hnd) as (_ & _ & H3).
  split; [exact H1|]. split; [exact H2|].
  apply H3. cbn. intuition discriminate.
Defined.

(** ** Registry: [broadcast] on any registry *)



(** X8: in a registry without repeats, where each websocket is sent to
    once, a broadcast leaves in the registry exactly the observers whose
    send returned, in their registration order, and the envelopes delivered
    are one per observer left, in that order. *)
Theorem broadcast_registry (send_json : WebSocket -> Envelope -> bool)
    (self : ConnectionManager) (message : option Message) :
  NoDup (active self) ->
  active (fst (broadcast send_json self message))
  = filter (fun ws => send_json ws (mkEnvelope "message_created" message))
      (active self) /\
  snd (broadcast send_json self message)
  = map (fun ws => (ws, mkEnvelope "message_created" message))
      (active (fst (broadcast send_json self message))).
Proof.
  intros Hnd.
  assert (H : active (fst (broadcast send_json self message))
              = filter (fun ws => send_json ws
                                    (mkEnvelope "message_created" message))
                  (active self))
    by now apply broadcast_active.
  split; [exact H|]. rewrite H. apply broadcast_sent.
Qed.

Lemma broadcast_registry_witness :
  active (fst (broadcast second_fails three_observers None)) = [1; 3]%nat /\
  snd (broadcast second_fails three_observers None)
  = map (fun ws => (ws, mkEnvelope "message_created" None)) [1; 3]%nat.
Proof.
  assert (Hnd : NoDup (active three_observers)).
  { cbn. repeat constructor; cbn; intuition discriminate. }
  destruct (broadcast_registry second_fails three_observers None Hnd)
    as [H1 H2].
  split; [exact H1|]. rewrite H2, H1. reflexivity.
Defined.

(** X9: a registry without repeats stays without repeats under [connect]
    of a websocket not yet registered, under [disconnect] and under
    [broadcast]. *)
Theorem registry_stays_without_repeats
    (send_json : WebSocket -> Envelope -> bool) (self : ConnectionManager)
    (ws : WebSocket) (message : option Message) :
  NoDup (active self) ->
  NoDup (active (disconnect self ws)) /\
  NoDup (active (fst (broadcast send_json self message))) /\
  (~ In ws (active self) -> NoDup (active (connect self ws))).
Proof.
  intros Hnd. repeat split.
  - rewrite disconnect_filter by assumption. now apply NoDup_filter.
  - rewrite broadcast_active by assumption. now apply NoDup_filter.
  - intros Hfresh. cbn [connect active]. apply NoDup_app; repeat split.
    + exact Hnd.
    + repeat constructor. intros [].
    + intros x Hx [<-|[]]. now apply Hfresh.
Qed.

Lemma registry_stays_without_repeats_witness :
  NoDup (active (disconnect three_observers 1%nat)) /\
  NoDup (active (fst (broadcast second_fails three_observers None))) /\
  NoDup (active (connect three_observers 9%nat)).
Proof.
  assert (Hnd : NoDup (active three_observers)).
  { cbn. repeat constructor; cbn; intuition discriminate. }
  destruct (registry_stays_without_repeats second_fails three_observers
              1%nat None Hnd) as (H1 & H2 & _).
  destruct (registry_stays_without_repeats second_fails three_observers
              9%nat None Hnd) as (_ & _ & H3).
  split; [exact H1|]. split; [exact H2|].
  apply H3. cbn. intuition discriminate.
Defined.

(** ** Message creation: what the store accumulates *)


Lemma stored_well_scored (lower : string -> string) (mid : Z)
    (payload : CreateMessage.t) :
  let inbound := String.eqb (CreateMessage.direction payload) "inbound" in
  well_scored
    (mkMessage mid (CreateMessage.customer_id payload)
       (CreateMessage.text payload) (CreateMessage.channel payload)
       (CreateMessage.direction payload)
       (if inbound then "open" else "sent")
       (if inbound
        then fst (score_urgency lower (CreateMessage.text payload)) else 0)
       (if inbound
        then snd (score_urgency lower (CreateMessage.text payload))
        else None)).
Proof.
  intros inbound. unfold well_scored.
  cbn [urgency_score direction status topic].
  pose proof (score_urgency_unfold lower (CreateMessage.text payload)) as U.
  pose proof (total_nonneg URGENT_KEYWORDS
                (lower (CreateMessage.text payload))) as T.
  pose proof (extra_nonneg (lower (CreateMessage.text payload))) as E.
  pose proof (when_bonus_nonneg (lower (CreateMessage.text payload))) as W.
  subst inbound.
  destruct (String.eqb (CreateMessage.direction payload) "inbound") eqn:D.
  - apply String.eqb_eq in D. rewrite U. cbn [fst snd].
    split; [lia|]. split; [reflexivity|]. split; [congruence|].
    unfold scan_buckets. rewrite scan_topic_from.
    destruct (Spec.first_hit URGENT_KEYWORDS
                (lower (CreateMessage.text payload))) as [tp|] eqn:F;
      [|exact I].
    destruct (first_hit_some _ _ _ F) as (pre & kws & post & Eq & _ & Hk).
    split.
    + assert (In tp (map fst URGENT_KEYWORDS)) as Hin
        by (rewrite Eq, map_app; apply in_or_app; right; now left).
      exact Hin.
    + rewrite Eq, total_app. cbn [total fold_right snd].
      fold (total post (lower (CreateMessage.text payload))).
      pose proof (total_nonneg pre (lower (CreateMessage.text payload))).
      pose proof (total_nonneg post (lower (CreateMessage.text payload))).
      pose proof (contribution_hit _ Hk). lia.
  - apply String.eqb_neq in D.
    split; [lia|]. split; [congruence|]. split; [now repeat split | exact I].
Qed.

Lemma create_message_step (lower : string -> string)
    (send_json : WebSocket -> Envelope -> bool) (app : App)
    (payload : CreateMessage.t) :
  exists m,
    message_coll (db (app_after (create_message lower send_json app payload)))
    = (message_coll (db app) ++ [m])%list /\
    customer_coll (db (app_after (create_message lower send_json app payload)))
    = customer_coll (db app) /\
    id m = fresh_id (message_coll (db app)) /\
    customer_id m = CreateMessage.customer_id payload /\
    text m = CreateMessage.text payload /\
    well_scored m.
Proof.
  rewrite create_message_unfold. cbn [app_after db message_coll customer_coll].
  eexists. split; [reflexivity|]. split; [reflexivity|].
  cbn [id customer_id text]. repeat (split; [reflexivity|]).
  apply stored_well_scored.
Qed.

(** X11: a run of [create_message] calls stores one message per call after
    the messages already there, touches no customer, and keeps the store
    well formed: identifiers increasing, scores between 0 and 100, status
    ["open"] exactly for inbound messages, no score and no topic on the
    others, and a topic only with a score of 30 or more. *)
Theorem posts_keep_store (lower : string -> string)
    (send_json : WebSocket -> Envelope -> bool) (app : App)
    (payloads : list CreateMessage.t) :
  ids_increasing (message_coll (db app)) ->
  Forall well_scored (message_coll (db app)) ->
  exists added,
    message_coll (db (posts lower send_json app payloads))
    = (message_coll (db app) ++ added)%list /\
    map (fun m => (customer_id m, text m, channel m, direction m)) added
    = map (fun p => (CreateMessage.customer_id p, CreateMessage.text p,
                     CreateMessage.channel p, CreateMessage.direction p))
        payloads /\
    customer_coll (db (posts lower send_json app payloads))
    = customer_coll (db app) /\
    ids_increasing (message_coll (db (posts lower send_json app payloads))) /\
    Forall well_scored
      (message_coll (db (posts lower send_json app payloads))).
Proof.
  unfold posts. revert app.
  induction payloads as [|p payloads IH]; intros app Hs Hw; cbn [fold_left].
  - exists []. rewrite app_nil_r. now repeat split.
  - pose proof (create_message_unfold lower send_json app p) as U.
    set (app1 := app_after (create_message lower send_json app p)) in *.
    assert (E1 : exists m,
               message_coll (db app1) = (message_coll (db app) ++ [m])%list /\
               customer_coll (db app1) = customer_coll (db app) /\
               id m = fresh_id (message_coll (db app)) /\
               (customer_id m, text m, channel m, direction m)
               = (CreateMessage.customer_id p, CreateMessage.text p,
                  CreateMessage.channel p, CreateMessage.direction p) /\
               well_scored m).
    { unfold app1. rewrite U.
      cbn [app_after db message_coll customer_coll].
      eexists. split; [reflexivity|]. split; [reflexivity|].
      cbn [id customer_id text channel direction].
      split; [reflexivity|]. split; [reflexivity|].
      apply stored_well_scored. }
    destruct E1 as (m & Hm & Hc & Hid & Hf & Hwm).
    assert (Hs1 : ids_increasing (message_coll (db app1))).
    { rewrite Hm. apply sorted_snoc; [exact Hs|]. rewrite Hid.
      apply fresh_id_above. }
    assert (Hw1 : Forall well_scored (message_coll (db app1))).
    { rewrite Hm. apply Forall_app. split; [exact Hw | now constructor]. }
    destruct (IH app1 Hs1 Hw1) as (added & Ha & Hmap & Hcust & Hs2 & Hw2).
    exists (m :: added). repeat split.
    + rewrite Ha, Hm, <- app_assoc. reflexivity.
    + cbn [map]. now rewrite Hf, Hmap.
    + now rewrite Hcust.
    + exact Hs2.
    + exact Hw2.
Qed.

Lemma posts_keep_store_witness :
  exists added,
    message_coll (db sample_app) = ([] ++ added)%list /\
    map (fun m => (customer_id m, text m, channel m, direction m)) added
    = [ (cust_a, "loan please", "web", "inbound");
        (cust_b, "kyc pending", "sms", "inbound");
        (cust_a, "We will call you back", "web", "outbound") ] /\
    customer_coll (db sample_app) = [alice] /\
    ids_increasing (message_coll (db sample_app)) /\
    Forall well_scored (message_coll (db sample_app)).
Proof.
  apply (posts_keep_store ascii_lower all_delivered start_app
           [ CreateMessage.mk cust_a "loan please" "web" "inbound";
             CreateMessage.mk cust_b "kyc pending" "sms" "inbound";
             CreateMessage.mk cust_a "We will call you back" "web"
               "outbound" ]).
  - cbn. constructor.
  - cbn. constructor.
Defined.


(** ** Message creation, then conversations *)

Lemma same_groups_in_l (gs mid : list Group.t) (g : Group.t) :
  Forall2 same_group gs mid -> In g gs ->
  exists g', In g' mid /\ same_group g g'.
Proof.
  induction 1 as [|g0 m gs mid Hgm Hrest IH]; intros Hin; [destruct Hin|].
  destruct Hin as [<-|Hin].
  - exists m. split; [now left | exact Hgm].
  - destruct (IH Hin) as (g' & H0 & H1). exists g'. split; [now right | exact H1].
Qed.

Lemma emitted_covers (key : Group.t -> Z) (groups out : list Group.t)
    (g : Group.t) :
  emitted key groups out -> In g groups ->
  exists g', In g' out /\ same_group g g'.
Proof.
  intros (mid & Hsame & Hperm & _) Hin.
  destruct (same_groups_in_l groups mid g Hsame Hin) as (g' & Hg' & Hs).
  exists g'. split; [|exact Hs]. eapply Permutation_in; eassumption.
Qed.

(** The group of the newest message is the head of every arrangement by
    recency. *)
Lemma newest_group_first (coll : list Message) (x : Message)
    (out : list Group.t) :
  Forall (fun m => id m < id x) coll ->
  emitted Group.last_time (stage_group (coll ++ [x])) out ->
  exists h tl,
    out = h :: tl /\ Group._id h = customer_id x /\
    Group.last_message h = text x.
Proof.
  intros Hbelow Hem.
  destruct (stage_group_inv (coll ++ [x])) as (_ & Hcov & Hsum).
  assert (Hx : In (customer_id x) (map Group._id (stage_group (coll ++ [x]))))
    by (apply Hcov, in_or_app; right; now left).
  apply in_map_iff in Hx. destruct Hx as (gx & Hgx_id & Hgx).
  assert (Hkey : forall g, In g (stage_group (coll ++ [x])) ->
                 Group.last_time g <= id x /\
                 (Group.last_time g = id x ->
                  Group._id g = customer_id x /\
                  Group.last_message g = text x)).
  { intros g Hg. destruct (Hsum g Hg) as (init & m & Hgrp & Htext & Htime & _).
    assert (Hm : In m (members (coll ++ [x]) (Group._id g)))
      by (rewrite Hgrp; apply in_or_app; right; now left).
    unfold members in Hm. apply filter_In in Hm. destruct Hm as [Hm Hc].
    apply String.eqb_eq in Hc. rewrite Htime, Htext.
    apply in_app_or in Hm. rewrite Forall_forall in Hbelow.
    destruct Hm as [Hm|[<-|[]]].
    - specialize (Hbelow m Hm). split; lia.
    - split; [lia|]. intros _. now split. }
  assert (Hgx_time : Group.last_time gx = id x).
  { destruct (Hsum gx Hgx) as (init & m & Hgrp & _ & Htime & _).
    rewrite Hgx_id, members_snoc, String.eqb_refl in Hgrp.
    apply app_inj_tail in Hgrp. destruct Hgrp as [_ <-]. exact Htime. }
  destruct (emitted_covers _ _ _ gx Hem Hgx) as (gx' & Hgx' & Sx).
  destruct out as [|h tl]; [destruct Hgx'|].
  exists h, tl. split; [reflexivity|].
  destruct (emitted_in _ _ _ h Hem (or_introl eq_refl))
    as (g & Hg & S1 & S2 & S3 & _).
  destruct (Hkey g Hg) as [Hle Heq].
  assert (Hge : id x <= Group.last_time h).
  { destruct Sx as (_ & _ & T & _). rewrite <- Hgx_time, T.
    destruct Hgx' as [<-|Hin]; [lia|].
    destruct Hem as (_ & _ & _ & Hd). unfold descending in Hd.
    inversion Hd as [|? ? _ Hall]; subst.
    rewrite Forall_forall in Hall. now apply Hall. }
  destruct Heq as [E1 E2]; [lia|]. split; congruence.
Qed.

Lemma render_head (db : Db) (h : Group.t) (tl : list Group.t) :
  match render_all db (h :: tl) with
  | Ok items =>
      exists it rest,
        items = it :: rest /\ Item.customer_id it = Group._id h /\
        Item.last_message it = Group.last_message h /\
        find_customer db (Group._id h) = Ok (Item.customer it)
  | Raise e => True
  end.
Proof.
  cbn [render_all]. unfold render.
  destruct (find_customer db (Group._id h)) as [c|e]; cbn [bind]; [|exact I].
  destruct (render_all db tl) as [xs|e]; cbn [bind]; [|exact I].
  eexists _, xs. now repeat split.
Qed.

Lemma grouped_unfiltered (pcre : string -> result (string -> bool))
    (db : Db) (limit : Z) :
  1 <= limit <= 2 ^ 63 - 1 ->
  exists n,
    grouped pcre db None limit = Ok (stage_group (message_coll db), S n).
Proof.
  intros H. unfold grouped, bson_int, limit_stage.
  replace (limit <? - 2 ^ 63) with false by (symmetry; apply Z.ltb_ge; lia).
  replace (2 ^ 63 - 1 <? limit) with false by (symmetry; apply Z.ltb_ge; lia).
  cbn [orb bind stage_match].
  replace (limit <=? 0) with false by (symmetry; apply Z.leb_gt; lia).
  rewrite filter_true. exists (Nat.pred (Z.to_nat limit)).
  replace (S (Nat.pred (Z.to_nat limit))) with (Z.to_nat limit) by lia.
  reflexivity.
Qed.

(** X13: after [create_message], every listing of the conversations by
    recency that succeeds starts with the customer of the new message, with
    the new text as last message. *)
Theorem new_message_heads_conversations
    (pcre : string -> result (string -> bool)) (lower : string -> string)
    (send_json : WebSocket -> Envelope -> bool) (app : App)
    (payload : CreateMessage.t) (sort : string) (limit : Z)
    (items : list Item.t) :
  sort <> "-urgency" ->
  1 <= limit <= 2 ^ 63 - 1 ->
  conversations pcre
    (db (app_after (create_message lower send_json app payload)))
    None sort limit (Ok items) ->
  exists it rest,
    items = it :: rest /\
    Item.customer_id it = CreateMessage.customer_id payload /\
    Item.last_message it = CreateMessage.text payload.
Proof.
  intros Hsort Hlimit.
  destruct (create_message_step lower send_json app payload)
    as (m & Hcoll & _ & Hid & Hcid & Htext & _).
  unfold conversations.
  destruct (grouped_unfiltered pcre
              (db (app_after (create_message lower send_json app payload)))
              limit Hlimit) as (n & ->).
  rewrite Hcoll. intros (out & Hem & Hr).
  unfold sort_field in Hem. apply String.eqb_neq in Hsort.
  rewrite Hsort in Hem.
  destruct (newest_group_first (message_coll (db app)) m out)
    as (h & tl & -> & Hh1 & Hh2); [|exact Hem|].
  { rewrite Hid. apply fresh_id_above. }
  cbn [firstn] in Hr.
  pose proof (render_head
                (db (app_after (create_message lower send_json app payload)))
                h (firstn n tl)) as R.
  rewrite <- Hr in R. destruct R as (it & rest & -> & R1 & R2 & _).
  exists it, rest. split; [reflexivity|]. split; congruence.
Qed.

Lemma new_message_heads_conversations_witness :
  exists it rest,
    [item_a; item_b] = it :: rest /\
    Item.customer_id it = cust_a /\
    Item.last_message it = "We will call you back".
Proof.
  apply (new_message_heads_conversations reject_all ascii_lower all_delivered
           (posts ascii_lower all_delivered start_app
              [ CreateMessage.mk cust_a "loan please" "web" "inbound";
                CreateMessage.mk cust_b "kyc pending" "sms" "inbound" ])
           (CreateMessage.mk cust_a "We will call you back" "web" "outbound")
           "recent" 10 [item_a; item_b]).
  - discriminate.
  - lia.
  - unfold conversations.
    replace (grouped _ _ _ _) with (Ok ([group_a; group_b], 10%nat))
      by (vm_compute; reflexivity).
    exists [group_a; group_b]. split; [|vm_compute; reflexivity].
    exists [group_a; group_b]. split; [apply same_groups_refl|].
    split; [reflexivity|]. repeat constructor; cbn; lia.
Defined.

(** X14: [create_message] takes any string as customer identifier, and
    [conversations] hands it to [ObjectId] unguarded: after a message whose
    customer identifier is not empty and not twenty-four characters long,
    every listing by recency raises [InvalidId]. *)
Theorem malformed_customer_breaks_conversations
    (pcre : string -> result (string -> bool)) (lower : string -> string)
    (send_json : WebSocket -> Envelope -> bool) (app : App)
    (payload : CreateMessage.t) (sort : string) (limit : Z)
    (r : result (list Item.t)) :
  CreateMessage.customer_id payload <> "" ->
  String.length (CreateMessage.customer_id payload) <> 24%nat ->
  sort <> "-urgency" ->
  1 <= limit <= 2 ^ 63 - 1 ->
  conversations pcre
    (db (app_after (create_message lower send_json app payload)))
    None sort limit r ->
  r = Raise InvalidId.
Proof.
  intros Hne Hlen Hsort Hlimit.
  assert (Hbad : ObjectId (CreateMessage.customer_id payload)
                 = Raise InvalidId).
  { unfold ObjectId. apply Nat.eqb_neq in Hlen. now rewrite Hlen. }
  destruct (create_message_step lower send_json app payload)
    as (m & Hcoll & _ & Hid & Hcid & Htext & _).
  unfold conversations.
  destruct (grouped_unfiltered pcre
              (db (app_after (create_message lower send_json app payload)))
              limit Hlimit) as (n & ->).
  rewrite Hcoll. intros (out & Hem & ->).
  unfold sort_field in Hem. apply String.eqb_neq in Hsort.
  rewrite Hsort in Hem.
  destruct (newest_group_first (message_coll (db app)) m out)
    as (h & tl & -> & Hh1 & _); [|exact Hem|].
  { rewrite Hid. apply fresh_id_above. }
  cbn [firstn render_all]. unfold render, find_customer.
  rewrite Hh1, Hcid.
  destruct (CreateMessage.customer_id payload) as [|c s] eqn:E;
    [now elim Hne|].
  rewrite Hbad. reflexivity.
Qed.

Lemma malformed_customer_breaks_conversations_witness :
  conversations_with reject_all sort_desc
    (db (app_after (create_message ascii_lower all_delivered sample_app
                      inbound_question)))
    None "recent" 5
  = Raise InvalidId.
Proof.
  apply (malformed_customer_breaks_conversations reject_all ascii_lower
           all_delivered sample_app inbound_question "recent" 5).
  - discriminate.
  - cbn. discriminate.
  - discriminate.
  - lia.
  - apply conversations_total.
Defined.

(** ** Conversations: which customers are listed *)

(** X22: a listing names each customer once and holds at most [limit]
    items; each item is a customer with a message that passed the filter;
    and when the listing is shorter than [limit], no such customer is
    missing. *)
Theorem conversations_lists_customers
    (pcre : string -> result (string -> bool)) (db : Db)
    (q : option string) (sort : string) (limit : Z) (items : list Item.t) :
  conversations pcre db q sort limit (Ok items) ->
  NoDup (map Item.customer_id items) /\
  Z.of_nat (List.length items) <= limit /\
  exists keep,
    stage_match pcre q = Ok keep /\
    (forall it, In it items ->
       exists m, In m (message_coll db) /\ keep m = true /\
                 customer_id m = Item.customer_id it) /\
    (Z.of_nat (List.length items) < limit ->
     forall m, In m (message_coll db) -> keep m = true ->
               In (customer_id m) (map Item.customer_id items)).
Proof.
  unfold conversations, grouped, bson_int, limit_stage.
  destruct ((limit <? - 2 ^ 63) || (2 ^ 63 - 1 <? limit)); cbn [bind];
    [discriminate|].
  destruct (stage_match pcre q) as [keep|e]; cbn [bind]; [|discriminate].
  destruct (limit <=? 0) eqn:L; cbn [bind]; [discriminate|].
  apply Z.leb_gt in L. intros (out & Hem & Hr). symmetry in Hr.
  destruct (render_all_fields db _ items Hr) as [Hids _].
  pose proof (emitted_ids _ _ _ Hem) as Hperm.
  destruct (stage_group_inv (filter keep (message_coll db)))
    as (Hnd & Hcov & Hsum).
  assert (Hlen : List.length items
                 = List.length (firstn (Z.to_nat limit) out)).
  { rewrite <- (length_map Item.customer_id), Hids. apply length_map. }
  split; [|split].
  - rewrite Hids, <- firstn_map. apply NoDup_firstn.
    eapply Permutation_NoDup; eassumption.
  - rewrite Hlen, length_firstn. lia.
  - exists keep. split; [reflexivity|]. split.
    + intros it Hit.
      assert (In (Item.customer_id it) (map Group._id out)) as Hin.
      { apply (in_map Item.customer_id) in Hit. rewrite Hids in Hit.
        rewrite <- firstn_map in Hit. now apply firstn_in in Hit. }
      apply (Permutation_in _ (Permutation_sym Hperm)) in Hin.
      apply in_map_iff in Hin. destruct Hin as (g & Hg & Hgin).
      destruct (Hsum g Hgin) as (init & m & Hgrp & _).
      assert (Hm : In m (members (filter keep (message_coll db))
                           (Group._id g)))
        by (rewrite Hgrp; apply in_or_app; right; now left).
      unfold members in Hm. apply filter_In in Hm. destruct Hm as [Hm Hc].
      apply filter_In in Hm. destruct Hm as [Hm Hk].
      apply String.eqb_eq in Hc. exists m. repeat split; congruence.
    + intros Hshort m Hm Hk. rewrite Hlen, length_firstn in Hshort.
      assert (Hall : firstn (Z.to_nat limit) out = out)
        by (apply firstn_all2; lia).
      rewrite Hids, Hall. eapply Permutation_in; [exact Hperm|].
      apply Hcov. apply filter_In. now split.
Qed.

Lemma conversations_lists_customers_witness :
  NoDup (map Item.customer_id [item_a; item_b]) /\
  Z.of_nat (List.length [item_a; item_b]) <= 100 /\
  exists keep,
    stage_match reject_all None = Ok keep /\
    (forall it, In it [item_a; item_b] ->
       exists m, In m (message_coll sample_db) /\ keep m = true /\
                 customer_id m = Item.customer_id it) /\
    (Z.of_nat (List.length [item_a; item_b]) < 100 ->
     forall m, In m (message_coll sample_db) -> keep m = true ->
               In (customer_id m) (map Item.customer_id [item_a; item_b])).
Proof.
  apply (conversations_lists_customers reject_all sample_db None "-urgency"
           100 [item_a; item_b]).
  unfold conversations. rewrite sample_grouped by lia.
  exists [group_a; group_b]. split; [|vm_compute; reflexivity].
  exists [group_a; group_b]. split; [apply same_groups_refl|].
  split; [reflexivity|]. repeat constructor; cbn; lia.
Defined.

Lemma sorted_firstn {A : Type} (R : A -> A -> Prop) (n : nat) (l : list A) :
  StronglySorted R l -> StronglySorted R (firstn n l).
Proof.
  revert n. induction l as [|x l IH]; intros [|n] H; cbn [firstn];
    try constructor.
  - apply IH. now inversion H.
  - inversion H as [|? ? _ Hx]; subst. rewrite Forall_forall in *.
    intros y Hy. apply Hx. now apply firstn_in in Hy.
Qed.

Lemma sorted_map_key (key : Group.t -> Z) (l : list Group.t) :
  descending key l -> StronglySorted (fun a b => b <= a) (map key l).
Proof.
  unfold descending. induction 1 as [|g l _ IH Hg]; cbn [map]; constructor;
    [exact IH|].
  now rewrite Forall_map.
Qed.

(** X24: sorted by urgency, a listing runs from the highest [max_urgency]
    to the lowest. *)
Theorem conversations_sorted_by_urgency
    (pcre : string -> result (string -> bool)) (db : Db)
    (q : option string) (limit : Z) (items : list Item.t) :
  conversations pcre db q "-urgency" limit (Ok items) ->
  StronglySorted (fun a b => b <= a) (map Item.max_urgency items).
Proof.
  unfold conversations.
  destruct (grouped pcre db q limit) as [[groups n]|e]; [|discriminate].
  intros (out & (mid & _ & _ & Hd) & Hr). symmetry in Hr.
  destruct (render_all_fields db _ items Hr) as [_ ->].
  change (sort_field "-urgency") with Group.max_urgency in Hd.
  apply sorted_map_key. now apply sorted_firstn.
Qed.

Lemma conversations_sorted_by_urgency_witness :
  StronglySorted (fun a b => b <= a)
    (map Item.max_urgency [item_b; item_a]).
Proof.
  apply (conversations_sorted_by_urgency reject_all sample_db None 100).
  unfold conversations. rewrite sample_grouped by lia.
  exists [group_b; group_a]. split; [|vm_compute; reflexivity].
  exists [group_a; group_b]. split; [apply same_groups_refl|].
  split; [apply perm_swap|]. repeat constructor; cbn; lia.
Defined.

(** X25: sorted by recency, on a store whose identifiers grow along the
    scan order, all outcomes of a call agree on the customers, their order,
    the last messages and the scores: the store's freedom is confined to the
    order inside the topic lists. *)
Theorem recency_listing_unique
    (pcre : string -> result (string -> bool)) (db : Db)
    (q : option string) (sort : string) (limit : Z)
    (r1 r2 : result (list Item.t)) :
  sort <> "-urgency" ->
  ids_increasing (message_coll db) ->
  conversations pcre db q sort limit r1 ->
  conversations pcre db q sort limit r2 ->
  result_view r1 = result_view r2.
Proof.
  intros Hsort Hs. apply conversations_unique.
  intros groups n. unfold grouped.
  destruct (bson_int limit) as [lim|e]; cbn [bind]; [|discriminate].
  destruct (stage_match pcre q) as [keep|e]; cbn [bind]; [|discriminate].
  destruct (limit_stage lim) as [k|e]; cbn [bind]; [|discriminate].
  intros H. injection H as <- _. unfold sort_field.
  apply String.eqb_neq in Hsort. rewrite Hsort.
  now apply last_time_distinct, sorted_filter.
Qed.

Lemma recency_listing_unique_witness :
  result_view
    (conversations_with reject_all sort_desc sample_db None "recent" 100)
  = result_view (Ok [item_a; item_b]).
Proof.
  apply (recency_listing_unique reject_all sample_db None "recent" 100).
  - discriminate.
  - apply sample_store_ok.
  - apply conversations_total.
  - unfold conversations. rewrite sample_grouped by lia.
    exists [group_a; group_b]. split; [|vm_compute; reflexivity].
    exists [group_a; group_b]. split; [apply same_groups_refl|].
    split; [reflexivity|]. repeat constructor; cbn; lia.
Defined.

(** ** Conversations: the topics of an item *)

Lemma opt_string_eqb_eq (a b : option string) :
  opt_string_eqb a b = true <-> a = b.
Proof.
  destruct a as [x|], b as [y|]; cbn; try (split; congruence).
  rewrite String.eqb_eq. split; congruence.
Qed.

Lemma existsb_opt_in (t : option string) (ts : list (option string)) :
  existsb (opt_string_eqb t) ts = true <-> In t ts.
Proof.
  rewrite existsb_exists. split.
  - intros (x & Hx & E). apply opt_string_eqb_eq in E. now subst.
  - intros H. exists t. split; [exact H | now apply opt_string_eqb_eq].
Qed.

(** The [$addToSet] accumulator holds each topic of the group once. *)
Lemma stage_group_topics (docs : list Message) (g : Group.t) :
  In g (stage_group docs) ->
  NoDup (Group.topics g) /\
  forall t, In t (Group.topics g) <->
            exists m, In m (members docs (Group._id g)) /\ topic m = t.
Proof.
  revert g. induction docs as [|m docs IH] using rev_ind; intros g Hg.
  - destruct Hg.
  - rewrite stage_group_snoc in Hg.
    destruct (stage_group_inv docs) as (Hnd & Hcov & _).
    rewrite members_snoc.
    destruct (group_add_cases m _ g Hnd Hg)
      as [[Hin Hne]|[(g0 & Hin & Hk & ->)|[-> Hn]]].
    + replace (String.eqb (customer_id m) (Group._id g)) with false
        by (symmetry; apply String.eqb_neq; congruence).
      rewrite app_nil_r. now apply IH.
    + destruct (IH g0 Hin) as [Hnd0 Hiff]. unfold group_update.
      cbn [Group._id Group.topics]. rewrite Hk, String.eqb_refl.
      rewrite Hk in Hiff.
      destruct (existsb (opt_string_eqb (topic m)) (Group.topics g0)) eqn:E.
      * apply existsb_opt_in in E. split; [exact Hnd0|]. intros t.
        rewrite Hiff. split.
        -- intros (x & Hx & Ht). exists x. split; [|exact Ht].
           apply in_or_app. now left.
        -- intros (x & Hx & Ht). apply in_app_or in Hx.
           destruct Hx as [Hx|[<-|[]]]; [now exists x|].
           subst t. now apply Hiff.
      * assert (Hnot : ~ In (topic m) (Group.topics g0)).
        { intros C. apply existsb_opt_in in C. congruence. }
        split.
        -- apply NoDup_app; repeat split; [exact Hnd0 | | ].
           ++ repeat constructor. intros [].
           ++ intros x Hx [<-|[]]. now apply Hnot.
        -- intros t. rewrite in_app_iff, Hiff. split.
           ++ intros [(x & Hx & Ht)|[<-|[]]].
              ** exists x. split; [apply in_or_app; now left | exact Ht].
              ** exists m. split; [apply in_or_app; right; now left
                                  | reflexivity].
           ++ intros (x & Hx & Ht). apply in_app_or in Hx.
              destruct Hx as [Hx|[<-|[]]]; [left; now exists x|].
              right. now left.
    + unfold group_init. cbn [Group._id Group.topics].
      rewrite String.eqb_refl, members_nil.
      * split; [repeat constructor; intros []|]. intros t. cbn [app In].
        split.
        -- intros [<-|[]]. exists m. split; [now left | reflexivity].
        -- intros (x & [<-|[]] & Ht). now left.
      * intros x Hx C. apply Hn. rewrite <- C. now apply Hcov.
Qed.

Lemma keep_truthy_in (ts : list (option string)) (s : string) :
  In s (keep_truthy ts) <-> In (Some s) ts /\ s <> "".
Proof.
  induction ts as [|t ts IH]; cbn [keep_truthy In]; [tauto|].
  destruct t as [[|c x]|]; cbn [truthy In]; rewrite IH.
  - split; [tauto|]. intros [[C|H] Hs]; [|tauto].
    injection C as <-. now elim Hs.
  - split.
    + intros [<-|[H Hs]]; [split; [now left | discriminate] | tauto].
    + intros [[C|H] Hs]; [left; congruence | tauto].
  - split; [tauto|]. intros [[C|H] Hs]; [discriminate | tauto].
Qed.

Lemma keep_truthy_NoDup (ts : list (option string)) :
  NoDup ts -> NoDup (keep_truthy ts).
Proof.
  induction 1 as [|t ts Ht _ IH]; cbn [keep_truthy]; [constructor|].
  destruct t as [[|c x]|]; cbn [truthy]; try exact IH.
  constructor; [|exact IH]. intros C. apply keep_truthy_in in C. tauto.
Qed.

(** X23: the topics of an item are the topics found on the messages of its
    customer that passed the filter, each once, without the absent and the
    empty one. *)
Theorem conversations_topics
    (pcre : string -> result (string -> bool)) (db : Db)
    (q : option string) (sort : string) (limit : Z) (items : list Item.t) :
  conversations pcre db q sort limit (Ok items) ->
  exists keep,
    stage_match pcre q = Ok keep /\
    forall it, In it items ->
      NoDup (Item.topics it) /\
      forall s, In s (Item.topics it) <->
                s <> "" /\
                exists m, In m (group_of keep db (Item.customer_id it)) /\
                          topic m = Some s.
Proof.
  unfold conversations, grouped.
  destruct (bson_int limit) as [lim|e]; cbn [bind]; [|discriminate].
  destruct (stage_match pcre q) as [keep|e]; cbn [bind]; [|discriminate].
  destruct (limit_stage lim) as [n|e]; cbn [bind]; [|discriminate].
  intros (out & Hem & Hr). exists keep. split; [reflexivity|].
  intros it Hit.
  destruct (render_all_in db _ items it (eq_sym Hr) Hit) as (g' & Hg' & Hrg).
  apply firstn_in in Hg'.
  destruct (emitted_in _ _ _ g' Hem Hg') as (g & Hg & H1 & _ & _ & _ & Hp).
  destruct (render_ok db g' it Hrg) as (R1 & _ & _ & R4).
  destruct (stage_group_topics _ g Hg) as [Hnd Hiff].
  unfold group_of. rewrite R1, R4, <- H1. split.
  - apply keep_truthy_NoDup. eapply Permutation_NoDup; eassumption.
  - intros s. rewrite keep_truthy_in, <- Hiff. split.
    + intros [Hin Hs]. split; [exact Hs|].
      eapply Permutation_in; [symmetry; exact Hp | exact Hin].
    + intros [Hs Hin]. split; [|exact Hs].
      eapply Permutation_in; eassumption.
Qed.

Lemma conversations_topics_witness :
  exists keep,
    stage_match reject_all None = Ok keep /\
    forall it, In it [item_a; item_b] ->
      NoDup (Item.topics it) /\
      forall s, In s (Item.topics it) <->
                s <> "" /\
                exists m, In m (group_of keep sample_db (Item.customer_id it))
                          /\ topic m = Some s.
Proof.
  apply (conversations_topics reject_all sample_db None "-urgency" 100).
  unfold conversations. rewrite sample_grouped by lia.
  exists [group_a; group_b]. split; [|vm_compute; reflexivity].
  exists [group_a; group_b]. split; [apply same_groups_refl|].
  split; [reflexivity|]. repeat constructor; cbn; lia.
Defined.

(** ** Documents: [serialize] *)

Module DocFacts.
Import Doc.

Lemma get_set_same (k : string) (v : value) (d : t) :
  get k (set k v d) = Some v.
Proof.
  induction d as [|[k' v'] d IH]; cbn [set get].
  - now rewrite String.eqb_refl.
  - destruct (String.eqb k' k) eqn:E; cbn [get].
    + now rewrite String.eqb_refl.
    + now rewrite E.
Qed.

Lemma get_set_other (k k0 : string) (v : value) (d : t) :
  k0 <> k -> get k0 (set k v d) = get k0 d.
Proof.
  intros H. induction d as [|[k' v'] d IH]; cbn [set get].
  - now replace (String.eqb k k0) with false
      by (symmetry; apply String.eqb_neq; congruence).
  - destruct (String.eqb k' k) eqn:E; cbn [get].
    + apply String.eqb_eq in E. subst k'.
      now replace (String.eqb k k0) with false
        by (symmetry; apply String.eqb_neq; congruence).
    + now rewrite IH.
Qed.

Lemma get_none_keys (k : string) (d : t) :
  get k d = None <-> ~ In k (keys d).
Proof.
  unfold keys. induction d as [|[k' v'] d IH]; cbn [get map In fst].
  - tauto.
  - destruct (String.eqb k' k) eqn:E.
    + apply String.eqb_eq in E. split; [discriminate | tauto].
    + apply String.eqb_neq in E. rewrite IH. tauto.
Qed.

Lemma keys_remove_incl (k k0 : string) (d : t) :
  In k0 (keys (remove k d)) -> In k0 (keys d).
Proof.
  unfold keys. induction d as [|[k' v'] d IH]; cbn [remove map In fst];
    [tauto|].
  destruct (String.eqb k' k); cbn [map In fst]; tauto.
Qed.

Lemma remove_NoDup (k : string) (d : t) :
  NoDup (keys d) -> NoDup (keys (remove k d)) /\ ~ In k (keys (remove k d)).
Proof.
  unfold keys. induction d as [|[k' v'] d IH]; cbn [remove map fst];
    intros H.
  - split; [constructor | intros []].
  - inversion H as [|? ? Hk Hd]; subst.
    destruct (String.eqb k' k) eqn:E.
    + apply String.eqb_eq in E. subst k'. now split.
    + apply String.eqb_neq in E. destruct (IH Hd) as [I1 I2].
      cbn [map fst]. split.
      * constructor; [|exact I1]. intros C. apply Hk.
        now apply (keys_remove_incl k).
      * cbn [In]. tauto.
Qed.

Lemma get_remove_other (k k0 : string) (d : t) :
  k0 <> k -> get k0 (remove k d) = get k0 d.
Proof.
  intros H. induction d as [|[k' v'] d IH]; cbn [remove get]; [reflexivity|].
  destruct (String.eqb k' k) eqn:E; cbn [get].
  - apply String.eqb_eq in E. subst k'.
    now replace (String.eqb k k0) with false
      by (symmetry; apply String.eqb_neq; congruence).
  - now rewrite IH.
Qed.

Lemma keys_set (k : string) (v : value) (d : t) :
  keys (set k v d) = keys d \/
  (keys (set k v d) = (keys d ++ [k])%list /\ ~ In k (keys d)).
Proof.
  unfold keys. induction d as [|[k' v'] d IH]; cbn [set map fst].
  - right. split; [reflexivity | intros []].
  - destruct (String.eqb k' k) eqn:E; cbn [map fst].
    + apply String.eqb_eq in E. subst k'. now left.
    + apply String.eqb_neq in E. destruct IH as [IH|[IH Hn]].
      * left. now rewrite IH.
      * right. split; [cbn [app]; now rewrite IH|]. cbn [In]. tauto.
Qed.

Lemma set_NoDup (k : string) (v : value) (d : t) :
  NoDup (keys d) -> NoDup (keys (set k v d)).
Proof.
  intros H. destruct (keys_set k v d) as [->|[-> Hn]]; [exact H|].
  apply NoDup_app; repeat split; [exact H | | ].
  - repeat constructor. intros [].
  - intros x Hx [<-|[]]. now apply Hn.
Qed.

Lemma set_middle (k : string) (v v0 : value) (l1 l2 : t) :
  ~ In k (keys l1) ->
  set k v (l1 ++ (k, v0) :: l2)%list = (l1 ++ (k, v) :: l2)%list.
Proof.
  unfold keys. induction l1 as [|[k' v'] l1 IH]; cbn [app set map fst In];
    intros H.
  - now rewrite String.eqb_refl.
  - replace (String.eqb k' k) with false
      by (symmetry; apply String.eqb_neq; tauto).
    rewrite IH; [reflexivity | tauto].
Qed.

Section Loop.

Variable isoformat : Z -> string.

Let conv (kv : string * value) : string * value :=
  (fst kv, converted isoformat (snd kv)).

Lemma keys_conv (d : t) : keys (map conv d) = keys d.
Proof. unfold keys. rewrite map_map. now apply map_ext. Qed.

(** The loop over the snapshot rewrites each datetime where it stands. *)
Lemma convert_loop (done rest : t) :
  NoDup (keys (done ++ rest)%list) ->
  fold_left (convert_step isoformat) rest (map conv done ++ rest)%list
  = map conv (done ++ rest)%list.
Proof.
  revert done. induction rest as [|[k v] rest IH]; intros done H;
    cbn [fold_left].
  - now rewrite !app_nil_r.
  - assert (Hk : ~ In k (keys (map conv done))).
    { rewrite keys_conv. unfold keys in *. rewrite map_app in H.
      cbn [map fst] in H. apply NoDup_remove_2 in H.
      intros C. apply H. apply in_or_app. now left. }
    assert (E : convert_step isoformat
                  (map conv done ++ (k, v) :: rest)%list (k, v)
                = (map conv (done ++ [(k, v)]) ++ rest)%list).
    { unfold convert_step. cbn [snd fst]. rewrite map_app. cbn [map].
      rewrite <- app_assoc. cbn [app]. unfold conv at 2. cbn [fst snd].
      destruct v; cbn [converted]; try reflexivity.
      now apply set_middle. }
    rewrite E. specialize (IH (done ++ [(k, v)])%list).
    rewrite <- app_assoc in IH. cbn [app] in IH. now apply IH.
Qed.

Lemma convert_all (d : t) :
  NoDup (keys d) -> fold_left (convert_step isoformat) d d = map conv d.
Proof. intros H. now apply (convert_loop [] d). Qed.

Lemma get_conv (k : string) (d : t) :
  get k (map conv d) = option_map (converted isoformat) (get k d).
Proof.
  induction d as [|[k' v'] d IH]; cbn [map get]; [reflexivity|].
  unfold conv at 1. cbn [fst snd]. now destruct (String.eqb k' k).
Qed.

Lemma converted_twice (v : value) :
  converted isoformat (converted isoformat v) = converted isoformat v.
Proof. now destruct v. Qed.

End Loop.

Section Props.

Variable py_str : value -> string.
Variable isoformat : Z -> string.

(** The dictionary before the loop. *)
Let renamed (d : t) : t :=
  match get "_id" d with
  | Some v => set "id" (VStr (py_str v)) (remove "_id" d)
  | None => d
  end.

Lemma renamed_NoDup (d : t) : NoDup (keys d) -> NoDup (keys (renamed d)).
Proof.
  intros H. unfold renamed. destruct (get "_id" d); [|exact H].
  apply set_NoDup. now apply remove_NoDup.
Qed.

Lemma serialize_some (d : t) :
  NoDup (keys d) -> d <> [] ->
  serialize py_str isoformat (Some d)
  = Some (map (fun kv => (fst kv, converted isoformat (snd kv))) (renamed d)).
Proof.
  intros H Hne. destruct d as [|kv d]; [now elim Hne|].
  unfold serialize. fold (renamed (kv :: d)).
  now rewrite convert_all by now apply renamed_NoDup.
Qed.

Lemma renamed_no_id (d : t) :
  NoDup (keys d) -> get "_id" (renamed d) = None.
Proof.
  intros H. unfold renamed. destruct (get "_id" d) eqn:E; [|exact E].
  rewrite get_set_other by discriminate.
  apply get_none_keys. now apply remove_NoDup.
Qed.

(** X15: on a document with fields, [serialize] leaves no [_id]; when
    there was one, [id] holds its string, whatever [id] held before; every
    field other than these two keeps its value, a datetime turned into its
    ISO string; and no datetime is left at all. *)
Theorem serialize_fields (d : t) :
  NoDup (keys d) -> d <> [] ->
  exists d',
    serialize py_str isoformat (Some d) = Some d' /\
    get "_id" d' = None /\
    (forall v, get "_id" d = Some v -> get "id" d' = Some (VStr (py_str v))) /\
    (get "_id" d = None ->
     get "id" d' = option_map (converted isoformat) (get "id" d)) /\
    (forall k, k <> "_id" -> k <> "id" ->
               get k d' = option_map (converted isoformat) (get k d)) /\
    (forall k t, get k d' <> Some (VDatetime t)).
Proof.
  intros H Hne. eexists. split; [now apply serialize_some|].
  repeat split.
  - now rewrite get_conv, renamed_no_id.
  - intros v Hv. rewrite get_conv. unfold renamed. rewrite Hv.
    now rewrite get_set_same.
  - intros Hv. rewrite get_conv. unfold renamed. now rewrite Hv.
  - intros k K1 K2. rewrite get_conv. unfold renamed.
    destruct (get "_id" d); [|reflexivity].
    rewrite get_set_other by congruence.
    now rewrite get_remove_other by congruence.
  - intros k t0. rewrite get_conv.
    destruct (get k (renamed d)) as [[]|]; cbn; discriminate.
Qed.

(** X16: serializing twice is serializing once. *)
Theorem serialize_idempotent (doc : option t) :
  match doc with
  | Some d => NoDup (keys d)
  | None => True
  end ->
  serialize py_str isoformat (serialize py_str isoformat doc)
  = serialize py_str isoformat doc.
Proof.
  destruct doc as [d|]; [|reflexivity]. intros H.
  destruct d as [|kv d]; [reflexivity|].
  rewrite (serialize_some (kv :: d)) by (assumption || discriminate).
  remember (map (fun kv0 : string * value =>
                   (fst kv0, converted isoformat (snd kv0)))
              (renamed (kv :: d))) as d1 eqn:E1.
  assert (N1 : NoDup (keys d1)).
  { rewrite E1, (keys_conv isoformat). now apply renamed_NoDup. }
  assert (I1 : get "_id" d1 = None).
  { rewrite E1, (get_conv isoformat), renamed_no_id by assumption.
    reflexivity. }
  destruct d1 as [|kv1 d1']; [reflexivity|].
  etransitivity;
    [apply (serialize_some (kv1 :: d1')); (assumption || discriminate)|].
  f_equal. unfold renamed at 1. rewrite I1.
  rewrite E1, map_map. apply map_ext. intros [k v]. cbn [fst snd].
  now rewrite converted_twice.
Qed.

End Props.

End DocFacts.

Lemma serialize_fields_witness :
  exists d',
    Doc.serialize sample_str sample_iso (Some sample_doc) = Some d' /\
    Doc.get "_id" d' = None /\
    (forall v, Doc.get "_id" sample_doc = Some v ->
               Doc.get "id" d' = Some (Doc.VStr (sample_str v))) /\
    (Doc.get "_id" sample_doc = None ->
     Doc.get "id" d'
     = option_map (Doc.converted sample_iso) (Doc.get "id" sample_doc)) /\
    (forall k, k <> "_id" -> k <> "id" ->
               Doc.get k d'
               = option_map (Doc.converted sample_iso)
                   (Doc.get k sample_doc)) /\
    (forall k t, Doc.get k d' <> Some (Doc.VDatetime t)).
Proof.
  apply (DocFacts.serialize_fields sample_str sample_iso sample_doc).
  - cbn. repeat constructor; cbn; intuition discriminate.
  - discriminate.
Defined.

Lemma serialize_idempotent_witness :
  Doc.serialize sample_str sample_iso
    (Doc.serialize sample_str sample_iso (Some sample_doc))
  = Doc.serialize sample_str sample_iso (Some sample_doc).
Proof.
  apply (DocFacts.serialize_idempotent sample_str sample_iso
           (Some sample_doc)).
  cbn. repeat constructor; cbn; intuition discriminate.
Defined.

(** ** Lookups by identifier *)

Lemma ascii_upper_length (s : string) :
  String.length (ascii_upper s) = String.length s.
Proof. induction s as [|c s IH]; cbn; [reflexivity | now rewrite IH]. Qed.

Lemma is_hex_upper (c : ascii) : is_hex (upper_char c) = is_hex c.
Proof. unfold is_hex. now rewrite lower_upper_char. Qed.

Lemma is_space_upper (c : ascii) : is_space (upper_char c) = is_space c.
Proof.
  destruct c as [[] [] [] [] [] [] [] []]; reflexivity.
Qed.

Lemma list_ascii_upper (s : string) :
  list_ascii_of_string (ascii_upper s)
  = map upper_char (list_ascii_of_string s).
Proof.
  induction s as [|c s IH]; cbn [ascii_upper list_ascii_of_string map];
    [reflexivity|].
  now rewrite IH.
Qed.

(** [fromhex] reads capitals as it reads small letters; the statement
    carries the list and the list with one more character in front, the two
    shapes [fromhex] recurses on. *)
Lemma fromhex_upper_both (cs : list ascii) :
  fromhex (map upper_char cs) = fromhex cs /\
  forall c, fromhex (map upper_char (c :: cs)) = fromhex (c :: cs).
Proof.
  induction cs as [|d rest [IH1 IH2]].
  - split; [reflexivity|]. intros c. cbn [map fromhex].
    rewrite is_space_upper. reflexivity.
  - split; [apply IH2|]. intros c.
    change (map upper_char (c :: d :: rest))
      with (upper_char c :: upper_char d :: map upper_char rest).
    cbn [fromhex]. rewrite is_space_upper.
    destruct (is_space c).
    + exact (IH2 d).
    + rewrite !is_hex_upper, !lower_upper_char, IH1. reflexivity.
Qed.

Lemma ObjectId_upper (s : string) : ObjectId (ascii_upper s) = ObjectId s.
Proof.
  unfold ObjectId. rewrite ascii_upper_length, list_ascii_upper.
  now rewrite (proj1 (fromhex_upper_both (list_ascii_of_string s))).
Qed.

(** X18: [get_customer] answers 400 to an identifier that is not
    twenty-four characters long, and takes an identifier in capitals for
    the same identifier in small letters. *)
Theorem get_customer_identifier (db : Db) (customer_id : string) :
  (if Nat.eqb (String.length customer_id) 24 then True
   else get_customer db customer_id = HTTPException 400 "Invalid id") /\
  get_customer db (ascii_upper customer_id) = get_customer db customer_id.
Proof.
  split.
  - destruct (Nat.eqb (String.length customer_id) 24) eqn:E; [exact I|].
    unfold get_customer, oid, ObjectId. now rewrite E.
  - unfold get_customer, oid. now rewrite ObjectId_upper.
Qed.

(** X17: the customer shown in an item of [conversations] is what
    [get_customer] returns for the item's identifier, and an item without
    customer is one with an empty identifier or one [get_customer] answers
    404 to. *)
Theorem conversations_customer_lookup
    (pcre : string -> result (string -> bool)) (db : Db)
    (q : option string) (sort : string) (limit : Z) (items : list Item.t) :
  conversations pcre db q sort limit (Ok items) ->
  forall it, In it items ->
    (Item.customer_id it = "" /\ Item.customer it = None) \/
    get_customer db (Item.customer_id it)
    = match Item.customer it with
      | Some c => Returns c
      | None => HTTPException 404 "Customer not found"
      end.
Proof.
  unfold conversations.
  destruct (grouped pcre db q limit) as [[groups n]|e]; [|discriminate].
  intros (out & _ & Hr) it Hit.
  destruct (render_all_in db _ items it (eq_sym Hr) Hit) as (g & _ & Hg).
  unfold render, find_customer in Hg.
  destruct (Group._id g) as [|c key] eqn:K; cbn [bind] in Hg.
  - injection Hg as <-. left. now split.
  - destruct (ObjectId (String c key)) as [o|e] eqn:O; cbn [bind] in Hg;
      [|discriminate].
    injection Hg as <-. right.
    cbn [Item.customer_id Item.customer]. unfold get_customer, oid.
    rewrite O.
    now destruct (find (fun c0 => String.eqb (cust_id c0) o)
                    (customer_coll db)).
Qed.

Lemma conversations_customer_lookup_witness :
  (Item.customer_id item_a = "" /\ Item.customer item_a = None) \/
  get_customer sample_db (Item.customer_id item_a)
  = match Item.customer item_a with
    | Some c => Returns c
    | None => HTTPException 404 "Customer not found"
    end.
Proof.
  apply (conversations_customer_lookup reject_all sample_db None "-urgency"
           100 [item_a; item_b]); [|now left].
  unfold conversations. rewrite sample_grouped by lia.
  exists [group_a; group_b]. split; [|vm_compute; reflexivity].
  exists [group_a; group_b]. split; [apply same_groups_refl|].
  split; [reflexivity|]. repeat constructor; cbn; lia.
Defined.

(** ** Listing messages *)

Lemma given_some (p : option string) (x : string) :
  given p = Some x -> p = Some x /\ x <> "".
Proof.
  destruct p as [[|c r]|]; cbn; try discriminate.
  intros H. injection H as <-. split; [reflexivity | discriminate].
Qed.

Lemma flt_true (cid st tp : option string) (m : Message) :
  flt cid st tp m = true ->
  (forall c, given cid = Some c -> customer_id m = c) /\
  (forall x, given st = Some x -> status m = x) /\
  (forall x, given tp = Some x -> topic m = Some x).
Proof.
  unfold flt. intros H. apply andb_true_iff in H. destruct H as [H H3].
  apply andb_true_iff in H. destruct H as [H1 H2]. repeat split.
  - intros c E. rewrite E in H1. now apply String.eqb_eq.
  - intros x E. rewrite E in H2. now apply String.eqb_eq.
  - intros x E. rewrite E in H3. now apply opt_string_eqb_eq.
Qed.

(** X19: a listing asked with a limit that is not negative holds only
    stored messages that meet every criterion given (an empty criterion is
    none), in the order asked for, at most [limit] of them when the limit
    is positive; and no message that meets the criteria is missing unless
    the listing is full. *)
Theorem list_messages_selects
    (pcre : string -> result (string -> bool))
    (first_batch : list Message -> list Message) (db : Db)
    (cid st q tp : option string) (sort : string) (limit : Z)
    (items : list Message) :
  0 <= limit ->
  list_messages pcre first_batch db cid st q tp sort limit (Ok items) ->
  StronglySorted (precedes sort) items /\
  (0 < limit -> Z.of_nat (List.length items) <= limit) /\
  exists keep,
    stage_match pcre q = Ok keep /\
    (forall m, In m items ->
       In m (message_coll db) /\ keep m = true /\
       (forall c, given cid = Some c -> customer_id m = c) /\
       (forall x, given st = Some x -> status m = x) /\
       (forall x, given tp = Some x -> topic m = Some x)) /\
    (limit = 0 \/ Z.of_nat (List.length items) < limit ->
     forall m, In m (message_coll db) -> flt cid st tp m = true ->
               keep m = true -> In m items).
Proof.
  intros Hl. unfold list_messages.
  destruct (bson_int (Z.abs limit)) as [lim|e]; [|discriminate].
  destruct (stage_match pcre q) as [keep|e]; [|discriminate].
  intros (out & Hperm & Hsorted & Hr). injection Hr as ->.
  assert (Hsub : forall m, In m (cursor_limit first_batch limit out) ->
                           In m out).
  { unfold cursor_limit. intros m.
    destruct (limit =? 0) eqn:E0; [tauto|]. apply Z.eqb_neq in E0.
    replace (0 <? limit) with true by (symmetry; apply Z.ltb_lt; lia).
    apply firstn_in. }
  split; [|split].
  - unfold cursor_limit. destruct (limit =? 0) eqn:E0; [exact Hsorted|].
    apply Z.eqb_neq in E0.
    replace (0 <? limit) with true by (symmetry; apply Z.ltb_lt; lia).
    now apply sorted_firstn.
  - intros Hpos. unfold cursor_limit.
    replace (limit =? 0) with false by (symmetry; apply Z.eqb_neq; lia).
    replace (0 <? limit) with true by (symmetry; apply Z.ltb_lt; lia).
    rewrite length_firstn. lia.
  - exists keep. split; [reflexivity|]. split.
    + intros m Hm. apply Hsub in Hm.
      apply (Permutation_in _ (Permutation_sym Hperm)) in Hm.
      apply filter_In in Hm. destruct Hm as [Hin Hk].
      apply andb_true_iff in Hk. destruct Hk as [Hf Hk].
      split; [exact Hin|]. split; [exact Hk|]. now apply flt_true.
    + intros Hfull m Hin Hf Hk.
      assert (In m out) as Hout.
      { eapply Permutation_in; [exact Hperm|]. apply filter_In.
        split; [exact Hin|]. now rewrite Hf, Hk. }
      unfold cursor_limit in *.
      destruct (limit =? 0) eqn:E0; [exact Hout|].
      apply Z.eqb_neq in E0.
      replace (0 <? limit) with true in * by (symmetry; apply Z.ltb_lt; lia).
      destruct Hfull as [C|Hshort]; [lia|].
      rewrite length_firstn in Hshort.
      rewrite firstn_all2 by lia. exact Hout.
Qed.

Lemma list_messages_selects_witness :
  StronglySorted (precedes "-urgency") [msg1; msg3] /\
  exists keep,
    stage_match reject_all None = Ok keep /\
    (forall m, In m [msg1; msg3] ->
       In m (message_coll sample_db) /\ keep m = true /\
       (forall c, given (Some cust_a) = Some c -> customer_id m = c) /\
       (forall x, given (Some "") = Some x -> status m = x) /\
       (forall x, given None = Some x -> topic m = Some x)).
Proof.
  destruct (list_messages_selects reject_all whole_batch sample_db
              (Some cust_a) (Some "") None None "-urgency" 2 [msg1; msg3])
    as (H1 & _ & keep & Hk & H2 & _).
  - lia.
  - unfold list_messages. cbn [bson_int Z.abs stage_match].
    replace ((2 <? - 2 ^ 63) || (2 ^ 63 - 1 <? 2)) with false by reflexivity.
    exists [msg1; msg3]. split; [|split].
    + rewrite sample_db_value. reflexivity.
    + repeat constructor; cbn; lia.
    + reflexivity.
  - split; [exact H1|]. exists keep. now split.
Defined.

Section SortedUnique.

Variable A : Type.
Variable R : A -> A -> Prop.

(** Two arrangements of the same elements in an order that never allows two
    distinct elements either way round are the same list. *)
Lemma sorted_perm_unique (l1 l2 : list A) :
  StronglySorted R l1 -> StronglySorted R l2 -> Permutation l1 l2 ->
  (forall a b, In a l1 -> In b l1 -> R a b -> R b a -> a = b) ->
  l1 = l2.
Proof.
  intros H1. revert l2.
  induction H1 as [|a l1 Hs1 IH Ha]; intros l2 H2 Hp Hanti.
  - apply Permutation_nil in Hp. now subst.
  - destruct l2 as [|b l2];
      [apply Permutation_sym, Permutation_nil in Hp; discriminate|].
    inversion H2 as [|? ? Hs2 Hb]; subst.
    rewrite Forall_forall in Ha, Hb.
    assert (Hab : a = b).
    { assert (In b (a :: l1)) as Hin
        by (eapply Permutation_in; [symmetry; exact Hp | now left]).
      assert (In a (b :: l2)) as Hin'
        by (eapply Permutation_in; [exact Hp | now left]).
      destruct Hin as [->|Hin]; [reflexivity|].
      destruct Hin' as [->|Hin']; [reflexivity|].
      apply Hanti; [now left | now right | now apply Ha | now apply Hb]. }
    subst b. f_equal. apply IH.
    + exact Hs2.
    + now apply Permutation_cons_inv in Hp.
    + intros x y Hx Hy. apply Hanti; now right.
Qed.

End SortedUnique.

Lemma precedes_antisym (sort : string) (a b : Message) :
  precedes sort a b -> precedes sort b a -> id a = id b.
Proof. unfold precedes. destruct (String.eqb sort "-urgency"); lia. Qed.

(** X20: unlike [conversations], [list_messages] has one outcome: its sort
    ends on the identifier, which no two stored messages share. *)
Theorem list_messages_unique
    (pcre : string -> result (string -> bool))
    (first_batch : list Message -> list Message) (db : Db)
    (cid st q tp : option string) (sort : string) (limit : Z)
    (r1 r2 : result (list Message)) :
  NoDup (map id (message_coll db)) ->
  list_messages pcre first_batch db cid st q tp sort limit r1 ->
  list_messages pcre first_batch db cid st q tp sort limit r2 ->
  r1 = r2.
Proof.
  intros Hnd. unfold list_messages.
  destruct (bson_int (Z.abs limit)) as [lim|e]; [|congruence].
  destruct (stage_match pcre q) as [keep|e]; [|congruence].
  intros (out1 & Hp1 & Hs1 & ->) (out2 & Hp2 & Hs2 & ->).
  f_equal. f_equal.
  apply (sorted_perm_unique _ (precedes sort)); try assumption.
  - now rewrite <- Hp1.
  - intros a b Ha Hb Hab Hba.
    apply (same_key_same_element _ id (message_coll db)); try assumption.
    + apply (Permutation_in _ (Permutation_sym Hp1)) in Ha.
      now apply filter_In in Ha.
    + apply (Permutation_in _ (Permutation_sym Hp1)) in Hb.
      now apply filter_In in Hb.
    + now apply (precedes_antisym sort).
Qed.

Lemma list_messages_unique_witness :
  Ok (cursor_limit whole_batch 0 [msg2; msg1; msg3])
  = Ok (cursor_limit whole_batch 0
          (rev (rev [msg2; msg1; msg3]))).
Proof.
  apply (list_messages_unique reject_all whole_batch sample_db None None None
           None "-urgency" 0).
  - rewrite sample_db_value. cbn. repeat constructor; cbn;
      intuition discriminate.
  - unfold list_messages. cbn [bson_int Z.abs stage_match].
    replace ((0 <? - 2 ^ 63) || (2 ^ 63 - 1 <? 0)) with false by reflexivity.
    exists [msg2; msg1; msg3]. split; [|split].
    + rewrite sample_db_value. cbn. fold msg1 msg2 msg3.
      apply perm_swap.
    + repeat constructor; cbn; lia.
    + reflexivity.
  - unfold list_messages. cbn [bson_int Z.abs stage_match].
    replace ((0 <? - 2 ^ 63) || (2 ^ 63 - 1 <? 0)) with false by reflexivity.
    exists (rev (rev [msg2; msg1; msg3])). split; [|split].
    + rewrite sample_db_value. cbn. fold msg1 msg2 msg3.
      apply perm_swap.
    + repeat constructor; cbn; lia.
    + reflexivity.
Defined.

(** ** CSV import *)

Section ImportFacts.

Variable lower : string -> string.
Variable new_customer_id : list Customer -> string.
Variable new_ObjectId : list Customer -> string.
Variable chan : string.

Lemma imported_well_scored (mid : Z) (cid txt : string) :
  well_scored
    (mkMessage mid cid txt chan "inbound" "open"
       (fst (score_urgency lower txt)) (snd (score_urgency lower txt))).
Proof.
  exact (stored_well_scored lower mid
           (CreateMessage.mk cid txt chan "inbound")).
Qed.

Lemma imported_as_more (customers more : list Customer) (x : string)
    (m : Message) :
  imported_as lower chan customers x m ->
  imported_as lower chan (customers ++ more) x m.
Proof.
  intros (H1 & H2 & H3 & H4 & H5 & c & Hc & Hid). repeat split; try assumption.
  exists c. split; [apply in_or_app; now left | exact Hid].
Qed.

(** Storing the message of a row for the customer [c] of the store. *)
Lemma store_row (db : Db) (n : Z) (c : Customer) (txt : string) :
  In c (customer_coll db) ->
  exists m,
    (let '(urgency, tp) := score_urgency lower txt in
     let '(db1, _) :=
       create_document db
         (fun mid =>
            mkMessage mid (cust_id c) txt chan "inbound" "open" urgency tp) in
     Some (db1, n + 1))
    = Some (mkDb (message_coll db ++ [m]) (customer_coll db), n + 1) /\
    imported_as lower chan (customer_coll db) txt m /\
    text m = txt /\ well_scored m /\ id m = fresh_id (message_coll db).
Proof.
  intros Hc. pose proof (imported_well_scored
                           (fresh_id (message_coll db)) (cust_id c) txt) as W.
  destruct (score_urgency lower txt) as [u tp] eqn:S. cbn [fst snd] in W.
  unfold create_document. eexists. split; [reflexivity|].
  split; [|split; [reflexivity | split; [exact W | reflexivity]]].
  unfold imported_as.
  cbn [text channel direction status urgency_score topic customer_id].
  rewrite S. do 5 (split; [reflexivity|]). exists c. now split.
Qed.

Ltac finish_row Him Ht Hw Hid :=
  split; [reflexivity|]; split; [reflexivity|]; split; [reflexivity|];
  split; [cbn [map]; rewrite Ht; reflexivity|];
  split; [constructor; [rewrite Ht; exact Him | constructor]|];
  split; [constructor; [exact Hw | constructor]|];
  split; [constructor; [exact Hid | constructor] | cbn; lia].

Lemma import_row_adds (db : Db) (n : Z) (row : Row) :
  exists db' added new,
    import_row lower new_customer_id new_ObjectId chan (db, n) row
    = Some (db', n + Z.of_nat (List.length added)) /\
    message_coll db' = (message_coll db ++ added)%list /\
    customer_coll db' = (customer_coll db ++ new)%list /\
    map text added = match row_text row with Some x => [x] | None => [] end /\
    Forall (fun m => imported_as lower chan (customer_coll db') (text m) m)
      added /\
    Forall well_scored added /\
    Forall (fun m => id m = fresh_id (message_coll db)) added /\
    (List.length added <= 1)%nat.
Proof.
  unfold import_row. destruct (row_text row) as [txt|].
  2:{ exists db, [], []. rewrite !app_nil_r. cbn. rewrite Z.add_0_r.
      repeat split; try (constructor; fail). lia. }
  set (cust0 :=
         match
           match given (py_or (row "email") (row "Email")) with
           | Some e => find (fun c => String.eqb (email c) e)
                         (customer_coll db)
           | None => None
           end
         with
         | Some c => Some c
         | None =>
             match given (py_or (row "phone") (row "Phone")) with
             | Some p => find (fun c => opt_string_eqb (phone c) (Some p))
                           (customer_coll db)
             | None => None
             end
         end).
  assert (Hfound : forall c, cust0 = Some c -> In c (customer_coll db)).
  { intros c. unfold cust0.
    destruct (given (py_or (row "email") (row "Email"))) as [e|].
    - destruct (find _ (customer_coll db)) as [c0|] eqn:F.
      + intros H. injection H as <-. now apply find_some in F.
      + destruct (given (py_or (row "phone") (row "Phone"))) as [p|];
          [|discriminate].
        intros H. now apply find_some in H.
    - destruct (given (py_or (row "phone") (row "Phone"))) as [p|];
        [|discriminate].
      intros H. now apply find_some in H. }
  replace (match
             match given (py_or (row "email") (row "Email")) with
             | Some e => find (fun c => String.eqb (email c) e)
                           (customer_coll db)
             | None => None
             end
           with
           | Some _ =>
               match given (py_or (row "email") (row "Email")) with
               | Some e => find (fun c => String.eqb (email c) e)
                             (customer_coll db)
               | None => None
               end
           | None =>
               match given (py_or (row "phone") (row "Phone")) with
               | Some p => find (fun c => opt_string_eqb (phone c) (Some p))
                             (customer_coll db)
               | None => None
               end
           end) with cust0
    by (unfold cust0;
        now destruct (match given (py_or (row "email") (row "Email")) with
                      | Some e => find (fun c => String.eqb (email c) e)
                                    (customer_coll db)
                      | None => None
                      end)).
  destruct cust0 as [c|] eqn:E0.
  - destruct (store_row db n c txt (Hfound c eq_refl))
      as (m & -> & Him & Ht & Hw & Hid).
    exists (mkDb (message_coll db ++ [m]) (customer_coll db)), [m], [].
    cbn [message_coll customer_coll]. rewrite app_nil_r.
    finish_row Him Ht Hw Hid.
  - set (cid := new_customer_id (customer_coll db)).
    set (doc := mkCustomer cid _ _ _ None false None None None).
    cbn [customer_coll].
    destruct (find (fun c => String.eqb (cust_id c) cid)
                (customer_coll db ++ [doc])) as [c|] eqn:F.
    + assert (Hc : In c (customer_coll
                           (mkDb (message_coll db)
                              (customer_coll db ++ [doc]))))
        by (cbn [customer_coll]; now apply find_some in F).
      destruct (store_row (mkDb (message_coll db) (customer_coll db ++ [doc]))
                  n c txt Hc) as (m & -> & Him & Ht & Hw & Hid).
      cbn [message_coll customer_coll] in *.
      exists (mkDb (message_coll db ++ [m]) (customer_coll db ++ [doc])),
        [m], [doc].
      cbn [message_coll customer_coll].
      finish_row Him Ht Hw Hid.
    + assert (Hin : In doc (customer_coll db ++ [doc]))
        by (apply in_or_app; right; now left).
      pose proof (find_none _ _ F doc Hin) as C. cbv beta in C.
      unfold doc in C. cbn [cust_id] in C.
      rewrite String.eqb_refl in C. discriminate.
Qed.

Lemma sorted_app (l1 l2 : list Message) :
  ids_increasing l1 -> ids_increasing l2 ->
  Forall (fun b => Forall (fun a => id a < id b) l1) l2 ->
  ids_increasing (l1 ++ l2).
Proof.
  unfold ids_increasing. induction 1 as [|a l1 Hs IH Ha]; intros H2 H;
    cbn [app]; [exact H2|].
  constructor.
  - apply IH; [exact H2|]. eapply Forall_impl; [|exact H].
    cbv beta. intros b Hb. now inversion Hb.
  - apply Forall_app. split; [exact Ha|].
    eapply Forall_impl; [|exact H]. cbv beta. intros b Hb. now inversion Hb.
Qed.

Lemma import_fold (reader : list Row) (db : Db) (n : Z) :
  exists db' imported,
    fold_left
      (fun st row =>
         match st with
         | Some x => import_row lower new_customer_id new_ObjectId chan x row
         | None => None
         end)
      reader (Some (db, n))
    = Some (db', n + imported) /\
    import_adds lower chan reader db db' imported.
Proof.
  revert db n. induction reader as [|row reader IH]; intros db n;
    cbn [fold_left].
  - exists db, 0. rewrite Z.add_0_r. split; [reflexivity|].
    exists [], []. rewrite !app_nil_r. repeat split; constructor.
  - destruct (import_row_adds db n row)
      as (db1 & a1 & new1 & -> & Hm1 & Hc1 & Ht1 & Hi1 & Hw1 & Hid1 & Hlen).
    destruct (IH db1 (n + Z.of_nat (List.length a1)))
      as (db2 & k & -> & a2 & new2 & -> & Hm2 & Hc2 & Ht2 & Hi2 & Hw2 & Hs2
          & Hab2).
    exists db2, (Z.of_nat (List.length a1) + Z.of_nat (List.length a2)).
    split; [f_equal; f_equal; lia|].
    exists (a1 ++ a2)%list, (new1 ++ new2)%list.
    assert (Habove : Forall (fun m => Forall (fun m0 => id m0 < id m)
                                        (message_coll db)) a1).
    { eapply Forall_impl; [|exact Hid1]. cbv beta. intros m ->.
      apply fresh_id_above. }
    rewrite Hm1 in Hab2.
    repeat split.
    + rewrite length_app. lia.
    + now rewrite Hm2, Hm1, app_assoc.
    + now rewrite Hc2, Hc1, app_assoc.
    + rewrite map_app, Ht1, Ht2. unfold texts_of. cbn [flat_map].
      reflexivity.
    + apply Forall_app. split; [|exact Hi2].
      eapply Forall_impl; [|exact Hi1]. cbv beta. intros m Hm.
      rewrite Hc2. now apply imported_as_more.
    + apply Forall_app. now split.
    + apply sorted_app; [| exact Hs2 |].
      * destruct a1 as [|x [|y a1]]; [constructor | repeat constructor|].
        cbn [List.length] in Hlen. lia.
      * eapply Forall_impl; [|exact Hab2]. cbv beta. intros b Hb.
        apply Forall_app in Hb. tauto.
    + apply Forall_app. split; [exact Habove|].
      eapply Forall_impl; [|exact Hab2]. cbv beta. intros b Hb.
      apply Forall_app in Hb. tauto.
Qed.

(** X21: [import_csv] never fails on a customer it has just looked up or
    created; it reports the number of rows with a text; for each of them,
    in order, it stores one message after the messages already there:
    inbound, open, on the import's channel, scored as [score_urgency]
    scores the text, and attached to a customer that is in the store;
    customers are only added, and the identifiers keep growing. *)
Theorem import_csv_adds (reader : list Row) (db : Db) :
  exists db' imported,
    import_csv lower new_customer_id new_ObjectId chan reader db
    = Some (db', imported) /\
    imported = Z.of_nat (List.length (texts_of reader)) /\
    import_adds lower chan reader db db' imported.
Proof.
  destruct (import_fold reader db 0) as (db' & k & E & H).
  exists db', k. unfold import_csv. rewrite E. cbn [Z.add].
  split; [reflexivity|]. split; [|exact H].
  destruct H as (added & new & -> & _ & _ & Ht & _).
  now rewrite <- Ht, length_map.
Qed.

(** X10: a row whose e-mail is the e-mail of a stored customer adds no
    customer: its message is attached to the first customer with that
    e-mail, whatever name and phone the row gives. *)
Theorem import_row_reuses_customer (db : Db) (n : Z) (row : Row)
    (e txt : string) (c : Customer) :
  row_text row = Some txt ->
  given (py_or (row "email") (row "Email")) = Some e ->
  find (fun c => String.eqb (email c) e) (customer_coll db) = Some c ->
  exists m,
    import_row lower new_customer_id new_ObjectId chan (db, n) row
    = Some (mkDb (message_coll db ++ [m]) (customer_coll db), n + 1) /\
    customer_id m = cust_id c /\ text m = txt /\ email c = e.
Proof.
  intros Ht He Hf. unfold import_row. rewrite Ht, He, Hf.
  pose proof (find_some _ _ Hf) as [Hin Heq].
  destruct (score_urgency lower txt) as [u tp].
  unfold create_document. eexists. split; [reflexivity|].
  cbn [customer_id text]. repeat split. now apply String.eqb_eq.
Qed.

End ImportFacts.

Lemma import_row_reuses_customer_witness :
  exists m,
    import_row ascii_lower sample_new_id sample_new_oid "csv"
      (sample_db, 0) alice_row
    = Some (mkDb (message_coll sample_db ++ [m]) (customer_coll sample_db),
            0 + 1) /\
    customer_id m = cust_id alice /\ text m = "my payment is overdue" /\
    email alice = "alice@example.com".
Proof.
  apply (import_row_reuses_customer ascii_lower sample_new_id sample_new_oid
           "csv" sample_db 0 alice_row "alice@example.com"
           "my payment is overdue" alice); reflexivity.
Defined.

(** The sample import: one known customer, one new, one row skipped. *)
Example import_sample :
  option_map
    (fun r => (snd r, map cust_id (customer_coll (fst r)),
               map (fun m => (customer_id m, text m, urgency_score m))
                 (message_coll (fst r))))
    (import_csv ascii_lower sample_new_id sample_new_oid "csv"
       [alice_row; blank_row; stranger_row] (mkDb [] [alice]))
  = Some (2, [cust_a; "cccccccccccccccccccccccc"],
          [ (cust_a, "my payment is overdue", 50);
            ("cccccccccccccccccccccccc", "hello", 0) ]).
Proof. vm_compute. reflexivity. Qed.

(** ** Canned responses *)

Lemma seeded_titles :
  map Canned.title (fold_left create_canned_document defaults [])
  = [ "Loan Disbursement Timeline"; "KYC Verification Steps";
      "Update Account Info"; "Repayment Options" ].
Proof. reflexivity. Qed.

Lemma by_title_titles (l : list Canned.t) :
  by_title l ->
  StronglySorted (fun a b => String.leb a b = true) (map Canned.title l).
Proof.
  unfold by_title. induction 1 as [|a l _ IH Ha]; cbn [map]; constructor;
    [exact IH|].
  now rewrite Forall_map.
Qed.

(** X26: [list_canned] never returns an empty list.  On an empty collection
    it stores the four default responses and returns them, in the order of
    their titles; on any other collection it stores nothing and returns the
    collection sorted by title.  A second call never stores anything. *)
Theorem list_canned_seeds_once (coll coll' items : list Canned.t) :
  list_canned coll coll' items ->
  items <> [] /\
  sorted_canned coll' items /\
  match coll with
  | [] =>
      coll' = fold_left create_canned_document defaults [] /\
      map Canned.title items
      = [ "KYC Verification Steps"; "Loan Disbursement Timeline";
          "Repayment Options"; "Update Account Info" ]
  | _ :: _ => coll' = coll
  end /\
  forall coll'' items', list_canned coll' coll'' items' -> coll'' = coll'.
Proof.
  intros (first & [Hp Hs] & H).
  assert (Hstay : forall c c' i, c <> [] -> list_canned c c' i -> c' = c).
  { intros c c' i Hne (f & [Hpf _] & Hf). destruct f as [|x f].
    - apply Permutation_sym, Permutation_nil in Hpf. now elim Hne.
    - now destruct Hf. }
  destruct first as [|x first].
  - apply Permutation_sym, Permutation_nil in Hp. subst coll.
    destruct H as [-> [Hp' Hs']].
    assert (Ht : map Canned.title items
                 = [ "KYC Verification Steps"; "Loan Disbursement Timeline";
                     "Repayment Options"; "Update Account Info" ]).
    { symmetry.
      apply (sorted_perm_unique _ (fun a b => String.leb a b = true)).
      - repeat constructor.
      - now apply by_title_titles.
      - rewrite <- (Permutation_map Canned.title Hp'), seeded_titles.
        apply (perm_trans (perm_swap _ _ _)).
        apply perm_skip, perm_skip, perm_swap.
      - intros a b _ _ Hab Hba.
        destruct (String.leb_antisym a b Hab Hba). reflexivity. }
    split; [|split; [|split]].
    + intros C. rewrite C in Ht. discriminate.
    + now split.
    + now split.
    + intros c'' i'. apply Hstay. discriminate.
  - destruct H as [-> ->].
    assert (Hne : coll <> []).
    { intros C. rewrite C in Hp. now apply Permutation_nil in Hp. }
    split; [discriminate|]. split; [now split|]. split.
    + destruct coll; [now elim Hne | reflexivity].
    + intros c'' i'. now apply Hstay.
Qed.

Lemma list_canned_seeds_once_witness :
  seeded_by_title <> [] /\
  sorted_canned (fold_left create_canned_document defaults [])
    seeded_by_title /\
  map Canned.title seeded_by_title
  = [ "KYC Verification Steps"; "Loan Disbursement Timeline";
      "Repayment Options"; "Update Account Info" ] /\
  one_canned <> [] /\ sorted_canned one_canned one_canned.
Proof.
  destruct (list_canned_seeds_once []
              (fold_left create_canned_document defaults [])
              seeded_by_title)
    as (S1 & S2 & S3 & _).
  - exists []. split; [split; [reflexivity | constructor]|].
    split; [reflexivity|]. split.
    + cbn. apply (perm_trans (perm_swap _ _ _)).
      apply perm_skip, perm_skip, perm_swap.
    + repeat constructor.
  - destruct (list_canned_seeds_once one_canned one_canned one_canned)
      as (H1 & H2 & _).
    + exists one_canned.
      split; [split; [reflexivity | repeat constructor]|]. now split.
    + split; [exact S1|]. split; [exact S2|]. split; [exact (proj2 S3)|].
      split; [exact H1 | exact H2].
Defined.

(** ** Identifiers with whitespace

    Twenty-four characters of which two are spaces pass [ObjectId]: the
    identifier read is shorter than any stored one, so [get_customer]
    answers 404 and [conversations] lists the item without customer. *)
Example identifier_with_spaces :
  ObjectId "aaaaaaaaaaaaaaaaaaaaaa  " = Ok "aaaaaaaaaaaaaaaaaaaaaa" /\
  get_customer sample_db "aaaaaaaaaaaaaaaaaaaaaa  "
  = HTTPException 404 "Customer not found" /\
  ObjectId "a aaaaaaaaaaaaaaaaaaaaa " = Raise InvalidId /\
  conversations_with reject_all sort_desc
    (db (post sample_app
           (CreateMessage.mk "bbbbbbbbbbbbbbbbbbbbbb  " "hi" "web" "inbound")))
    None "recent" 1
  = Ok [Item.mk "bbbbbbbbbbbbbbbbbbbbbb  " None "hi" 0 []].
Proof. repeat split; vm_compute; reflexivity. Qed.
